(** * netlds: the structured Gaussian smoother of [netlds/inference.py]

    A shallow embedding of [SmoothingLDS] (and of the prior-variable
    initialisers of [netlds/generative.py]) together with the properties
    the specification states about them.  The generative models of
    [netlds/generative.py] ([LDS], [LDSCoupled], [PLDS], [FLDS]) and
    [SmoothingLDSCoupled] follow, with properties read off their code.

    Conventions of the embedding.
    - Tensors are nested lists: a vector is a [list R], a matrix a list of
      rows, a [[T, d, d]] tensor a list of matrices, a batch a list of
      those.  Scalars are real numbers, that is the arithmetic of the
      source is taken to be exact.
    - The inner dimension of every tensor is the static one the source
      declares ([dim_latent]); it is passed to the operations explicitly.
    - A TensorFlow operation that can fail returns a [result]. *)

From Stdlib Require Import String.
From Stdlib Require Import Reals Lra Lia List ZArith Bool Arith.
Import ListNotations.

Open Scope R_scope.

(* ================================================================== *)
(** * Errors *)

Inductive error : Type :=
| ShapeError
| NumericalError
| InvalidConfigurationError
| InvalidArgumentError
| UnimplementedError.

Inductive result (A : Type) : Type :=
| Ok (a : A)
| Err (e : error).

Arguments Ok {A} a.
Arguments Err {A} e.

Definition bind {A B : Type} (r : result A) (k : A -> result B) : result B :=
  match r with
  | Ok a => k a
  | Err e => Err e
  end.

Notation "x <- r ;; k" := (bind r (fun x => k))
  (at level 61, r at next level, right associativity).

Fixpoint mapM {A B : Type} (f : A -> result B) (xs : list A) : result (list B) :=
  match xs with
  | [] => Ok []
  | x :: xs' => y <- f x ;; ys <- mapM f xs' ;; Ok (y :: ys)
  end.

(* ================================================================== *)
(** * Dense tensors *)

(** Vectors and matrices (lists of rows). *)
Abbreviation vec := (list R) (only parsing).
Abbreviation mat := (list (list R)) (only parsing).

(** Sum of [f 0 .. f (n-1)]: the reduction every contraction is made of. *)
Fixpoint rsum (n : nat) (f : nat -> R) : R :=
  match n with
  | O => 0
  | S n' => rsum n' f + f n'
  end.

Definition vnth (x : vec) (i : nat) : R := nth i x 0.
Definition mget (M : mat) (i j : nat) : R := nth j (nth i M []) 0.

Definition mkvec (n : nat) (f : nat -> R) : vec := map f (seq 0 n).
Definition mkmat (r c : nat) (f : nat -> nat -> R) : mat :=
  map (fun i => mkvec c (f i)) (seq 0 r).

Section Ops.
(** [d] is the static size of the two inner axes ([dim_latent]). *)
Variable d : nat.

Definition eye : mat := mkmat d d (fun i j => if Nat.eqb i j then 1 else 0).
(** [c * M] for a Python scalar [c]. *)
Definition mscale (c : R) (M : mat) : mat :=
  mkmat d d (fun i j => c * mget M i j).
(** [tf.matmul(X, Y)]. *)
Definition matmul (X Y : mat) : mat :=
  mkmat d d (fun i j => rsum d (fun k => mget X i k * mget Y k j)).
(** [tf.transpose] of the two inner axes. *)
Definition transpose (X : mat) : mat := mkmat d d (fun i j => mget X j i).
(** [X + Y], [X - Y], [-X], elementwise. *)
Definition madd (X Y : mat) : mat := mkmat d d (fun i j => mget X i j + mget Y i j).
Definition msub (X Y : mat) : mat := mkmat d d (fun i j => mget X i j - mget Y i j).
Definition mneg (X : mat) : mat := mkmat d d (fun i j => - mget X i j).
(** [tf.reduce_sum(tf.multiply(M, tf.expand_dims(x, -2)), axis=-1)]:
    the matrix-vector product. *)
Definition mv (M : mat) (x : vec) : vec :=
  mkvec d (fun i => rsum d (fun j => mget M i j * vnth x j)).
Definition vadd (x y : vec) : vec := mkvec d (fun i => vnth x i + vnth y i).
Definition vsub (x y : vec) : vec := mkvec d (fun i => vnth x i - vnth y i).
Definition dot (x y : vec) : R := rsum d (fun i => vnth x i * vnth y i).
(** [tf.matrix_diag_part]. *)
Definition matrix_diag_part (M : mat) : vec := mkvec d (fun i => mget M i i).
End Ops.

(** [tf.tile(xs, [multiple, 1, 1])]: the leading axis repeated.  The kernel
    rejects a negative multiple. *)
Definition tile {A : Type} (xs : list A) (multiple : Z) : result (list A) :=
  if (multiple <? 0)%Z then Err InvalidArgumentError
  else Ok (concat (repeat xs (Z.to_nat multiple))).

(** [tf.expand_dims(x, 0)]. *)
Definition expand_dims0 {A : Type} (x : A) : list A := [x].

(** [tf.scan] over three tensors zipped along their leading axis; the
    carried value is ignored by every step function of the source, so only
    the stacked outputs are kept. *)
Fixpoint scan3 {A B C D : Type} (fn : A -> B -> C -> result D)
         (xs : list A) (ys : list B) (zs : list C) : result (list D) :=
  match xs, ys, zs with
  | [], [], [] => Ok []
  | x :: xs', y :: ys', z :: zs' =>
      r <- fn x y z ;; rs <- scan3 fn xs' ys' zs' ;; Ok (r :: rs)
  | _, _, _ => Err ShapeError
  end.

(** A Python dict with string keys, as an association list. *)
Fixpoint lookup {A : Type} (key : string) (dict : list (string * A)) : option A :=
  match dict with
  | [] => None
  | (k, v) :: dict' => if String.eqb k key then Some v else lookup key dict'
  end.

Fixpoint zip_with {A B C : Type} (f : A -> B -> C) (xs : list A) (ys : list B)
  : list C :=
  match xs, ys with
  | x :: xs', y :: ys' => f x y :: zip_with f xs' ys'
  | _, _ => []
  end.

(** [tf.add] of two [[_, d, d]] tensors: leading axes must agree, or one of
    them has size one and is broadcast. *)
Definition add_lead (d : nat) (xs ys : list mat) : result (list mat) :=
  if Nat.eqb (length xs) (length ys) then Ok (zip_with (madd d) xs ys)
  else match xs, ys with
       | [x], _ => Ok (map (fun y => madd d x y) ys)
       | _, [y] => Ok (map (fun x => madd d x y) xs)
       | _, _ => Err ShapeError
       end.

(* ================================================================== *)
(** * Shapes and definiteness *)

Definition wf_vec (d : nat) (x : vec) : Prop := length x = d.
Definition wf_mat (d : nat) (M : mat) : Prop :=
  length M = d /\ Forall (fun row => length row = d) M.

Definition vzero (d : nat) : vec := mkvec d (fun _ => 0).

Definition symmetric (d : nat) (M : mat) : Prop := transpose d M = M.
(** The quadratic form [x^T M x]. *)
Definition quad (d : nat) (M : mat) (x : vec) : R := dot d x (mv d M x).
Definition posdef (d : nat) (M : mat) : Prop :=
  forall x, wf_vec d x -> x <> vzero d -> 0 < quad d M x.
Definition possemidef (d : nat) (M : mat) : Prop :=
  forall x, wf_vec d x -> 0 <= quad d M x.
(** Symmetric positive definite. *)
Definition spd (d : nat) (M : mat) : Prop :=
  wf_mat d M /\ symmetric d M /\ posdef d M.

Definition lower_triangular (d : nat) (C : mat) : Prop :=
  forall i j, (i < j)%nat -> (j < d)%nat -> mget C i j = 0.
Definition positive_diagonal (d : nat) (C : mat) : Prop :=
  forall i, (i < d)%nat -> 0 < mget C i i.
(** What a dense Cholesky factor looks like. *)
Definition chol_factor (d : nat) (C : mat) : Prop :=
  wf_mat d C /\ lower_triangular d C /\ positive_diagonal d C.

(* ================================================================== *)
(** * Block matrices expanded to dense ones *)

Section Expand.
Variable d : nat.

(** Entry [(I, J)] of the dense matrix of a block-tridiagonal operand:
    diagonal blocks [Ds], sub-diagonal blocks [Ls], and the transposes of
    the latter above the diagonal. *)
Definition tridiag_entry (Ds Ls : list mat) (I J : nat) : R :=
  let t := (I / d)%nat in let s := (J / d)%nat in
  let i := (I mod d)%nat in let j := (J mod d)%nat in
  if Nat.eqb t s then mget (nth t Ds []) i j
  else if Nat.eqb t (S s) then mget (nth s Ls []) i j
  else if Nat.eqb s (S t) then mget (nth t Ls []) j i
  else 0.

(** Entry [(I, J)] of the dense matrix of a block-bidiagonal factor:
    diagonal blocks [Cs], sub-diagonal blocks [Es]. *)
Definition bidiag_entry (Cs Es : list mat) (I J : nat) : R :=
  let t := (I / d)%nat in let s := (J / d)%nat in
  let i := (I mod d)%nat in let j := (J mod d)%nat in
  if Nat.eqb t s then mget (nth t Cs []) i j
  else if Nat.eqb t (S s) then mget (nth s Es []) i j
  else 0.

(** Entry [I] of the dense vector of a block vector. *)
Definition block_entry (xs : list vec) (I : nat) : R :=
  vnth (nth (I / d) xs []) (I mod d).

(** The [(T d) x (T d)] matrices and the [T d] vector. *)
Definition expand_tridiag (Ds Ls : list mat) : mat :=
  mkmat (length Ds * d) (length Ds * d) (tridiag_entry Ds Ls).
Definition expand_bidiag (Cs Es : list mat) : mat :=
  mkmat (length Cs * d) (length Cs * d) (bidiag_entry Cs Es).
Definition flatten (xs : list vec) : vec :=
  mkvec (length xs * d) (block_entry xs).

(** The blocks of a dense vector. *)
Definition chunk (X : vec) (t : nat) : vec :=
  mkvec d (fun i => vnth X (t * d + i)).
Definition chunks (T : nat) (X : vec) : list vec := map (chunk X) (seq 0 T).

(** A quadratic form, on the entries. *)
Definition dquad (n : nat) (e : nat -> nat -> R) (g : nat -> R) : R :=
  rsum n (fun I => g I * rsum n (fun J => e I J * g J)).
End Expand.

(* ================================================================== *)
(** * chol_utils *)

Module CholUtils.
Section Kernels.
Variable d : nat.
(** [tf.cholesky] on one [d x d] matrix. *)
Variable cholesky : mat -> result mat.
(** [tf.matrix_triangular_solve(C, b, lower=True, adjoint)] on one
    right-hand side: the solution of [C x = b], or of [C^T x = b] when
    [adjoint] is set. *)
Variable triangular_solve : mat -> vec -> bool -> vec.

(** [L (C^T)^-1] by triangular solves: row [i] of the result solves
    [C e = row i of L]. *)
Definition right_solve_T (L C : mat) : mat :=
  map (fun i => triangular_solve C (nth i L []) false) (seq 0 d).

Fixpoint chol_rec (Cprev : mat) (Ds Ls : list mat)
  : result (list mat * list mat) :=
  match Ds, Ls with
  | D :: Ds', L :: Ls' =>
      let E := right_solve_T L Cprev in
      C <- cholesky (msub d D (matmul d E (transpose d E))) ;;
      rest <- chol_rec C Ds' Ls' ;;
      Ok (C :: fst rest, E :: snd rest)
  | _, _ => Ok ([], [])
  end.

(** Modelled from the spec: [netlds/chol_utils.py] ([blk_tridiag_chol])
    is not among the sources.  Section 4.1: [C_1 = cholesky(D_1)], then
    [E_(t-1) = L_(t-1) (C_(t-1)^T)^-1] and
    [C_t = cholesky(D_t - E_(t-1) E_(t-1)^T)] for [t = 2..T]; section 7:
    an empty sequence or a zero latent dimension is an
    [InvalidConfigurationError], mismatched lengths a [ShapeError], a
    failing dense factorization a [NumericalError]. *)
Definition blk_tridiag_chol (Ds Ls : list mat)
  : result (list mat * list mat) :=
  match Ds with
  | [] => Err InvalidConfigurationError
  | D1 :: Ds' =>
      if Nat.eqb d 0 then Err InvalidConfigurationError
      else if negb (Nat.eqb (length Ls) (length Ds')) then Err ShapeError
      else
        C1 <- cholesky D1 ;;
        rest <- chol_rec C1 Ds' Ls ;;
        Ok (C1 :: fst rest, snd rest)
  end.

(** Forward substitution: [X_t = C_t^-1 (B_t - E_(t-1) X_(t-1))]. *)
Fixpoint forward_rec (Xprev : vec) (Cs Es : list mat) (Bs : list vec)
  : list vec :=
  match Cs, Es, Bs with
  | C :: Cs', E :: Es', B :: Bs' =>
      let X := triangular_solve C (vsub d B (mv d E Xprev)) false in
      X :: forward_rec X Cs' Es' Bs'
  | _, _, _ => []
  end.

Definition forward_subst (Cs Es : list mat) (Bs : list vec) : list vec :=
  match Cs, Bs with
  | C1 :: Cs', B1 :: Bs' =>
      let X1 := triangular_solve C1 B1 false in
      X1 :: forward_rec X1 Cs' Es Bs'
  | _, _ => []
  end.

(** Backward substitution: [X_T = C_T^-T B_T], then
    [X_t = C_t^-T (B_t - E_t^T X_(t+1))] for [t = T-1 .. 1]. *)
Fixpoint backward_subst (Cs Es : list mat) (Bs : list vec) : list vec :=
  match Cs, Bs with
  | C :: Cs', B :: Bs' =>
      match Es with
      | [] => [triangular_solve C B true]
      | E :: Es' =>
          let Xs := backward_subst Cs' Es' Bs' in
          triangular_solve C
            (vsub d B (mv d (transpose d E) (hd (vzero d) Xs))) true :: Xs
      end
  | _, _ => []
  end.

(** Modelled from the spec: [netlds/chol_utils.py] ([blk_chol_inv]) is
    not among the sources.  Section 4.2 defines two modes,
    [lower=true, transpose=false] (forward substitution, [C x = b]) and
    [lower=false, transpose=true] (backward substitution, [C^T x = b]);
    no other combination of the flags is given a meaning, and it is
    rejected here.  The right-hand side has one column per block, as
    [build_graph] passes it.  Section 7 gives the errors. *)
Definition blk_chol_inv (Cs Es : list mat) (Bs : list vec)
           (lower transpose : bool) : result (list vec) :=
  match Cs with
  | [] => Err InvalidConfigurationError
  | _ :: Cs' =>
      if Nat.eqb d 0 then Err InvalidConfigurationError
      else if negb (Nat.eqb (length Es) (length Cs')
                    && Nat.eqb (length Bs) (length Cs)) then Err ShapeError
      else match lower, transpose with
           | true, false => Ok (forward_subst Cs Es Bs)
           | false, true => Ok (backward_subst Cs Es Bs)
           | _, _ => Err InvalidArgumentError
           end
  end.
End Kernels.
End CholUtils.

(* ================================================================== *)
(** * SmoothingLDS: the precision operand *)

Module SmoothingLDS.

(** The attributes set by [__init__]. *)
Record t : Type := Build {
  dim_input : nat;
  dim_latent : nat;
  rng : Z;
  num_time_pts : nat
}.

(** [SmoothingLDS.__init__]: stores its arguments. *)
Definition init (dim_input dim_latent : nat) (rng : Z) (num_time_pts : nat)
  : result t :=
  Ok (Build dim_input dim_latent rng num_time_pts).

Section PrecisionMatrix.
Variable self : t.
(** [self.A], [self.Q0inv], [self.Qinv]. *)
Variables A Q0inv Qinv : mat.

Let d := dim_latent self.
Let T := num_time_pts self.

(** [self.c_psi_inv], from the reshaped encoder output. *)
Definition c_psi_inv (r_psi_sqrt : list (list mat)) : list (list mat) :=
  map (map (fun r => matmul d r (transpose d r))) r_psi_sqrt.

Definition AQ0invA_Qinv : mat :=
  madd d (matmul d (matmul d A Q0inv) (transpose d A)) Qinv.
Definition AQinvA_Qinv : mat :=
  madd d (matmul d (matmul d A Qinv) (transpose d A)) Qinv.
Definition AQ0inv : mat := matmul d (mneg d A) Q0inv.
Definition AQinv : mat := matmul d (mneg d A) Qinv.

(** The local [Sinv_diag], name [precision_diag_static]. *)
Definition Sinv_diag_static : result (list mat) :=
  tiled <- tile (expand_dims0 AQinvA_Qinv) (Z.of_nat T - 2) ;;
  Ok (concat [expand_dims0 Q0inv; expand_dims0 AQ0invA_Qinv; tiled]).

(** [self.Sinv_diag]: the static blocks plus the data term, for every
    element of the batch. *)
Definition Sinv_diag (r_psi_sqrt : list (list mat)) : result (list (list mat)) :=
  static <- Sinv_diag_static ;;
  mapM (add_lead d static) (c_psi_inv r_psi_sqrt).

Definition Sinv_ldiag0 : result (list mat) :=
  Sinv_ldiag <- tile (expand_dims0 AQinv) (Z.of_nat T - 2) ;;
  Ok (concat [expand_dims0 AQ0inv; Sinv_ldiag]).
End PrecisionMatrix.

(** The values of the TensorFlow variables created by
    [_initialize_model_vars]. *)
Record model_vars : Type := Vars {
  z0_mean : mat;
  A : mat;
  Q_sqrt : mat;
  Q0_sqrt : mat
}.

Section ModelVars.
Variable self : t.
(** [tf.matrix_inverse]. *)
Variable matrix_inverse : mat -> mat.
Let d := dim_latent self.

(** [self.gen_params = {}]: "lazy for now". *)
Definition gen_params : list (string * mat) := [].

(** The initial values [_initialize_model_vars] gives the variables. *)
Definition initial_vars : model_vars :=
  Vars
    (match lookup "z0_mean" gen_params with
     | Some v => v
     | None => [mkvec d (fun _ => 0)]
     end)
    (match lookup "A" gen_params with
     | Some v => v
     | None => mscale d 0.5 (eye d)
     end)
    (match lookup "Q_sqrt" gen_params with
     | Some v => v
     | None => eye d
     end)
    (match lookup "Q0_sqrt" gen_params with
     | Some v => v
     | None => eye d
     end).

(** The tensors [_initialize_model_vars] derives from the variables. *)
Definition Q0 (v : model_vars) : mat :=
  matmul d (Q0_sqrt v) (transpose d (Q0_sqrt v)).
Definition Q (v : model_vars) : mat :=
  matmul d (Q_sqrt v) (transpose d (Q_sqrt v)).
Definition Q0inv (v : model_vars) : mat := matrix_inverse (Q0 v).
Definition Qinv (v : model_vars) : mat := matrix_inverse (Q v).
End ModelVars.

(** What [build_graph] leaves on [self], evaluated on one batch: every
    node is a [result], being computed only when it is asked for. *)
Record graph : Type := Graph {
  m_psi : list (list vec);
  r_psi_sqrt : list (list mat);
  chol_decomp_Sinv : result (list (list mat) * list (list mat));
  post_z_means : result (list (list vec));
  (** [post_z_samples] as a function of the value drawn for [samples_z]. *)
  post_z_samples : list (list vec) -> result (list (list vec))
}.

Section BuildGraph.
Variable cholesky : mat -> result mat.
Variable triangular_solve : mat -> vec -> bool -> vec.
Variable self : t.
Variables A Q0inv Qinv : mat.
Let d := dim_latent self.

Definition scan_chol (Sinv_ldiag0 : list mat) (inputs : list mat)
  : result (list mat * list mat) :=
  CholUtils.blk_tridiag_chol d cholesky triangular_solve inputs Sinv_ldiag0.

(** [self.chol_decomp_Sinv]: [scan_chol] over the batch. *)
Definition precision_chol_decomp (r_psi_sqrt : list (list mat))
  : result (list (list mat) * list (list mat)) :=
  diag <- Sinv_diag self A Q0inv Qinv r_psi_sqrt ;;
  ldiag0 <- Sinv_ldiag0 self A Q0inv Qinv ;;
  decomp <- mapM (scan_chol ldiag0) diag ;;
  Ok (map fst decomp, map snd decomp).

(** [ia]: [c_psi_inv] applied to [m_psi], per batch element and step. *)
Definition ia (m_psi : list (list vec)) (r_psi_sqrt : list (list mat))
  : list (list vec) :=
  zip_with (zip_with (mv d)) (c_psi_inv self r_psi_sqrt) m_psi.

Definition scan_chol_inv (chol_decomp_Sinv_0 chol_decomp_Sinv_1 : list mat)
           (ia : list vec) : result (list vec) :=
  ib <- CholUtils.blk_chol_inv d triangular_solve
          chol_decomp_Sinv_0 chol_decomp_Sinv_1 ia true false ;;
  CholUtils.blk_chol_inv d triangular_solve
    chol_decomp_Sinv_0 chol_decomp_Sinv_1 ib false true.

(** [self.post_z_means].  The initializer [ia[0]] of the scan is a
    throwaway value: no step reads the carried value, and over an empty
    batch the scan returns the empty tensor. *)
Definition posterior_mean (m_psi : list (list vec))
           (r_psi_sqrt : list (list mat)) : result (list (list vec)) :=
  chol <- precision_chol_decomp r_psi_sqrt ;;
  scan3 scan_chol_inv (fst chol) (snd chol) (ia m_psi r_psi_sqrt).

Definition scan_chol_half_inv (chol_decomp_Sinv_0 chol_decomp_Sinv_1 : list mat)
           (samples : list vec) : result (list vec) :=
  CholUtils.blk_chol_inv d triangular_solve
    chol_decomp_Sinv_0 chol_decomp_Sinv_1 samples false true.

Definition posterior_samples (m_psi : list (list vec))
           (r_psi_sqrt : list (list mat)) (samples_z : list (list vec))
  : result (list (list vec)) :=
  means <- posterior_mean m_psi r_psi_sqrt ;;
  chol <- precision_chol_decomp r_psi_sqrt ;;
  rands <- scan3 scan_chol_half_inv (fst chol) (snd chol) samples_z ;;
  Ok (zip_with (zip_with (vadd d)) means rands).

(** The part of [build_graph] after the model variables and the encoder:
    shared, line for line, by [SmoothingLDS.build_graph] and
    [SmoothingLDSCoupled.build_graph]. *)
Definition build_nodes (m_psi : list (list vec))
           (r_psi_sqrt : list (list mat)) : graph :=
  Graph m_psi r_psi_sqrt
        (precision_chol_decomp r_psi_sqrt)
        (posterior_mean m_psi r_psi_sqrt)
        (posterior_samples m_psi r_psi_sqrt).
End BuildGraph.

Section Entropy.
Variable self : t.
Let d := dim_latent self.
Let T := num_time_pts self.

Definition total (xs : list R) : R := fold_right Rplus 0 xs.

(** [tf.reduce_mean(x, axis=0)] of a [[B, T, d]] tensor. *)
Definition reduce_mean0 (x : list (list vec)) : list vec :=
  map (fun t =>
         mkvec d (fun i =>
           total (map (fun xb => vnth (nth t xb []) i) x) / INR (length x)))
      (seq 0 T).

(** [tf.reduce_sum] over every axis of a [[T, d]] tensor. *)
Definition reduce_sum (x : list vec) : R := total (map total x).

(** [SmoothingLDS.evaluate_entropy]. *)
Definition evaluate_entropy (g : graph) : result R :=
  chol <- chol_decomp_Sinv g ;;
  let ln_det :=
    -2 * reduce_sum
           (reduce_mean0
              (map (map (fun C => map ln (matrix_diag_part d C))) (fst chol)))
  in
  Ok (ln_det / 2 + INR (d * T) / 2 * (1 + ln (2 * PI))).
End Entropy.

Section Session.
Variable cholesky : mat -> result mat.
Variable triangular_solve : mat -> vec -> bool -> vec.
Variable matrix_inverse : mat -> mat.
(** The state of the random generator behind [tf.random_normal], and one
    draw of a [[B, T, d]] tensor from it. *)
Variable generator : Type.
Variable random_normal : generator -> nat -> nat -> nat
                         -> list (list vec) * generator.
(** The layers of the encoder, from the fed observations to [m_psi] and
    the reshaped [r_psi_sqrt]. *)
Variable inference_mlp : list (list vec) -> list (list vec) * list (list mat).

Record session : Type := Session {
  variables : model_vars;
  random_state : generator
}.

(** [SmoothingLDS.build_graph], on the current value of the variables
    and a fed batch of observations. *)
Definition build_graph (self : t) (v : model_vars)
           (observations : list (list vec)) : graph :=
  let enc := inference_mlp observations in
  build_nodes cholesky triangular_solve self
              (A v) (Q0inv self matrix_inverse v) (Qinv self matrix_inverse v)
              (fst enc) (snd enc).

(** [SmoothingLDS.generate_samples]: one run of [post_z_samples]; the
    run draws [samples_z]. *)
Definition generate_samples (self : t) (sess : session)
           (observations : list (list vec))
  : result (list (list vec)) * session :=
  let draw := random_normal (random_state sess) (length observations)
                            (num_time_pts self) (dim_latent self) in
  (post_z_samples (build_graph self (variables sess) observations) (fst draw),
   Session (variables sess) (snd draw)).

(** [SmoothingLDS.get_posterior_means]. *)
Definition get_posterior_means (self : t) (sess : session)
           (observations : list (list vec)) : result (list (list vec)) :=
  post_z_means (build_graph self (variables sess) observations).
End Session.

End SmoothingLDS.

Arguments SmoothingLDS.Session {generator} variables random_state.
Arguments SmoothingLDS.variables {generator} s.
Arguments SmoothingLDS.random_state {generator} s.

(* ================================================================== *)
(** * generative.py: the prior variables *)

Module LDS.
Section PriorVars.
Variable dim_latent : nat.
Variable gen_params : list (string * mat).
Variable matrix_inverse : mat -> mat.
Let d := dim_latent.

Definition Q_sqrt_init : mat :=
  match lookup "Q_sqrt" gen_params with
  | Some v => v
  | None => mscale d 0.1 (eye d)
  end.
Definition Q0_sqrt_init : mat :=
  match lookup "Q0_sqrt" gen_params with
  | Some v => v
  | None => mscale d 0.1 (eye d)
  end.

Definition diag : mat := mscale d 1e-6 (eye d).

(** [LDS.initialize_prior_vars]: the derived covariances, in exact
    arithmetic.  In [float32] the jitter [1e-6] is below the spacing of
    the numbers from 32 on, and is absorbed by a diagonal entry that
    large. *)
Definition Q0 (Q0_sqrt : mat) : mat :=
  madd d (matmul d Q0_sqrt (transpose d Q0_sqrt)) diag.
Definition Q (Q_sqrt : mat) : mat :=
  madd d (matmul d Q_sqrt (transpose d Q_sqrt)) diag.
Definition Q0inv (Q0_sqrt : mat) : mat := matrix_inverse (Q0 Q0_sqrt).
Definition Qinv (Q_sqrt : mat) : mat := matrix_inverse (Q Q_sqrt).
End PriorVars.
End LDS.

Module LDSCoupled.
Section PriorVars.
Variable dim_latent : nat.
Variable gen_params : list (string * mat).
Variable matrix_inverse : mat -> mat.
Let d := dim_latent.

Definition Q_sqrt_init : mat :=
  match lookup "Q_sqrt" gen_params with
  | Some v => v
  | None => eye d
  end.
Definition Q0_sqrt_init : mat :=
  match lookup "Q0_sqrt" gen_params with
  | Some v => v
  | None => eye d
  end.

(** [LDSCoupled.initialize_prior_vars]: the derived covariances. *)
Definition Q0 (Q0_sqrt : mat) : mat :=
  matmul d Q0_sqrt (transpose d Q0_sqrt).
Definition Q (Q_sqrt : mat) : mat :=
  matmul d Q_sqrt (transpose d Q_sqrt).
Definition Q0inv (Q0_sqrt : mat) : mat := matrix_inverse (Q0 Q0_sqrt).
Definition Qinv (Q_sqrt : mat) : mat := matrix_inverse (Q Q_sqrt).
End PriorVars.
End LDSCoupled.

(* ================================================================== *)
(** * The precision operand as the specification words it *)

Module Spec.
Section Assembler.
Variables (d T : nat) (A Q0inv Qinv : mat).

(** Section 4.3: [M1 = A Q0inv A^T + Qinv], [M0 = Q0inv],
    [Off = -A Qinv], [Off0 = -A Q0inv]. *)
Definition M1 : mat :=
  madd d (matmul d (matmul d A Q0inv) (transpose d A)) Qinv.
Definition M0 : mat := Q0inv.
Definition Off : mat := mneg d (matmul d A Qinv).
Definition Off0 : mat := mneg d (matmul d A Q0inv).

(** [D_t] and [L_t] for [t] counted from one; [c] holds
    [c_psi_inv[1..T]]. *)
Definition D (c : list mat) (t : nat) : mat :=
  if Nat.eqb t 1 then madd d M0 (nth 0 c [])
  else if Nat.ltb t T then madd d M1 (nth (t - 1) c [])
  else madd d Qinv (nth (t - 1) c []).
Definition L (t : nat) : mat :=
  if Nat.eqb t 1 then Off0 else Off.
End Assembler.

Section Entropy.
Variables d T : nat.

(** Section 4.4: [logdet(S) = 2 sum_t sum_i log(C_t[i,i])] and
    [entropy = 0.5 (-logdet(S)) + (T d / 2) (1 + log 2 pi)], for the
    diagonal blocks [Cs] of one sequence. *)
Definition logdet (Cs : list mat) : R :=
  2 * SmoothingLDS.total
        (map (fun C => rsum d (fun i => ln (mget C i i))) Cs).
Definition entropy (Cs : list mat) : R :=
  0.5 * (- logdet Cs) + (INR T * INR d / 2) * (1 + ln (2 * PI)).
End Entropy.

(** The average over a batch. *)
Definition batch_mean (xs : list R) : R :=
  SmoothingLDS.total xs / INR (length xs).
End Spec.

(* ================================================================== *)
(** * Views of the assembled operand used in the statements *)

(** The value of the static diagonal and sub-diagonal when the tiling
    succeeds. *)
Definition static_blocks (self : SmoothingLDS.t) (A Q0inv Qinv : mat) : list mat :=
  Q0inv :: SmoothingLDS.AQ0invA_Qinv self A Q0inv Qinv
        :: repeat (SmoothingLDS.AQinvA_Qinv self A Qinv)
                  (SmoothingLDS.num_time_pts self - 2).

Definition static_lower (self : SmoothingLDS.t) (A Q0inv Qinv : mat) : list mat :=
  SmoothingLDS.AQ0inv self A Q0inv
    :: repeat (SmoothingLDS.AQinv self A Qinv)
              (SmoothingLDS.num_time_pts self - 2).

(** The assembled operand of one sequence is the one section 4.3 states:
    [D_t] and [L_t] are read at position [t - 1]. *)
Definition operand_as_stated (self : SmoothingLDS.t) (A Q0inv Qinv : mat)
           (r_psi_sqrt : list mat) : Prop :=
  let d := SmoothingLDS.dim_latent self in
  let T := SmoothingLDS.num_time_pts self in
  let c := map (fun r => matmul d r (transpose d r)) r_psi_sqrt in
  exists Ds Ls,
    SmoothingLDS.Sinv_diag self A Q0inv Qinv [r_psi_sqrt] = Ok [Ds] /\
    SmoothingLDS.Sinv_ldiag0 self A Q0inv Qinv = Ok Ls /\
    (forall t, (1 <= t <= T)%nat ->
               nth (t - 1) Ds [] = Spec.D d T A Q0inv Qinv c t) /\
    (forall t, (1 <= t <= T - 1)%nat ->
               nth (t - 1) Ls [] = Spec.L d A Q0inv Qinv t).

(* ================================================================== *)
(** * Concrete data: one latent dimension *)

Module Scalar.
(** A [1 x 1] matrix. *)
Definition m1 (x : R) : list (list R) := [[x]].

(** The dense kernels in dimension one. *)
Definition cholesky (M : mat) : result mat :=
  if Rlt_dec 0 (mget M 0 0) then Ok (m1 (sqrt (mget M 0 0)))
  else Err NumericalError.
Definition triangular_solve (C : mat) (b : vec) (adjoint : bool) : vec :=
  [vnth b 0 / mget C 0 0].
Definition matrix_inverse (M : mat) : mat := m1 (/ mget M 0 0).

(** Two time steps, one latent dimension. *)
Definition two_steps : SmoothingLDS.t := SmoothingLDS.Build 1 1 0 2.
(** One time step, one latent dimension. *)
Definition one_step : SmoothingLDS.t := SmoothingLDS.Build 1 1 0 1.

(** A positive definite operand of two blocks: the dense matrix
    [[1, -1], [-1, 2]]. *)
Definition operand_diag : list (list (list R)) := [ [[1]]; [[2]] ].
Definition operand_lower : list (list (list R)) := [ [[-1]] ].
End Scalar.

(* ================================================================== *)
(** * What the dense TensorFlow kernels are relied on for *)

(** [tf.cholesky] factors every symmetric positive definite matrix into a
    lower-triangular matrix with a positive diagonal times its transpose. *)
Definition cholesky_contract (d : nat) (cholesky : mat -> result mat) : Prop :=
  forall M, spd d M ->
    exists C, cholesky M = Ok C /\ chol_factor d C /\
              matmul d C (transpose d C) = M.

(** [tf.matrix_triangular_solve] against such a factor solves [C x = b],
    and [C^T x = b] when [adjoint] is set. *)
Definition triangular_solve_contract (d : nat)
           (triangular_solve : mat -> vec -> bool -> vec) : Prop :=
  forall C b adjoint, chol_factor d C -> wf_vec d b ->
    wf_vec d (triangular_solve C b adjoint) /\
    mv d (if adjoint then transpose d C else C) (triangular_solve C b adjoint) = b.

(** [tf.matrix_inverse] inverts every symmetric positive definite matrix. *)
Definition matrix_inverse_contract (d : nat) (matrix_inverse : mat -> mat) : Prop :=
  forall M, spd d M ->
    wf_mat d (matrix_inverse M) /\
    matmul d M (matrix_inverse M) = eye d /\
    matmul d (matrix_inverse M) M = eye d.

(* ================================================================== *)
(** * Block-level views of an operand and of its factor *)

Section Blocks.
Variable d : nat.

(** The coupling [2 x'^T L x] of a block with its successor. *)
Definition cross (Ls : list mat) (x : vec) (xs' : list vec) : R :=
  match Ls, xs' with
  | L :: _, x' :: _ => 2 * dot d x' (mv d L x)
  | _, _ => 0
  end.

(** The quadratic form of a block-tridiagonal operand on a block vector. *)
Fixpoint bquad (Ds Ls : list mat) (xs : list vec) : R :=
  match Ds, xs with
  | D :: Ds', x :: xs' => quad d D x + cross Ls x xs' + bquad Ds' (tl Ls) xs'
  | _, _ => 0
  end.

Definition block_posdef (Ds Ls : list mat) : Prop :=
  forall xs, length xs = length Ds -> Forall (wf_vec d) xs ->
             Exists (fun x => x <> vzero d) xs -> 0 < bquad Ds Ls xs.

(** [Cs], [Es] continue a block factorization whose previous diagonal
    block is [Cprev]: [E C_prev^T = L] and [C C^T + E E^T = D] at every
    step. *)
Fixpoint continues_factor (Cprev : mat) (Ds Ls Cs Es : list mat) : Prop :=
  match Ds, Ls, Cs, Es with
  | [], _, [], [] => True
  | D :: Ds', L :: Ls', C :: Cs', E :: Es' =>
      chol_factor d C /\ wf_mat d E /\
      matmul d E (transpose d Cprev) = L /\
      madd d (matmul d C (transpose d C)) (matmul d E (transpose d E)) = D /\
      continues_factor C Ds' Ls' Cs' Es'
  | _, _, _, _ => False
  end.

(** [Cs], [Es] are the block Cholesky factor of the operand [Ds], [Ls]. *)
Definition block_factor (Ds Ls Cs Es : list mat) : Prop :=
  match Ds, Cs with
  | D1 :: Ds', C1 :: Cs' =>
      chol_factor d C1 /\ matmul d C1 (transpose d C1) = D1 /\
      continues_factor C1 Ds' Ls Cs' Es
  | _, _ => False
  end.
End Blocks.

(* ================================================================== *)
(** * Concrete data: a session *)

Module Run.
(** A generator that draws the tensor filled with [1] at every state. *)
Definition fixed_normal (state : nat) (B T d : nat)
  : list (list (list R)) * nat :=
  (repeat (repeat (repeat 1 d) T) B, S state).

(** An encoder with zero mean and precision contributions, for sequences
    of two steps in one latent dimension. *)
Definition zero_mlp (observations : list (list (list R)))
  : list (list (list R)) * list (list (list (list R))) :=
  (map (fun _ => [ [0]; [0] ]) observations,
   map (fun _ => [ [[0]]; [[0]] ]) observations).

(** [A = Q_sqrt = Q0_sqrt = 1]. *)
Definition unit_vars : SmoothingLDS.model_vars :=
  SmoothingLDS.Vars [[0]] [[1]] [[1]] [[1]].

(** One observed sequence of two steps. *)
Definition observations : list (list (list R)) := [ [ [0]; [0] ] ].

Definition generate_samples :=
  SmoothingLDS.generate_samples Scalar.cholesky Scalar.triangular_solve
    Scalar.matrix_inverse nat fixed_normal zero_mlp Scalar.two_steps.
End Run.

(* ================================================================== *)
(** * Tensor operations of the generative graph *)

Section RowOps.
(** [k] is the static size of the contracted axis, [m] of the one that
    remains. *)
Variables k m : nat.

(** [tf.tensordot(z, W, axes=[[last], [0]])] on one vector of the last
    axis of [z]; also one row of [tf.matmul(Z, W)]. *)
Definition tensordot (z : vec) (W : mat) : vec :=
  mkvec m (fun j => rsum k (fun i => vnth z i * mget W i j)).

(** [tf.matmul(Z, W)] for [Z] of shape [[N, k]]. *)
Definition matmul_rows (Z : list vec) (W : mat) : list vec :=
  map (fun z => tensordot z W) Z.
End RowOps.

(** [tf.multiply(x, y)] on the last axis. *)
Definition vmul (n : nat) (x y : vec) : vec :=
  mkvec n (fun i => vnth x i * vnth y i).

(** The row of a variable of shape [[1, n]], which broadcasting repeats
    along the leading axes of the other operand. *)
Definition row0 (M : mat) : vec := nth 0 M [].

(** [tf.transpose(x, perm=[1, 0, 2])] of a [[rows, cols, _]] tensor. *)
Definition transpose_lead (rows cols : nat) (x : list (list vec))
  : list (list vec) :=
  map (fun j => map (fun i => nth j (nth i x []) []) (seq 0 rows)) (seq 0 cols).

(** [tf.scan(fn, elems, initializer)]: the stacked values of the
    accumulator. *)
Fixpoint scan {A B : Type} (fn : A -> B -> A) (elems : list B) (initializer : A)
  : list A :=
  match elems with
  | [] => []
  | x :: elems' => let a := fn initializer x in a :: scan fn elems' a
  end.

(** [tf.scan] over elements whose shape is not static (the number of
    samples is fed at run time): over an empty leading axis the stacked
    output cannot be built, and the run fails. *)
Definition scan_dynamic {A B : Type} (fn : A -> B -> A) (elems : list B)
           (initializer : A) : result (list A) :=
  match elems with
  | [] => Err UnimplementedError
  | _ :: _ => Ok (scan fn elems initializer)
  end.

(** Broadcasting along a leading axis: the sizes agree, or one of them is
    one. *)
Definition broadcast_lead {A B C : Type} (f : A -> B -> C)
           (xs : list A) (ys : list B) : result (list C) :=
  if Nat.eqb (length xs) (length ys) then Ok (zip_with f xs ys)
  else match xs, ys with
       | [x], _ => Ok (map (f x) ys)
       | _, [y] => Ok (map (fun x => f x y) xs)
       | _, _ => Err ShapeError
       end.

(** [tf.reduce_mean(x, axis=[0, 1])] of a [[B, MC, n, k]] tensor, and of a
    [[B, MC, k]] tensor. *)
Definition reduce_mean01 (n k : nat) (x : list (list (list vec))) : list vec :=
  map (fun t =>
         mkvec k (fun i =>
           SmoothingLDS.total
             (map (fun xb =>
                     SmoothingLDS.total
                       (map (fun xbm => vnth (nth t xbm []) i) xb)) x)
           / INR (length x * length (nth 0 x []))))
      (seq 0 n).
Definition reduce_mean01_vec (k : nat) (x : list (list vec)) : vec :=
  mkvec k (fun i =>
    SmoothingLDS.total
      (map (fun xb => SmoothingLDS.total (map (fun xbm => vnth xbm i) xb)) x)
    / INR (length x * length (nth 0 x []))).

(* ================================================================== *)
(** * generative.py: the class [LDS] *)

Module GenerativeLDS.

(** The attributes set by [__init__]. *)
Record t : Type := Build {
  dim_obs : nat;
  dim_latent : nat;
  post_z_samples : option (list (list (list vec)));
  num_time_pts : nat;
  gen_params : list (string * mat)
}.

(** [LDS.__init__]: [gen_params=None] becomes the empty dict. *)
Definition init (dim_obs dim_latent : nat)
           (post_z_samples : option (list (list (list vec))))
           (num_time_pts : nat) (gen_params : option (list (string * mat))) : t :=
  Build dim_obs dim_latent post_z_samples num_time_pts
        (match gen_params with
         | None => []
         | Some params => params
         end).

(** [LDS.initialize_prior_vars]: the initial values of the variables. *)
Definition initialize_prior_vars (self : t) : SmoothingLDS.model_vars :=
  SmoothingLDS.Vars
    (match lookup "z0_mean" (gen_params self) with
     | Some v => v
     | None => [mkvec (dim_latent self) (fun _ => 0)]
     end)
    (match lookup "A" (gen_params self) with
     | Some v => v
     | None => mscale (dim_latent self) 0.5 (eye (dim_latent self))
     end)
    (LDS.Q_sqrt_init (dim_latent self) (gen_params self))
    (LDS.Q0_sqrt_init (dim_latent self) (gen_params self)).

(** The variables created by [_initialize_mapping]. *)
Record mapping_vars : Type := Mapping {
  Rsqrt : mat;
  C : mat;
  d : mat
}.

Section Mapping.
(** The value [tr_norm_initializer] gives the variable of that name and
    shape when the variables are initialised. *)
Variable tr_norm_initializer : string -> nat -> nat -> mat.

(** [LDS._initialize_mapping]: the initial values of the variables. *)
Definition _initialize_mapping (self : t) : mapping_vars :=
  Mapping
    (match lookup "Rsqrt" (gen_params self) with
     | Some v => v
     | None => tr_norm_initializer "Rsqrt" 1 (dim_obs self)
     end)
    (match lookup "C" (gen_params self) with
     | Some v => v
     | None => tr_norm_initializer "C" (dim_latent self) (dim_obs self)
     end)
    (match lookup "d" (gen_params self) with
     | Some v => v
     | None => tr_norm_initializer "d" 1 (dim_obs self)
     end).
End Mapping.

(** [self.R = tf.square(self.Rsqrt)] and [self.Rinv = 1.0 / self.R]; the
    names [R] and [Rinv] are those of the reals. *)
Definition obs_R (w : mapping_vars) : mat := map (map (fun x => x * x)) (Rsqrt w).
Definition obs_Rinv (w : mapping_vars) : mat := map (map (fun r => 1 / r)) (obs_R w).

(** [LDS._apply_mapping], on a tensor of rank four; [d] has the shape
    [[1, dim_obs]] of its declaration. *)
Definition _apply_mapping (self : t) (w : mapping_vars)
           (z_samples : list (list (list vec))) : list (list (list vec)) :=
  map (map (map (fun z =>
    vadd (dim_obs self)
         (tensordot (dim_latent self) (dim_obs self) z (C w))
         (row0 (d w)))))
      z_samples.

(** The two tensors [_sample_yz] leaves on [self]. *)
Record prior_samples : Type := Samples {
  z_samples_prior : list (list vec);
  y_samples_prior : list (list vec)
}.

Section Sampler.
Variable self : t.
(** The current values of the variables. *)
Variable v : SmoothingLDS.model_vars.
Variable w : mapping_vars.
Let dz := dim_latent self.
Let dy := dim_obs self.
Let T := num_time_pts self.

(** [x[:, 0, :]] for [x] of shape [[N, T, _]]: index [0] is out of bounds
    when the time axis is empty. *)
Definition slice_first (x : list (list vec)) : result (list vec) :=
  if Nat.eqb T 0 then Err InvalidArgumentError
  else Ok (map (fun s => nth 0 s []) x).

(** [x[:, 1:, :]]. *)
Definition slice_rest (x : list (list vec)) : list (list vec) :=
  map (@tl (list R)) x.

(** [tf.squeeze(self._apply_mapping(expanded_z), axis=[1, 2])] with
    [expanded_z = tf.expand_dims(tf.expand_dims(z_val, axis=1), axis=1)]. *)
Definition mapped (z_val : list vec) : list vec :=
  map (fun y => nth 0 (nth 0 y []) [])
      (_apply_mapping self w (map (fun z => [[z]]) z_val)).

(** [tf.multiply(rand_y, self.Rsqrt)]. *)
Definition obs_noise (rand_y : list vec) : list vec :=
  map (fun r => vmul dy r (row0 (Rsqrt w))) rand_y.

Definition lds_update (outputs : list vec * list vec)
           (inputs : list vec * list vec) : list vec * list vec :=
  let z_val := fst outputs in
  let rand_z := fst inputs in
  let rand_y := snd inputs in
  let z_val :=
    zip_with (vadd dz)
             (matmul_rows dz dz z_val (transpose dz (SmoothingLDS.A v)))
             (matmul_rows dz dz rand_z (transpose dz (SmoothingLDS.Q_sqrt v))) in
  let y_val := zip_with (vadd dy) (mapped z_val) (obs_noise rand_y) in
  (z_val, y_val).

(** [LDS._sample_yz], evaluated for [num_samples] samples on the values
    drawn for [latent_rand_samples] and [obs_rand_samples].  With a single
    time step the scan runs over no element and fails. *)
Definition _sample_yz (num_samples : nat)
           (latent_rand_samples obs_rand_samples : list (list vec))
  : result prior_samples :=
  latent0 <- slice_first latent_rand_samples ;;
  let z0 :=
    map (fun r => vadd dz (row0 (SmoothingLDS.z0_mean v)) r)
        (matmul_rows dz dz latent0 (transpose dz (SmoothingLDS.Q0_sqrt v))) in
  obs0 <- slice_first obs_rand_samples ;;
  let y0 := zip_with (vadd dy) (mapped z0) (obs_noise obs0) in
  let rand_ph_shuff :=
    transpose_lead num_samples (T - 1) (slice_rest latent_rand_samples) in
  let obs_noise_ph_shuff :=
    transpose_lead num_samples (T - 1) (slice_rest obs_rand_samples) in
  samples <-
    scan_dynamic lds_update (combine rand_ph_shuff obs_noise_ph_shuff) (z0, y0) ;;
  let z_samples_unshuff :=
    transpose_lead (T - 1) num_samples (map fst samples) in
  let y_samples_unshuff :=
    transpose_lead (T - 1) num_samples (map snd samples) in
  Ok (Samples
        (zip_with (@app (list R)) (map (fun z => [z]) z0) z_samples_unshuff)
        (zip_with (@app (list R)) (map (fun y => [y]) y0) y_samples_unshuff)).
End Sampler.

Section LogDensity.
(** [tf.matrix_determinant]. *)
Variable matrix_determinant : mat -> R.
Variable self : t.
Variable v : SmoothingLDS.model_vars.
Variable w : mapping_vars.
(** [self.Q], [self.Q0], [self.Qinv], [self.Q0inv]. *)
Variables Q Q0 Qinv Q0inv : mat.
(** The batch fed to [self.obs_ph]. *)
Variable obs_ph : list (list vec).
Let dz := dim_latent self.
Let dy := dim_obs self.
Let T := num_time_pts self.

(** [res_y = tf.expand_dims(self.obs_ph, axis=1) - y]. *)
Definition res_y (y : list (list (list vec)))
  : result (list (list (list vec))) :=
  broadcast_lead
    (fun obs_b y_b =>
       map (fun y_bm =>
              map (fun t => vsub dy (nth t obs_b []) (nth t y_bm [])) (seq 0 T))
           y_b)
    obs_ph y.

(** [LDS._log_density_likelihood]. *)
Definition _log_density_likelihood (y : list (list (list vec))) : result R :=
  res_y <- res_y y ;;
  let res_y_Rinv_res_y :=
    reduce_mean01 T dy
      (map (map (map (fun r => vmul dy (vmul dy r r) (row0 (obs_Rinv w))))) res_y) in
  let test_like := SmoothingLDS.reduce_sum res_y_Rinv_res_y in
  Ok (-0.5 * (test_like
              + INR T * SmoothingLDS.reduce_sum (map (map ln) (obs_R w))
              + INR (T * dy) * ln (2 * PI))).

(** [LDS._log_density_prior]; [z] has [num_time_pts] time steps, and the
    slice [z[:, :, 0, :]] is out of bounds when there is none. *)
Definition _log_density_prior (z : list (list (list vec))) : result R :=
  if Nat.eqb T 0 then Err InvalidArgumentError
  else
    let res_z0 :=
      map (map (fun z_bm =>
                  vsub dz (nth 0 z_bm []) (row0 (SmoothingLDS.z0_mean v)))) z in
    let res_z :=
      map (map (fun z_bm =>
                  map (fun t =>
                         vsub dz (nth (S t) z_bm [])
                              (tensordot dz dz (nth t z_bm [])
                                         (transpose dz (SmoothingLDS.A v))))
                      (seq 0 (T - 1)))) z in
    let res_z_Qinv_res_z :=
      reduce_mean01 (T - 1) dz
        (map (map (map (fun r => vmul dz (tensordot dz dz r Qinv) r))) res_z) in
    let res_z0_Q0inv_res_z0 :=
      reduce_mean01_vec dz
        (map (map (fun r => vmul dz (tensordot dz dz r Q0inv) r)) res_z0) in
    let test_prior := SmoothingLDS.reduce_sum res_z_Qinv_res_z in
    let test_prior0 := SmoothingLDS.total res_z0_Q0inv_res_z0 in
    Ok (-0.5 * (test_prior + test_prior0
                + IZR (Z.of_nat T - 1) * ln (matrix_determinant Q)
                + ln (matrix_determinant Q0)
                + INR (T * dz) * ln (2 * PI))).

(** [LDS.log_density]. *)
Definition log_density (y z : list (list (list vec))) : result R :=
  log_density_y <- _log_density_likelihood y ;;
  log_density_z <- _log_density_prior z ;;
  Ok (log_density_y + log_density_z).
End LogDensity.

(** [LDS.get_params]: the dict built from the values the session returns
    for the variables and for [self.Q], [self.Q0]. *)
Definition get_params (v : SmoothingLDS.model_vars) (w : mapping_vars)
           (Q Q0 : mat) : list (string * mat) :=
  [("A"%string, SmoothingLDS.A v); ("C"%string, C w); ("d"%string, d w);
   ("R"%string, map (map (fun x => x * x)) (Rsqrt w));
   ("z0_mean"%string, SmoothingLDS.z0_mean v);
   ("Q"%string, Q); ("Q0"%string, Q0)].

End GenerativeLDS.

(* ================================================================== *)
(** * generative.py: the class [LDSCoupled] *)

Module GenerativeLDSCoupled.

(** The tuple [LDSCoupled.initialize_prior_vars] returns, in its order. *)
Record prior : Type := Prior {
  z0_mean : mat;
  A : mat;
  Q_sqrt : mat;
  Q : mat;
  Qinv : mat;
  Q0_sqrt : mat;
  Q0 : mat;
  Q0inv : mat
}.

Section PriorVars.
Variable matrix_inverse : mat -> mat.

(** [LDSCoupled.initialize_prior_vars], at the initial values of the
    variables. *)
Definition initialize_prior_vars (self : GenerativeLDS.t) : prior :=
  let dz := GenerativeLDS.dim_latent self in
  let gen_params := GenerativeLDS.gen_params self in
  let z0_mean :=
    match lookup "z0_mean" gen_params with
    | Some v => v
    | None => [mkvec dz (fun _ => 0)]
    end in
  let A :=
    match lookup "A" gen_params with
    | Some v => v
    | None => mscale dz 0.5 (eye dz)
    end in
  let Q_sqrt := LDSCoupled.Q_sqrt_init dz gen_params in
  let Q0_sqrt := LDSCoupled.Q0_sqrt_init dz gen_params in
  Prior z0_mean A Q_sqrt
        (LDSCoupled.Q dz Q_sqrt) (LDSCoupled.Qinv dz matrix_inverse Q_sqrt)
        Q0_sqrt
        (LDSCoupled.Q0 dz Q0_sqrt) (LDSCoupled.Q0inv dz matrix_inverse Q0_sqrt).
End PriorVars.

End GenerativeLDSCoupled.

(* ================================================================== *)
(** * generative.py: the classes [PLDS] and [FLDS] *)

(** The exceptions the classes raise themselves, or by reading an
    attribute that was never set. *)
Inductive exception : Type :=
| ValueError (message : string)
| AttributeError (name : string).

Inductive outcome (A : Type) : Type :=
| Return (a : A)
| Raise (e : exception).

Arguments Return {A} a.
Arguments Raise {A} e.

Module PLDS.

(** [tf.nn.softplus], [tf.exp], [tf.nn.relu]. *)
Inductive nonlinearity : Type := softplus | exponential | relu.

(** The nonlinearities in exact arithmetic.  The [float32] kernels
    saturate: [tf.exp] and [tf.nn.softplus] return [0] for an argument
    below about [-104], and infinity for a large one; their values are
    never negative. *)
Definition apply_nonlinearity (f : nonlinearity) (x : R) : R :=
  match f with
  | softplus => ln (1 + exp x)
  | exponential => exp x
  | relu => Rmax x 0
  end.

(** The attributes set by [__init__]: those of [LDS] and [spiking_nl]. *)
Record t : Type := Build {
  lds : GenerativeLDS.t;
  spiking_nl : nonlinearity
}.

Section Init.
(** Python's [is] between the argument and a string literal: whether the
    two are the same object. *)
Variable is_ : string -> string -> bool.

Definition invalid_message (spiking_nl : string) : string :=
  String (Ascii.ascii_of_nat 34)
         (spiking_nl ++
          String (Ascii.ascii_of_nat 34) " is not a valid spiking nonlinearity")%string.

(** [PLDS.__init__]. *)
Definition init (dim_obs dim_latent : nat)
           (post_z_samples : option (list (list (list vec))))
           (num_time_pts : nat) (gen_params : option (list (string * mat)))
           (spiking_nl : string) : outcome t :=
  let self := GenerativeLDS.init dim_obs dim_latent post_z_samples
                                 num_time_pts gen_params in
  if is_ spiking_nl "softplus" then Return (Build self softplus)
  else if is_ spiking_nl "exponential" then Return (Build self exponential)
  else if is_ spiking_nl "relu" then Return (Build self relu)
  else Raise (ValueError (invalid_message spiking_nl)).
End Init.

(** [PLDS._apply_mapping]: the rate. *)
Definition _apply_mapping (self : t) (w : GenerativeLDS.mapping_vars)
           (z_samples : list (list (list vec))) : list (list (list vec)) :=
  map (map (map (fun z =>
    map (apply_nonlinearity (spiking_nl self))
        (vadd (GenerativeLDS.dim_obs (lds self))
              (tensordot (GenerativeLDS.dim_latent (lds self))
                         (GenerativeLDS.dim_obs (lds self)) z
                         (GenerativeLDS.C w))
              (row0 (GenerativeLDS.d w))))))
      z_samples.

Section Sampler.
Variable self : t.
Variable v : SmoothingLDS.model_vars.
Variable w : GenerativeLDS.mapping_vars.
(** The value [tf.random_poisson(lam, shape=[1])] draws for the rates
    [lam]: a tensor with one more leading axis, of size one. *)
Variable random_poisson : list (list vec) -> list (list (list vec)).
Let dz := GenerativeLDS.dim_latent (lds self).
Let T := GenerativeLDS.num_time_pts (lds self).

Definition mapped (z_val : list vec) : list vec :=
  map (fun y => nth 0 (nth 0 y []) [])
      (_apply_mapping self w (map (fun z => [[z]]) z_val)).

Definition lds_update (outputs : list vec * list vec) (inputs : list vec)
  : list vec * list vec :=
  let z_val := fst outputs in
  let rand_z := inputs in
  let z_val :=
    zip_with (vadd dz)
             (matmul_rows dz dz z_val (transpose dz (SmoothingLDS.A v)))
             (matmul_rows dz dz rand_z (transpose dz (SmoothingLDS.Q_sqrt v))) in
  let y_val := mapped z_val in
  (z_val, y_val).

(** [PLDS._sample_yz], on the value drawn for [latent_rand_samples]. *)
Definition _sample_yz (num_samples : nat)
           (latent_rand_samples : list (list vec))
  : result GenerativeLDS.prior_samples :=
  latent0 <- GenerativeLDS.slice_first (lds self) latent_rand_samples ;;
  let z0 :=
    map (fun r => vadd dz (row0 (SmoothingLDS.z0_mean v)) r)
        (matmul_rows dz dz latent0 (transpose dz (SmoothingLDS.Q0_sqrt v))) in
  let y0 := mapped z0 in
  let rand_ph_shuff :=
    transpose_lead num_samples (T - 1)
                   (GenerativeLDS.slice_rest latent_rand_samples) in
  samples <- scan_dynamic lds_update rand_ph_shuff (z0, y0) ;;
  let z_samples_unshuff :=
    transpose_lead (T - 1) num_samples (map fst samples) in
  let y_samples_unshuff :=
    transpose_lead (T - 1) num_samples (map snd samples) in
  let y_samples_prior :=
    zip_with (@app (list R)) (map (fun y => [y]) y0) y_samples_unshuff in
  Ok (GenerativeLDS.Samples
        (zip_with (@app (list R)) (map (fun z => [z]) z0) z_samples_unshuff)
        (nth 0 (random_poisson y_samples_prior) [])).
End Sampler.

Section LogDensity.
(** [tf.lgamma]. *)
Variable lgamma : R -> R.
Variable self : t.
Variable obs_ph : list (list vec).
Let dy := GenerativeLDS.dim_obs (lds self).
Let T := GenerativeLDS.num_time_pts (lds self).

(** [PLDS._log_density_likelihood]; [obs_y = tf.expand_dims(self.obs_ph,
    axis=1)] is broadcast against [y]. *)
Definition _log_density_likelihood (y : list (list (list vec))) : result R :=
  terms <-
    broadcast_lead
      (fun obs_b y_b =>
         map (fun y_bm =>
                map (fun t =>
                       let obs_y := nth t obs_b [] in
                       let y_t := nth t y_bm [] in
                       vsub dy
                         (vsub dy (vmul dy obs_y (map ln y_t)) y_t)
                         (map (fun o => lgamma (1 + o)) obs_y))
                    (seq 0 T))
             y_b)
      obs_ph y ;;
  let log_density_ya := reduce_mean01 T dy terms in
  Ok (SmoothingLDS.reduce_sum log_density_ya).
End LogDensity.

End PLDS.

Module FLDS.

(** The mapping attributes of an [FLDS] object: set, or never assigned. *)
Record mapping_attrs : Type := Attrs {
  Rsqrt : option mat;
  C : option mat;
  d : option mat
}.

(** Reading an attribute. *)
Definition getattr (name : string) (value : option mat) : outcome mat :=
  match value with
  | Some x => Return x
  | None => Raise (AttributeError name)
  end.

Section Mapping.
Variable tr_norm_initializer : string -> nat -> nat -> mat.

(** [FLDS._initialize_mapping]: [Rsqrt] (with [R] and [Rinv], which derive
    from it) is all it assigns. *)
Definition _initialize_mapping (self : GenerativeLDS.t) : mapping_attrs :=
  Attrs
    (Some (match lookup "Rsqrt" (GenerativeLDS.gen_params self) with
           | Some v => v
           | None => tr_norm_initializer "Rsqrt" 1 (GenerativeLDS.dim_obs self)
           end))
    None None.

(** [FLDS._apply_mapping]. *)
Definition _apply_mapping (self : GenerativeLDS.t) (attrs : mapping_attrs)
           (z_samples : list (list (list vec)))
  : outcome (list (list (list vec))) :=
  match getattr "C" (C attrs) with
  | Raise e => Raise e
  | Return C =>
      match getattr "d" (d attrs) with
      | Raise e => Raise e
      | Return d =>
          Return
            (map (map (map (fun z =>
               vadd (GenerativeLDS.dim_obs self)
                    (tensordot (GenerativeLDS.dim_latent self)
                               (GenerativeLDS.dim_obs self) z C)
                    (row0 d))))
                 z_samples)
      end
  end.

(** [LDS.build_graph] on an [FLDS] object, up to [self.y_pred]: the
    variables of the prior, then the mapping of the subclass. *)
Definition build_graph (self : GenerativeLDS.t)
           (z_samples : list (list (list vec)))
  : outcome (SmoothingLDS.model_vars * list (list (list vec))) :=
  let prior := GenerativeLDS.initialize_prior_vars self in
  let attrs := _initialize_mapping self in
  match _apply_mapping self attrs z_samples with
  | Raise e => Raise e
  | Return y_pred => Return (prior, y_pred)
  end.
End Mapping.

End FLDS.

(* ================================================================== *)
(** * inference.py: the other classes *)

Module SmoothingLDSCoupled.
Section BuildGraph.
Variable cholesky : mat -> result mat.
Variable triangular_solve : mat -> vec -> bool -> vec.
Variable inference_mlp : list (list vec) -> list (list vec) * list (list mat).

(** [SmoothingLDSCoupled.build_graph], on the values of the tensors it
    shares with the generative model and a fed batch of observations. *)
Definition build_graph (self : SmoothingLDS.t)
           (z0_mean A Q_sqrt Q Qinv Q0_sqrt Q0 Q0inv : mat)
           (observations : list (list vec)) : SmoothingLDS.graph :=
  let enc := inference_mlp observations in
  SmoothingLDS.build_nodes cholesky triangular_solve self A Q0inv Qinv
                           (fst enc) (snd enc).
End BuildGraph.
End SmoothingLDSCoupled.

Module SmoothingLDSParams.
Section GetParams.
Variable self : SmoothingLDS.t.

(** [SmoothingLDS.get_params]: the dict built from the values the session
    returns. *)
Definition get_params (v : SmoothingLDS.model_vars) : list (string * mat) :=
  [("A"%string, SmoothingLDS.A v);
   ("z0_mean"%string, SmoothingLDS.z0_mean v);
   ("Q"%string, SmoothingLDS.Q self v);
   ("Q0"%string, SmoothingLDS.Q0 self v);
   ("Q_sqrt"%string, SmoothingLDS.Q_sqrt v);
   ("Q0_sqrt"%string, SmoothingLDS.Q0_sqrt v)].
End GetParams.
End SmoothingLDSParams.

(* ================================================================== *)
(** * Lemmas on tensors *)

Lemma length_mkvec n f : length (mkvec n f) = n.
Proof. unfold mkvec. now rewrite length_map, length_seq. Qed.

Lemma vnth_mkvec n f i : (i < n)%nat -> vnth (mkvec n f) i = f i.
Proof.
  intros Hi. unfold vnth, mkvec.
  rewrite (nth_indep _ 0 (f 0%nat)) by now rewrite length_map, length_seq.
  rewrite map_nth, seq_nth; auto.
Qed.

Lemma vnth_mkvec_out n f i : (n <= i)%nat -> vnth (mkvec n f) i = 0.
Proof.
  intros Hi. unfold vnth. apply nth_overflow. now rewrite length_mkvec.
Qed.

Lemma mkvec_ext n f g :
  (forall i, (i < n)%nat -> f i = g i) -> mkvec n f = mkvec n g.
Proof.
  intros H. unfold mkvec. apply map_ext_in. intros i Hi.
  apply in_seq in Hi. apply H. lia.
Qed.

Lemma length_mkmat r c f : length (mkmat r c f) = r.
Proof. unfold mkmat. now rewrite length_map, length_seq. Qed.

Lemma nth_mkmat r c f i : (i < r)%nat -> nth i (mkmat r c f) [] = mkvec c (f i).
Proof.
  intros Hi. unfold mkmat.
  rewrite (nth_indep _ [] (mkvec c (f 0%nat))) by now rewrite length_map, length_seq.
  rewrite (map_nth (fun i => mkvec c (f i))), seq_nth; auto.
Qed.

Lemma mget_mkmat r c f i j :
  (i < r)%nat -> (j < c)%nat -> mget (mkmat r c f) i j = f i j.
Proof.
  intros Hi Hj. unfold mget. rewrite nth_mkmat by assumption.
  now apply vnth_mkvec.
Qed.

Lemma mkmat_ext r c f g :
  (forall i j, (i < r)%nat -> (j < c)%nat -> f i j = g i j) ->
  mkmat r c f = mkmat r c g.
Proof.
  intros H. unfold mkmat. apply map_ext_in. intros i Hi.
  apply in_seq in Hi. apply mkvec_ext. intros j Hj. apply H; lia.
Qed.

Lemma wf_mkvec n f : wf_vec n (mkvec n f).
Proof. apply length_mkvec. Qed.

Lemma wf_mkmat n f : wf_mat n (mkmat n n f).
Proof.
  split; [apply length_mkmat|].
  unfold mkmat. apply Forall_forall. intros row Hrow.
  apply in_map_iff in Hrow. destruct Hrow as [i [<- _]]. apply length_mkvec.
Qed.

Lemma wf_vec_eta d x : wf_vec d x -> x = mkvec d (vnth x).
Proof.
  intros H. apply (nth_ext _ _ 0 0).
  - now rewrite length_mkvec.
  - intros i Hi. fold (vnth x i). fold (vnth (mkvec d (vnth x)) i).
    rewrite vnth_mkvec; auto. unfold wf_vec in H. lia.
Qed.

Lemma wf_mat_eta d M : wf_mat d M -> M = mkmat d d (mget M).
Proof.
  intros [Hlen Hrows]. apply (nth_ext _ _ [] []).
  - now rewrite length_mkmat.
  - intros i Hi. rewrite nth_mkmat by lia.
    assert (Hr : wf_vec d (nth i M [])).
    { rewrite Forall_forall in Hrows. apply Hrows. now apply nth_In. }
    rewrite (wf_vec_eta _ _ Hr) at 1. apply mkvec_ext. intros j Hj. reflexivity.
Qed.

Lemma vec_ext d x y :
  wf_vec d x -> wf_vec d y ->
  (forall i, (i < d)%nat -> vnth x i = vnth y i) -> x = y.
Proof.
  intros Hx Hy H. rewrite (wf_vec_eta _ _ Hx), (wf_vec_eta _ _ Hy).
  now apply mkvec_ext.
Qed.

Lemma mat_ext d X Y :
  wf_mat d X -> wf_mat d Y ->
  (forall i j, (i < d)%nat -> (j < d)%nat -> mget X i j = mget Y i j) -> X = Y.
Proof.
  intros HX HY H. rewrite (wf_mat_eta _ _ HX), (wf_mat_eta _ _ HY).
  now apply mkmat_ext.
Qed.

(** ** Finite sums *)

Lemma rsum_ext n f g :
  (forall i, (i < n)%nat -> f i = g i) -> rsum n f = rsum n g.
Proof.
  induction n as [|n IH]; intros H; simpl; [reflexivity|].
  rewrite IH by (intros; apply H; lia). rewrite H by lia. reflexivity.
Qed.

Lemma rsum_zero n f : (forall i, (i < n)%nat -> f i = 0) -> rsum n f = 0.
Proof.
  induction n as [|n IH]; intros H; simpl; [reflexivity|].
  rewrite IH by (intros; apply H; lia). rewrite H by lia. lra.
Qed.

Lemma rsum_plus n f g :
  rsum n (fun i => f i + g i) = rsum n f + rsum n g.
Proof. induction n as [|n IH]; simpl; [lra|]. rewrite IH. lra. Qed.

Lemma rsum_minus n f g :
  rsum n (fun i => f i - g i) = rsum n f - rsum n g.
Proof. induction n as [|n IH]; simpl; [lra|]. rewrite IH. lra. Qed.

Lemma rsum_opp n f : rsum n (fun i => - f i) = - rsum n f.
Proof. induction n as [|n IH]; simpl; [lra|]. rewrite IH. lra. Qed.

Lemma rsum_scal_l n c f : rsum n (fun i => c * f i) = c * rsum n f.
Proof. induction n as [|n IH]; simpl; [lra|]. rewrite IH. lra. Qed.

Lemma rsum_scal_r n c f : rsum n (fun i => f i * c) = rsum n f * c.
Proof. induction n as [|n IH]; simpl; [lra|]. rewrite IH. lra. Qed.

Lemma rsum_swap n m (f : nat -> nat -> R) :
  rsum n (fun i => rsum m (fun j => f i j)) =
  rsum m (fun j => rsum n (fun i => f i j)).
Proof.
  induction n as [|n IH]; simpl.
  - symmetry. now apply rsum_zero.
  - rewrite IH, <- rsum_plus. reflexivity.
Qed.

Lemma rsum_nonneg n f : (forall i, (i < n)%nat -> 0 <= f i) -> 0 <= rsum n f.
Proof.
  induction n as [|n IH]; intros H; simpl; [lra|].
  assert (0 <= rsum n f) by (apply IH; intros; apply H; lia).
  assert (0 <= f n) by (apply H; lia). lra.
Qed.

Lemma rsum_nonneg_zero n f :
  (forall i, (i < n)%nat -> 0 <= f i) -> rsum n f = 0 ->
  forall i, (i < n)%nat -> f i = 0.
Proof.
  induction n as [|n IH]; intros H Hs i Hi; [lia|]. simpl in Hs.
  assert (0 <= rsum n f) by (apply rsum_nonneg; intros; apply H; lia).
  assert (0 <= f n) by (apply H; lia).
  destruct (Nat.eq_dec i n) as [->|Hne]; [lra|].
  apply IH; [intros; apply H; lia | lra | lia].
Qed.

(** A sum with a single non-zero term. *)
Lemma rsum_single n f a :
  (a < n)%nat -> (forall i, (i < n)%nat -> i <> a -> f i = 0) ->
  rsum n f = f a.
Proof.
  induction n as [|n IH]; intros Ha H; [lia|]. simpl.
  destruct (Nat.eq_dec a n) as [->|Hne].
  - rewrite rsum_zero; [lra|]. intros i Hi. apply H; lia.
  - rewrite IH by (try lia; intros; apply H; lia).
    rewrite (H n) by lia. lra.
Qed.

Lemma rsum_app n m f :
  rsum (n + m) f = rsum n f + rsum m (fun i => f (n + i)%nat).
Proof.
  induction m as [|m IH].
  - rewrite Nat.add_0_r. simpl. lra.
  - rewrite Nat.add_succ_r. simpl. rewrite IH. lra.
Qed.

Lemma rsum_shift n f :
  rsum (S n) f = f 0%nat + rsum n (fun i => f (S i)).
Proof.
  change (S n) with (1 + n)%nat. rewrite rsum_app. simpl. lra.
Qed.

(** A sum over [T d] indices, block by block. *)
Lemma rsum_blocks T d f :
  rsum (T * d) f = rsum T (fun t => rsum d (fun i => f (t * d + i)%nat)).
Proof.
  induction T as [|T IH]; [reflexivity|].
  simpl rsum at 2. rewrite <- IH.
  replace (S T * d)%nat with (T * d + d)%nat by lia.
  apply rsum_app.
Qed.

(** ** Entries of the results of the operations *)

Section OpsLemmas.
Variable d : nat.

Lemma mget_matmul X Y i j :
  (i < d)%nat -> (j < d)%nat ->
  mget (matmul d X Y) i j = rsum d (fun k => mget X i k * mget Y k j).
Proof. intros. unfold matmul. now rewrite mget_mkmat. Qed.

Lemma mget_transpose X i j :
  (i < d)%nat -> (j < d)%nat -> mget (transpose d X) i j = mget X j i.
Proof. intros. unfold transpose. now rewrite mget_mkmat. Qed.

Lemma mget_madd X Y i j :
  (i < d)%nat -> (j < d)%nat ->
  mget (madd d X Y) i j = mget X i j + mget Y i j.
Proof. intros. unfold madd. now rewrite mget_mkmat. Qed.

Lemma mget_msub X Y i j :
  (i < d)%nat -> (j < d)%nat ->
  mget (msub d X Y) i j = mget X i j - mget Y i j.
Proof. intros. unfold msub. now rewrite mget_mkmat. Qed.

Lemma mget_mneg X i j :
  (i < d)%nat -> (j < d)%nat -> mget (mneg d X) i j = - mget X i j.
Proof. intros. unfold mneg. now rewrite mget_mkmat. Qed.

Lemma vnth_mv M x i :
  (i < d)%nat -> vnth (mv d M x) i = rsum d (fun j => mget M i j * vnth x j).
Proof. intros. unfold mv. now rewrite vnth_mkvec. Qed.

Lemma vnth_vadd x y i :
  (i < d)%nat -> vnth (vadd d x y) i = vnth x i + vnth y i.
Proof. intros. unfold vadd. now rewrite vnth_mkvec. Qed.

Lemma vnth_vsub x y i :
  (i < d)%nat -> vnth (vsub d x y) i = vnth x i - vnth y i.
Proof. intros. unfold vsub. now rewrite vnth_mkvec. Qed.

Lemma matmul_mneg_l X Y : matmul d (mneg d X) Y = mneg d (matmul d X Y).
Proof.
  unfold matmul at 1, mneg at 2. apply mkmat_ext. intros i j Hi Hj.
  rewrite mget_matmul by assumption. rewrite <- rsum_opp.
  apply rsum_ext. intros k Hk. rewrite mget_mneg by assumption. lra.
Qed.
End OpsLemmas.

Create Rewrite HintDb tensor.
#[global] Hint Rewrite mget_matmul mget_transpose mget_madd mget_msub mget_mneg
  vnth_mv vnth_vadd vnth_vsub using assumption : tensor.

(** ** The leading axis *)

Lemma concat_repeat_singleton (A : Type) (x : A) n :
  concat (repeat [x] n) = repeat x n.
Proof. induction n as [|n IH]; simpl; [reflexivity|]. now rewrite IH. Qed.

Lemma tile_expand_dims0 (A : Type) (x : A) (n : Z) :
  (0 <= n)%Z -> tile (expand_dims0 x) n = Ok (repeat x (Z.to_nat n)).
Proof.
  intros Hn. unfold tile, expand_dims0.
  destruct (Z.ltb_spec n 0) as [Hlt|_]; [lia|].
  now rewrite concat_repeat_singleton.
Qed.

Lemma tile_negative (A : Type) (xs : list A) (n : Z) :
  (n < 0)%Z -> tile xs n = Err InvalidArgumentError.
Proof.
  intros Hn. unfold tile. destruct (Z.ltb_spec n 0) as [_|Hge]; [reflexivity|lia].
Qed.

Lemma length_zip_with (A B C : Type) (f : A -> B -> C) xs ys :
  length xs = length ys -> length (zip_with f xs ys) = length xs.
Proof.
  revert ys. induction xs as [|x xs IH]; intros [|y ys] H; simpl in *;
    try discriminate; auto.
Qed.

Lemma nth_zip_with (A B C : Type) (f : A -> B -> C) xs ys i a b c :
  length xs = length ys -> (i < length xs)%nat ->
  nth i (zip_with f xs ys) c = f (nth i xs a) (nth i ys b).
Proof.
  revert ys i. induction xs as [|x xs IH]; intros [|y ys] i H Hi; simpl in *;
    try discriminate; try lia.
  destruct i as [|i]; [reflexivity|]. apply IH; [congruence|lia].
Qed.

Lemma mapM_ok (A B : Type) (f : A -> result B) (g : A -> B) xs :
  (forall x, In x xs -> f x = Ok (g x)) -> mapM f xs = Ok (map g xs).
Proof.
  induction xs as [|x xs IH]; intros H; simpl; [reflexivity|].
  rewrite H by now left. simpl. rewrite IH by (intros; apply H; now right).
  reflexivity.
Qed.

Lemma add_lead_same d xs ys :
  length xs = length ys -> add_lead d xs ys = Ok (zip_with (madd d) xs ys).
Proof. intros H. unfold add_lead. now rewrite H, Nat.eqb_refl. Qed.

(** ** The assembled operand *)

Section AssemblerLemmas.
Variable self : SmoothingLDS.t.
Variables A Q0inv Qinv : mat.
Let d := SmoothingLDS.dim_latent self.
Let T := SmoothingLDS.num_time_pts self.

(** The static diagonal: [Q0inv], then [A Q0inv A^T + Qinv], then
    [T - 2] copies of [A Qinv A^T + Qinv]. *)
Lemma Sinv_diag_static_ok :
  (2 <= T)%nat ->
  SmoothingLDS.Sinv_diag_static self A Q0inv Qinv =
  Ok (static_blocks self A Q0inv Qinv).
Proof.
  intros HT. unfold SmoothingLDS.Sinv_diag_static.
  rewrite tile_expand_dims0 by (unfold T in *; lia). simpl.
  rewrite app_nil_r. unfold static_blocks. do 4 f_equal. unfold T in *. lia.
Qed.

Lemma Sinv_ldiag0_ok :
  (2 <= T)%nat ->
  SmoothingLDS.Sinv_ldiag0 self A Q0inv Qinv =
  Ok (static_lower self A Q0inv Qinv).
Proof.
  intros HT. unfold SmoothingLDS.Sinv_ldiag0.
  rewrite tile_expand_dims0 by (unfold T in *; lia). simpl.
  rewrite app_nil_r. unfold static_lower. do 3 f_equal. unfold T in *. lia.
Qed.

Lemma Sinv_diag_static_short :
  (T < 2)%nat ->
  SmoothingLDS.Sinv_diag_static self A Q0inv Qinv = Err InvalidArgumentError.
Proof.
  intros HT. unfold SmoothingLDS.Sinv_diag_static.
  rewrite tile_negative by (unfold T in *; lia). reflexivity.
Qed.

Lemma Sinv_ldiag0_short :
  (T < 2)%nat ->
  SmoothingLDS.Sinv_ldiag0 self A Q0inv Qinv = Err InvalidArgumentError.
Proof.
  intros HT. unfold SmoothingLDS.Sinv_ldiag0.
  rewrite tile_negative by (unfold T in *; lia). reflexivity.
Qed.

Lemma length_static_blocks :
  (2 <= T)%nat -> length (static_blocks self A Q0inv Qinv) = T.
Proof. intros HT. unfold static_blocks. simpl. rewrite repeat_length. lia. Qed.

Lemma Sinv_diag_ok r_psi_sqrt :
  (2 <= T)%nat ->
  Forall (fun r => length r = T) r_psi_sqrt ->
  SmoothingLDS.Sinv_diag self A Q0inv Qinv r_psi_sqrt =
  Ok (map (fun c => zip_with (madd d) (static_blocks self A Q0inv Qinv) c)
          (SmoothingLDS.c_psi_inv self r_psi_sqrt)).
Proof.
  intros HT Hr. unfold SmoothingLDS.Sinv_diag.
  rewrite Sinv_diag_static_ok by assumption. simpl.
  apply mapM_ok. intros c Hc. apply add_lead_same.
  fold (static_blocks self A Q0inv Qinv).
  rewrite length_static_blocks by assumption.
  unfold SmoothingLDS.c_psi_inv in Hc. apply in_map_iff in Hc.
  destruct Hc as [r [<- Hin]]. rewrite length_map.
  rewrite Forall_forall in Hr. symmetry. now apply Hr.
Qed.
End AssemblerLemmas.

(* ================================================================== *)
(** * The blocks of the assembled operand *)

Lemma nth_static_blocks self A Q0inv Qinv i :
  (2 <= i < SmoothingLDS.num_time_pts self)%nat ->
  nth i (static_blocks self A Q0inv Qinv) [] =
  SmoothingLDS.AQinvA_Qinv self A Qinv.
Proof.
  intros Hi. unfold static_blocks.
  destruct i as [|[|i]]; try lia. simpl.
  rewrite (nth_indep _ [] (SmoothingLDS.AQinvA_Qinv self A Qinv))
    by (rewrite repeat_length; lia).
  apply nth_repeat.
Qed.

Lemma nth_static_lower self A Q0inv Qinv i :
  (1 <= i < SmoothingLDS.num_time_pts self - 1)%nat ->
  nth i (static_lower self A Q0inv Qinv) [] = SmoothingLDS.AQinv self A Qinv.
Proof.
  intros Hi. unfold static_lower.
  destruct i as [|i]; try lia. simpl.
  rewrite (nth_indep _ [] (SmoothingLDS.AQinv self A Qinv))
    by (rewrite repeat_length; lia).
  apply nth_repeat.
Qed.

Lemma length_static_lower self A Q0inv Qinv :
  length (static_lower self A Q0inv Qinv) =
  S (SmoothingLDS.num_time_pts self - 2).
Proof. unfold static_lower. simpl. now rewrite repeat_length. Qed.

(** C1, as the code has it.  For [T >= 2] and a batch whose sequences have
    [T] steps, the assembler succeeds; every sequence gets [T] diagonal
    blocks, [D_1 = Q0inv + c_1], [D_2 = A Q0inv A^T + Qinv + c_2] and
    [D_t = A Qinv A^T + Qinv + c_t] for [t = 3..T] (the last block
    included); the [T - 1] sub-diagonal blocks are shared by the batch,
    [L_1 = -(A Q0inv)] and [L_t = -(A Qinv)] for [t = 2..T-1]. *)
Theorem C1_assembled_blocks (self : SmoothingLDS.t) (A Q0inv Qinv : mat)
        (r_psi_sqrt : list (list mat)) :
  let d := SmoothingLDS.dim_latent self in
  let T := SmoothingLDS.num_time_pts self in
  (2 <= T)%nat ->
  Forall (fun r => length r = T) r_psi_sqrt ->
  exists Dss Ls,
    SmoothingLDS.Sinv_diag self A Q0inv Qinv r_psi_sqrt = Ok Dss /\
    SmoothingLDS.Sinv_ldiag0 self A Q0inv Qinv = Ok Ls /\
    length Dss = length r_psi_sqrt /\
    length Ls = (T - 1)%nat /\
    nth 0 Ls [] = mneg d (matmul d A Q0inv) /\
    (forall t, (2 <= t <= T - 1)%nat ->
               nth (t - 1) Ls [] = mneg d (matmul d A Qinv)) /\
    forall b, (b < length r_psi_sqrt)%nat ->
      let Ds := nth b Dss [] in
      let c := map (fun r => matmul d r (transpose d r)) (nth b r_psi_sqrt []) in
      length Ds = T /\
      nth 0 Ds [] = madd d Q0inv (nth 0 c []) /\
      nth 1 Ds [] =
        madd d (madd d (matmul d (matmul d A Q0inv) (transpose d A)) Qinv)
             (nth 1 c []) /\
      (forall t, (3 <= t <= T)%nat ->
         nth (t - 1) Ds [] =
           madd d (madd d (matmul d (matmul d A Qinv) (transpose d A)) Qinv)
                (nth (t - 1) c [])).
Proof.
  intros d T HT Hr.
  exists (map (fun c => zip_with (madd d) (static_blocks self A Q0inv Qinv) c)
              (SmoothingLDS.c_psi_inv self r_psi_sqrt)),
         (static_lower self A Q0inv Qinv).
  split; [now apply Sinv_diag_ok|].
  split; [now apply Sinv_ldiag0_ok|].
  split; [unfold SmoothingLDS.c_psi_inv; now rewrite !length_map|].
  split; [rewrite length_static_lower; unfold T in *; lia|].
  split; [apply matmul_mneg_l|].
  split.
  { intros t Ht. rewrite nth_static_lower by (unfold T in *; lia).
    apply matmul_mneg_l. }
  intros b Hb Ds c.
  assert (Hlen : length (nth b r_psi_sqrt []) = T).
  { rewrite Forall_forall in Hr. apply Hr. now apply nth_In. }
  assert (HDs : Ds = zip_with (madd d) (static_blocks self A Q0inv Qinv) c).
  { unfold Ds, c, SmoothingLDS.c_psi_inv.
    set (g := fun r : list (list R) => matmul _ r (transpose _ r)).
    change (@nil (list (list R))) with (map g []) at 2.
    rewrite map_map.
    change (@nil (list (list R)))
      with (zip_with (madd d) (static_blocks self A Q0inv Qinv) (map g [])) at 1.
    now rewrite (map_nth (fun x => zip_with (madd d)
                                     (static_blocks self A Q0inv Qinv) (map g x))). }
  assert (Hc : length c = T) by (unfold c; now rewrite length_map).
  assert (Hs : length (static_blocks self A Q0inv Qinv) = T)
    by now apply length_static_blocks.
  rewrite HDs.
  split; [rewrite length_zip_with; congruence|].
  split; [rewrite (nth_zip_with _ _ _ _ _ _ _ [] []); [reflexivity|congruence|lia]|].
  split; [rewrite (nth_zip_with _ _ _ _ _ _ _ [] []); [reflexivity|congruence|lia]|].
  intros t Ht.
  rewrite (nth_zip_with _ _ _ _ _ _ _ [] []); [|congruence|lia].
  rewrite nth_static_blocks by (unfold T in *; lia). reflexivity.
Qed.

(** C1 as stated fails on the code: with two time steps the code's last
    diagonal block is [A Q0inv A^T + Qinv + c_2], not [Qinv + c_2]. *)
Lemma C1_counterexample :
  ~ operand_as_stated Scalar.two_steps [[1]] [[1]] [[1]] [ [[0]]; [[0]] ].
Proof.
  intros [Ds [Ls [HD [_ [Hd _]]]]].
  rewrite Sinv_diag_ok in HD
    by (simpl; try lia; repeat constructor).
  injection HD as HD. subst Ds.
  specialize (Hd 2%nat (conj (le_S _ _ (le_n 1)) (le_n 2))).
  apply (f_equal (fun M => mget M 0 0)) in Hd.
  cbv in Hd. lra.
Qed.

(** The hypotheses of [C1_assembled_blocks] hold for one sequence of two
    steps in one latent dimension, where the second (and last) diagonal
    block is [A Q0inv A^T + Qinv + c_2]. *)
Lemma C1_witness :
  (2 <= SmoothingLDS.num_time_pts Scalar.two_steps)%nat /\
  Forall (fun r : list (list (list R)) =>
            length r = SmoothingLDS.num_time_pts Scalar.two_steps)
         [ [ [[0]]; [[0]] ] ] /\
  exists Dss Ls,
    SmoothingLDS.Sinv_diag Scalar.two_steps [[1]] [[1]] [[1]] [ [ [[0]]; [[0]] ] ]
    = Ok Dss /\
    SmoothingLDS.Sinv_ldiag0 Scalar.two_steps [[1]] [[1]] [[1]] = Ok Ls /\
    nth 1 (nth 0 Dss []) [] =
      madd 1 (madd 1 (matmul 1 (matmul 1 [[1]] [[1]]) (transpose 1 [[1]])) [[1]])
           (matmul 1 [[0]] (transpose 1 [[0]])).
Proof.
  assert (H2 : (2 <= SmoothingLDS.num_time_pts Scalar.two_steps)%nat)
    by (simpl; lia).
  assert (Hr : Forall (fun r : list (list (list R)) =>
                         length r = SmoothingLDS.num_time_pts Scalar.two_steps)
                      [ [ [[0]]; [[0]] ] ])
    by (repeat constructor).
  split; [exact H2|]. split; [exact Hr|].
  destruct (C1_assembled_blocks Scalar.two_steps [[1]] [[1]] [[1]] _ H2 Hr)
    as (Dss & Ls & HD & HL & _ & _ & _ & _ & Hb).
  exists Dss, Ls. split; [exact HD|]. split; [exact HL|].
  destruct (Hb 0%nat (le_n 1)) as (_ & _ & H1 & _). exact H1.
Defined.

(* ================================================================== *)
(** * Degenerate configurations *)

Lemma Sinv_diag_short self A Q0inv Qinv r_psi_sqrt :
  (SmoothingLDS.num_time_pts self < 2)%nat ->
  SmoothingLDS.Sinv_diag self A Q0inv Qinv r_psi_sqrt = Err InvalidArgumentError.
Proof.
  intros HT. unfold SmoothingLDS.Sinv_diag.
  now rewrite Sinv_diag_static_short.
Qed.

Lemma precision_chol_decomp_short cholesky triangular_solve self A Q0inv Qinv
      r_psi_sqrt :
  (SmoothingLDS.num_time_pts self < 2)%nat ->
  SmoothingLDS.precision_chol_decomp cholesky triangular_solve self A Q0inv Qinv
    r_psi_sqrt = Err InvalidArgumentError.
Proof.
  intros HT. unfold SmoothingLDS.precision_chol_decomp.
  now rewrite Sinv_diag_short.
Qed.

(** C9 as stated fails on the code: the constructor accepts an empty
    sequence and a zero latent dimension. *)
Lemma C9_counterexample :
  SmoothingLDS.init 1 0 0 0 <> Err InvalidConfigurationError.
Proof. discriminate. Qed.

Lemma scan_chol_dim0 cholesky triangular_solve self Ls Ds :
  SmoothingLDS.dim_latent self = 0%nat ->
  SmoothingLDS.scan_chol cholesky triangular_solve self Ls Ds
  = Err InvalidConfigurationError.
Proof.
  intros Hd. unfold SmoothingLDS.scan_chol, CholUtils.blk_tridiag_chol.
  rewrite Hd. now destruct Ds.
Qed.

(** With a zero latent dimension and [T >= 2] the operand of a non-empty
    batch is assembled, and it is the block factorization that rejects the
    dimension. *)
Lemma precision_chol_decomp_dim0 cholesky triangular_solve self A Q0inv Qinv
      r_psi_sqrt :
  SmoothingLDS.dim_latent self = 0%nat ->
  (2 <= SmoothingLDS.num_time_pts self)%nat ->
  Forall (fun r => length r = SmoothingLDS.num_time_pts self) r_psi_sqrt ->
  r_psi_sqrt <> [] ->
  SmoothingLDS.precision_chol_decomp cholesky triangular_solve self A Q0inv Qinv
    r_psi_sqrt = Err InvalidConfigurationError.
Proof.
  intros Hd HT Hr Hne. unfold SmoothingLDS.precision_chol_decomp.
  rewrite (Sinv_diag_ok self A Q0inv Qinv r_psi_sqrt HT Hr).
  rewrite (Sinv_ldiag0_ok self A Q0inv Qinv HT). cbn [bind].
  destruct r_psi_sqrt as [|r rs]; [congruence|].
  cbn [SmoothingLDS.c_psi_inv map mapM].
  now rewrite scan_chol_dim0.
Qed.

(** C9, as the code has it.  With [T = 0] or [d = 0] the constructor raises
    nothing and stores its arguments unchanged, and no node raises before
    computing.  With fewer than two time steps the tiling of the static
    blocks fails in the assembler with the backend's invalid-argument
    error, and with it the factorization, the posterior mean, the samples
    and the entropy.  With [d = 0] and [T >= 2] the operand is assembled
    like any other; on a non-empty batch the block factorization then
    rejects the zero dimension, and the failure reaches the posterior mean,
    the samples and the entropy. *)
Theorem C9_no_validation (cholesky : mat -> result mat)
        (triangular_solve : mat -> vec -> bool -> vec)
        (dim_input d : nat) (rng : Z) (T : nat) (A Q0inv Qinv : mat)
        (m_psi : list (list vec)) (r_psi_sqrt : list (list mat)) :
  (T = 0 \/ d = 0)%nat ->
  let self := SmoothingLDS.Build dim_input d rng T in
  let g := SmoothingLDS.build_nodes cholesky triangular_solve self A Q0inv Qinv
             m_psi r_psi_sqrt in
  SmoothingLDS.init dim_input d rng T = Ok self /\
  ((T < 2)%nat ->
     SmoothingLDS.Sinv_diag self A Q0inv Qinv r_psi_sqrt
     = Err InvalidArgumentError /\
     SmoothingLDS.Sinv_ldiag0 self A Q0inv Qinv = Err InvalidArgumentError /\
     SmoothingLDS.chol_decomp_Sinv g = Err InvalidArgumentError /\
     SmoothingLDS.post_z_means g = Err InvalidArgumentError /\
     (forall samples_z,
         SmoothingLDS.post_z_samples g samples_z = Err InvalidArgumentError) /\
     SmoothingLDS.evaluate_entropy self g = Err InvalidArgumentError) /\
  (d = 0%nat -> (2 <= T)%nat ->
   Forall (fun r => length r = T) r_psi_sqrt ->
     (exists Dss Ls,
         SmoothingLDS.Sinv_diag self A Q0inv Qinv r_psi_sqrt = Ok Dss /\
         SmoothingLDS.Sinv_ldiag0 self A Q0inv Qinv = Ok Ls /\
         length Dss = length r_psi_sqrt) /\
     (r_psi_sqrt <> [] ->
        SmoothingLDS.chol_decomp_Sinv g = Err InvalidConfigurationError /\
        SmoothingLDS.post_z_means g = Err InvalidConfigurationError /\
        (forall samples_z,
            SmoothingLDS.post_z_samples g samples_z
            = Err InvalidConfigurationError) /\
        SmoothingLDS.evaluate_entropy self g = Err InvalidConfigurationError)).
Proof.
  intros _ self g. split; [reflexivity|]. split.
  - intros HT.
    assert (Hs : (SmoothingLDS.num_time_pts self < 2)%nat) by (simpl; lia).
    assert (Hc : SmoothingLDS.chol_decomp_Sinv g = Err InvalidArgumentError)
      by now apply precision_chol_decomp_short.
    assert (Hm : SmoothingLDS.post_z_means g = Err InvalidArgumentError).
    { unfold g. cbn [SmoothingLDS.post_z_means SmoothingLDS.build_nodes].
      unfold SmoothingLDS.posterior_mean.
      now rewrite precision_chol_decomp_short. }
    split; [now apply Sinv_diag_short|].
    split; [now apply Sinv_ldiag0_short|].
    split; [exact Hc|]. split; [exact Hm|]. split.
    + intros samples_z. unfold g in *.
      cbn [SmoothingLDS.post_z_means SmoothingLDS.post_z_samples
           SmoothingLDS.build_nodes] in *.
      unfold SmoothingLDS.posterior_samples. now rewrite Hm.
    + unfold SmoothingLDS.evaluate_entropy. now rewrite Hc.
  - intros Hd HT Hr. split.
    + eexists. eexists. split; [now apply Sinv_diag_ok|].
      split; [now apply Sinv_ldiag0_ok|].
      unfold SmoothingLDS.c_psi_inv. now rewrite !length_map.
    + intros Hne.
      assert (Hc : SmoothingLDS.chol_decomp_Sinv g = Err InvalidConfigurationError).
      { unfold g. cbn [SmoothingLDS.chol_decomp_Sinv SmoothingLDS.build_nodes].
        now apply precision_chol_decomp_dim0. }
      assert (Hm : SmoothingLDS.post_z_means g = Err InvalidConfigurationError).
      { unfold g in *.
        cbn [SmoothingLDS.post_z_means SmoothingLDS.chol_decomp_Sinv
             SmoothingLDS.build_nodes] in *.
        unfold SmoothingLDS.posterior_mean. now rewrite Hc. }
      split; [exact Hc|]. split; [exact Hm|]. split.
      * intros samples_z. unfold g in *.
        cbn [SmoothingLDS.post_z_means SmoothingLDS.post_z_samples
             SmoothingLDS.build_nodes] in *.
        unfold SmoothingLDS.posterior_samples. now rewrite Hm.
      * unfold SmoothingLDS.evaluate_entropy. now rewrite Hc.
Qed.

(** [C9_no_validation] at an empty sequence of one latent dimension, and
    at one sequence of two steps of latent dimension zero. *)
Lemma C9_witness :
  ((0 = 0 \/ 1 = 0)%nat /\
   SmoothingLDS.init 1 1 0 0 = Ok (SmoothingLDS.Build 1 1 0 0) /\
   SmoothingLDS.post_z_means
     (SmoothingLDS.build_nodes Scalar.cholesky Scalar.triangular_solve
        (SmoothingLDS.Build 1 1 0 0) [[1]] [[1]] [[1]] [[]] [[]])
   = Err InvalidArgumentError) /\
  ((2 = 0 \/ 0 = 0)%nat /\
   SmoothingLDS.init 1 0 0 2 = Ok (SmoothingLDS.Build 1 0 0 2) /\
   (exists Dss,
       SmoothingLDS.Sinv_diag (SmoothingLDS.Build 1 0 0 2) [] [] []
         [ [ []; [] ] ] = Ok Dss) /\
   SmoothingLDS.post_z_means
     (SmoothingLDS.build_nodes Scalar.cholesky Scalar.triangular_solve
        (SmoothingLDS.Build 1 0 0 2) [] [] [] [ [ []; [] ] ] [ [ []; [] ] ])
   = Err InvalidConfigurationError).
Proof.
  assert (H0 : (0 = 0 \/ 1 = 0)%nat) by (left; reflexivity).
  assert (H1 : (2 = 0 \/ 0 = 0)%nat) by (right; reflexivity).
  split.
  - split; [exact H0|].
    destruct (C9_no_validation Scalar.cholesky Scalar.triangular_solve
                1 1 0 0 [[1]] [[1]] [[1]] [[]] [[]] H0)
      as (Hinit & Hshort & _).
    split; [exact Hinit|].
    destruct (Hshort ltac:(lia)) as (_ & _ & _ & Hm & _). exact Hm.
  - split; [exact H1|].
    destruct (C9_no_validation Scalar.cholesky Scalar.triangular_solve
                1 0 0 2 [] [] [] [ [ []; [] ] ] [ [ []; [] ] ] H1)
      as (Hinit & _ & Hdim).
    split; [exact Hinit|].
    destruct (Hdim eq_refl ltac:(lia) ltac:(repeat constructor))
      as ((Dss & Ls & HD & _) & Hfail).
    split; [now exists Dss|].
    destruct (Hfail ltac:(discriminate)) as (_ & Hm & _). exact Hm.
Defined.

(** C8 as stated fails on the code: with a single time step no posterior
    mean is returned. *)
Lemma C8_counterexample :
  ~ exists means,
      SmoothingLDS.posterior_mean Scalar.cholesky Scalar.triangular_solve
        Scalar.one_step [[1]] [[1]] [[1]] [ [ [1] ] ] [ [ [[1]] ] ] = Ok means.
Proof. intros [means H]. cbv in H. discriminate. Qed.

(** C8, as the code has it.  For [T = 1] the posterior mean is not
    computed: the assembler tiles the static blocks [T - 2 = -1] times,
    the backend rejects the negative multiple, and the failure reaches the
    factorization, the posterior mean and the samples. *)
Theorem C8_single_step_fails cholesky triangular_solve (self : SmoothingLDS.t)
        (A Q0inv Qinv : mat) (m_psi : list (list vec))
        (r_psi_sqrt : list (list mat)) :
  SmoothingLDS.num_time_pts self = 1%nat ->
  let g := SmoothingLDS.build_nodes cholesky triangular_solve self A Q0inv Qinv
             m_psi r_psi_sqrt in
  SmoothingLDS.Sinv_diag self A Q0inv Qinv r_psi_sqrt = Err InvalidArgumentError /\
  SmoothingLDS.chol_decomp_Sinv g = Err InvalidArgumentError /\
  SmoothingLDS.post_z_means g = Err InvalidArgumentError /\
  forall samples_z, SmoothingLDS.post_z_samples g samples_z = Err InvalidArgumentError.
Proof.
  intros HT g.
  assert (Hs : (SmoothingLDS.num_time_pts self < 2)%nat) by lia.
  split; [now apply Sinv_diag_short|].
  assert (Hc : SmoothingLDS.chol_decomp_Sinv g = Err InvalidArgumentError)
    by now apply precision_chol_decomp_short.
  split; [exact Hc|].
  assert (Hm : SmoothingLDS.post_z_means g = Err InvalidArgumentError).
  { simpl. unfold SmoothingLDS.posterior_mean.
    now rewrite precision_chol_decomp_short. }
  split; [exact Hm|].
  intros samples_z. simpl. unfold SmoothingLDS.posterior_samples.
  simpl in Hm. now rewrite Hm.
Qed.

(** [C8_single_step_fails] at one sequence of one step. *)
Lemma C8_witness :
  SmoothingLDS.num_time_pts Scalar.one_step = 1%nat /\
  SmoothingLDS.post_z_means
    (SmoothingLDS.build_nodes Scalar.cholesky Scalar.triangular_solve
       Scalar.one_step [[1]] [[1]] [[1]] [ [ [1] ] ] [ [ [[1]] ] ])
  = Err InvalidArgumentError.
Proof.
  split; [reflexivity|].
  exact (proj1 (proj2 (proj2
           (C8_single_step_fails Scalar.cholesky Scalar.triangular_solve
              Scalar.one_step [[1]] [[1]] [[1]] [ [ [1] ] ] [ [ [[1]] ] ]
              eq_refl)))).
Defined.

(* ================================================================== *)
(** * The entropy does not read the mean contributions *)

(** C10.  With the same precision factors [r_psi_sqrt] and the same
    dynamics parameters, two graphs built on different mean contributions
    [m_psi] have the same factorization and the same entropy; and the
    entropy is a function of the diagonal blocks of the factorization
    alone: two graphs whose factorizations have the same diagonal blocks
    have the same entropy. *)
Theorem C10_entropy_ignores_m_psi cholesky triangular_solve
        (self : SmoothingLDS.t) (A Q0inv Qinv : mat)
        (m_psi m_psi' : list (list vec)) (r_psi_sqrt : list (list mat)) :
  let g := SmoothingLDS.build_nodes cholesky triangular_solve self A Q0inv Qinv
             m_psi r_psi_sqrt in
  let g' := SmoothingLDS.build_nodes cholesky triangular_solve self A Q0inv Qinv
              m_psi' r_psi_sqrt in
  SmoothingLDS.chol_decomp_Sinv g = SmoothingLDS.chol_decomp_Sinv g' /\
  SmoothingLDS.evaluate_entropy self g = SmoothingLDS.evaluate_entropy self g' /\
  forall (g1 g2 : SmoothingLDS.graph) (Css Ess1 Ess2 : list (list mat)),
    SmoothingLDS.chol_decomp_Sinv g1 = Ok (Css, Ess1) ->
    SmoothingLDS.chol_decomp_Sinv g2 = Ok (Css, Ess2) ->
    SmoothingLDS.evaluate_entropy self g1 = SmoothingLDS.evaluate_entropy self g2.
Proof.
  intros g g'. split; [reflexivity|]. split; [reflexivity|].
  intros g1 g2 Css Ess1 Ess2 H1 H2.
  unfold SmoothingLDS.evaluate_entropy. rewrite H1, H2. reflexivity.
Qed.

(** The last part of [C10_entropy_ignores_m_psi] on two graphs of one
    sequence of two steps that differ in their mean contributions. *)
Lemma C10_witness :
  let g1 := SmoothingLDS.build_nodes Scalar.cholesky Scalar.triangular_solve
              Scalar.two_steps [[1]] [[1]] [[1]] [ [ [1]; [1] ] ]
              [ [ [[1]]; [[1]] ] ] in
  let g2 := SmoothingLDS.build_nodes Scalar.cholesky Scalar.triangular_solve
              Scalar.two_steps [[1]] [[1]] [[1]] [ [ [2]; [3] ] ]
              [ [ [[1]]; [[1]] ] ] in
  SmoothingLDS.chol_decomp_Sinv g1 = SmoothingLDS.chol_decomp_Sinv g2 /\
  SmoothingLDS.evaluate_entropy Scalar.two_steps g1
  = SmoothingLDS.evaluate_entropy Scalar.two_steps g2.
Proof.
  intros g1 g2.
  destruct (C10_entropy_ignores_m_psi Scalar.cholesky Scalar.triangular_solve
              Scalar.two_steps [[1]] [[1]] [[1]] [ [ [1]; [1] ] ] [ [ [2]; [3] ] ]
              [ [ [[1]]; [[1]] ] ]) as (H1 & H2 & _).
  split; [exact H1|exact H2].
Defined.

(* ================================================================== *)
(** * Linear algebra on tensors *)

Section Algebra.
Variable d : nat.

Lemma wf_matmul X Y : wf_mat d (matmul d X Y).
Proof. apply wf_mkmat. Qed.
Lemma wf_transpose X : wf_mat d (transpose d X).
Proof. apply wf_mkmat. Qed.
Lemma wf_madd X Y : wf_mat d (madd d X Y).
Proof. apply wf_mkmat. Qed.
Lemma wf_msub X Y : wf_mat d (msub d X Y).
Proof. apply wf_mkmat. Qed.
Lemma wf_mneg X : wf_mat d (mneg d X).
Proof. apply wf_mkmat. Qed.
Lemma wf_mv M x : wf_vec d (mv d M x).
Proof. apply wf_mkvec. Qed.
Lemma wf_vadd x y : wf_vec d (vadd d x y).
Proof. apply wf_mkvec. Qed.
Lemma wf_vsub x y : wf_vec d (vsub d x y).
Proof. apply wf_mkvec. Qed.
Lemma wf_vzero : wf_vec d (vzero d).
Proof. apply wf_mkvec. Qed.

Lemma vnth_vzero i : vnth (vzero d) i = 0.
Proof.
  destruct (Nat.lt_ge_cases i d) as [Hi|Hi].
  - unfold vzero. now rewrite vnth_mkvec.
  - unfold vzero. now rewrite vnth_mkvec_out.
Qed.

Lemma mget_eye i j :
  (i < d)%nat -> (j < d)%nat -> mget (eye d) i j = if Nat.eqb i j then 1 else 0.
Proof. intros. unfold eye. now rewrite mget_mkmat. Qed.

Lemma transpose_involutive X : wf_mat d X -> transpose d (transpose d X) = X.
Proof.
  intros HX. rewrite (wf_mat_eta _ _ HX) at 2. unfold transpose at 1.
  apply mkmat_ext. intros i j Hi Hj. now rewrite mget_transpose.
Qed.

Lemma transpose_matmul X Y :
  transpose d (matmul d X Y) = matmul d (transpose d Y) (transpose d X).
Proof.
  unfold transpose at 1, matmul at 2. apply mkmat_ext. intros i j Hi Hj.
  rewrite mget_matmul by assumption. apply rsum_ext. intros k Hk.
  rewrite !mget_transpose by assumption. lra.
Qed.

Lemma matmul_assoc X Y Z :
  matmul d (matmul d X Y) Z = matmul d X (matmul d Y Z).
Proof.
  unfold matmul at 1 3. apply mkmat_ext. intros i j Hi Hj.
  rewrite (rsum_ext d (fun k => mget (matmul d X Y) i k * mget Z k j)
                    (fun k => rsum d (fun l => mget X i l * (mget Y l k * mget Z k j)))).
  2:{ intros k Hk. rewrite mget_matmul by assumption.
      rewrite <- rsum_scal_r. apply rsum_ext. intros l Hl. lra. }
  rewrite rsum_swap. apply rsum_ext. intros l Hl.
  rewrite mget_matmul by assumption. now rewrite rsum_scal_l.
Qed.

Lemma matmul_eye_r X : wf_mat d X -> matmul d X (eye d) = X.
Proof.
  intros HX. rewrite (wf_mat_eta _ _ HX) at 2. unfold matmul.
  apply mkmat_ext. intros i j Hi Hj.
  rewrite (rsum_single d _ j Hj).
  - rewrite mget_eye, Nat.eqb_refl by assumption. lra.
  - intros k Hk Hne. rewrite mget_eye by assumption.
    destruct (Nat.eqb_spec k j); [contradiction|lra].
Qed.

Lemma matmul_eye_l X : wf_mat d X -> matmul d (eye d) X = X.
Proof.
  intros HX. rewrite (wf_mat_eta _ _ HX) at 2. unfold matmul.
  apply mkmat_ext. intros i j Hi Hj.
  rewrite (rsum_single d _ i Hi).
  - rewrite mget_eye, Nat.eqb_refl by assumption. lra.
  - intros k Hk Hne. rewrite mget_eye by assumption.
    destruct (Nat.eqb_spec i k); [congruence|lra].
Qed.

Lemma transpose_eye : transpose d (eye d) = eye d.
Proof.
  unfold transpose, eye at 2. apply mkmat_ext. intros i j Hi Hj.
  rewrite mget_eye by assumption. rewrite (Nat.eqb_sym j i). reflexivity.
Qed.

(** ** Vectors *)

Lemma dot_comm x y : dot d x y = dot d y x.
Proof. unfold dot. apply rsum_ext. intros. lra. Qed.

Lemma dot_vadd_l x y z : dot d (vadd d x y) z = dot d x z + dot d y z.
Proof.
  unfold dot. rewrite <- rsum_plus. apply rsum_ext. intros i Hi.
  rewrite vnth_vadd by assumption. lra.
Qed.

Lemma dot_vsub_l x y z : dot d (vsub d x y) z = dot d x z - dot d y z.
Proof.
  unfold dot. rewrite <- rsum_minus. apply rsum_ext. intros i Hi.
  rewrite vnth_vsub by assumption. lra.
Qed.

Lemma dot_vsub_r x y z : dot d z (vsub d x y) = dot d z x - dot d z y.
Proof. rewrite dot_comm, dot_vsub_l. now rewrite !(dot_comm z). Qed.

Lemma dot_vadd_r x y z : dot d z (vadd d x y) = dot d z x + dot d z y.
Proof. rewrite dot_comm, dot_vadd_l. now rewrite !(dot_comm z). Qed.

Lemma dot_vzero_l x : dot d (vzero d) x = 0.
Proof. unfold dot. apply rsum_zero. intros. rewrite vnth_vzero. lra. Qed.

Lemma dot_vzero_r x : dot d x (vzero d) = 0.
Proof. now rewrite dot_comm, dot_vzero_l. Qed.

Lemma dot_self_nonneg x : 0 <= dot d x x.
Proof. unfold dot. apply rsum_nonneg. intros. nra. Qed.

Lemma dot_self_zero x : wf_vec d x -> dot d x x = 0 -> x = vzero d.
Proof.
  intros Hx H. apply (vec_ext d _ _ Hx wf_vzero). intros i Hi.
  rewrite vnth_vzero.
  assert (Hs : vnth x i * vnth x i = 0).
  { apply (rsum_nonneg_zero d (fun i => vnth x i * vnth x i)); auto.
    intros. nra. }
  nra.
Qed.

Lemma mv_vzero M : mv d M (vzero d) = vzero d.
Proof.
  unfold mv, vzero at 2. apply mkvec_ext. intros i Hi.
  apply rsum_zero. intros. rewrite vnth_vzero. lra.
Qed.

Lemma mv_matmul X Y x : mv d (matmul d X Y) x = mv d X (mv d Y x).
Proof.
  unfold mv at 1 2. apply mkvec_ext. intros i Hi.
  rewrite (rsum_ext d (fun j => mget (matmul d X Y) i j * vnth x j)
                    (fun j => rsum d (fun k => mget X i k * (mget Y k j * vnth x j)))).
  2:{ intros j Hj. rewrite mget_matmul by assumption.
      rewrite <- rsum_scal_r. apply rsum_ext. intros. lra. }
  rewrite rsum_swap. apply rsum_ext. intros k Hk.
  rewrite vnth_mv by assumption. now rewrite rsum_scal_l.
Qed.

Lemma mv_madd X Y x : mv d (madd d X Y) x = vadd d (mv d X x) (mv d Y x).
Proof.
  unfold mv at 1, vadd. apply mkvec_ext. intros i Hi.
  rewrite !vnth_mv by assumption. rewrite <- rsum_plus.
  apply rsum_ext. intros j Hj. rewrite mget_madd by assumption. lra.
Qed.

Lemma mv_msub X Y x : mv d (msub d X Y) x = vsub d (mv d X x) (mv d Y x).
Proof.
  unfold mv at 1, vsub. apply mkvec_ext. intros i Hi.
  rewrite !vnth_mv by assumption. rewrite <- rsum_minus.
  apply rsum_ext. intros j Hj. rewrite mget_msub by assumption. lra.
Qed.

Lemma mv_vsub M x y : mv d M (vsub d x y) = vsub d (mv d M x) (mv d M y).
Proof.
  unfold mv at 1, vsub at 2. apply mkvec_ext. intros i Hi.
  rewrite !vnth_mv by assumption. rewrite <- rsum_minus.
  apply rsum_ext. intros j Hj. rewrite vnth_vsub by assumption. lra.
Qed.

Lemma mv_vadd M x y : mv d M (vadd d x y) = vadd d (mv d M x) (mv d M y).
Proof.
  unfold mv at 1, vadd at 2. apply mkvec_ext. intros i Hi.
  rewrite !vnth_mv by assumption. rewrite <- rsum_plus.
  apply rsum_ext. intros j Hj. rewrite vnth_vadd by assumption. lra.
Qed.

Lemma mv_eye x : wf_vec d x -> mv d (eye d) x = x.
Proof.
  intros Hx. rewrite (wf_vec_eta _ _ Hx) at 2. unfold mv.
  apply mkvec_ext. intros i Hi. rewrite (rsum_single d _ i Hi).
  - rewrite mget_eye, Nat.eqb_refl by assumption. lra.
  - intros k Hk Hne. rewrite mget_eye by assumption.
    destruct (Nat.eqb_spec i k); [congruence|lra].
Qed.

(** [x . (M y) = (M^T x) . y]. *)
Lemma dot_mv_transpose M x y :
  dot d x (mv d M y) = dot d (mv d (transpose d M) x) y.
Proof.
  unfold dot.
  rewrite (rsum_ext d (fun i => vnth x i * vnth (mv d M y) i)
                    (fun i => rsum d (fun j => vnth x i * mget M i j * vnth y j))).
  2:{ intros i Hi. rewrite vnth_mv by assumption. rewrite <- rsum_scal_l.
      apply rsum_ext. intros. lra. }
  rewrite rsum_swap. apply rsum_ext. intros j Hj.
  rewrite vnth_mv by assumption. rewrite <- rsum_scal_r.
  apply rsum_ext. intros i Hi. rewrite mget_transpose by assumption. lra.
Qed.

Lemma dot_mv_symmetric M x y :
  symmetric d M -> dot d x (mv d M y) = dot d (mv d M x) y.
Proof. intros HM. rewrite dot_mv_transpose. now rewrite HM. Qed.

Lemma vsub_vzero_r x : wf_vec d x -> vsub d x (vzero d) = x.
Proof.
  intros Hx. rewrite (wf_vec_eta _ _ Hx) at 2. unfold vsub.
  apply mkvec_ext. intros. rewrite vnth_vzero. lra.
Qed.

Lemma vadd_vsub_cancel x y : wf_vec d x -> vadd d (vsub d x y) y = x.
Proof.
  intros Hx. rewrite (wf_vec_eta _ _ Hx) at 2. unfold vadd.
  apply mkvec_ext. intros i Hi. rewrite vnth_vsub by assumption. lra.
Qed.

(** ** Quadratic forms *)

Lemma quad_vzero M : quad d M (vzero d) = 0.
Proof. unfold quad. apply dot_vzero_l. Qed.

Lemma quad_madd X Y x : quad d (madd d X Y) x = quad d X x + quad d Y x.
Proof. unfold quad. now rewrite mv_madd, dot_vadd_r. Qed.

Lemma quad_msub X Y x : quad d (msub d X Y) x = quad d X x - quad d Y x.
Proof. unfold quad. now rewrite mv_msub, dot_vsub_r. Qed.

(** [x^T (R R^T) x] is the squared length of [R^T x]. *)
Lemma quad_gram Rm x :
  quad d (matmul d Rm (transpose d Rm)) x =
  dot d (mv d (transpose d Rm) x) (mv d (transpose d Rm) x).
Proof. unfold quad. now rewrite mv_matmul, dot_mv_transpose. Qed.

Lemma gram_symmetric Rm : symmetric d (matmul d Rm (transpose d Rm)).
Proof.
  unfold symmetric. rewrite transpose_matmul.
  unfold matmul. apply mkmat_ext. intros i j Hi Hj.
  apply rsum_ext. intros k Hk. now rewrite !mget_transpose by assumption.
Qed.

Lemma gram_possemidef Rm : possemidef d (matmul d Rm (transpose d Rm)).
Proof. intros x _. rewrite quad_gram. apply dot_self_nonneg. Qed.

Lemma madd_symmetric X Y :
  symmetric d X -> symmetric d Y -> symmetric d (madd d X Y).
Proof.
  unfold symmetric. intros HX HY.
  unfold transpose, madd at 2. apply mkmat_ext. intros i j Hi Hj.
  rewrite mget_madd by assumption.
  rewrite <- HX at 2. rewrite <- HY at 2.
  now rewrite !mget_transpose by assumption.
Qed.

Lemma msub_symmetric X Y :
  symmetric d X -> symmetric d Y -> symmetric d (msub d X Y).
Proof.
  unfold symmetric. intros HX HY.
  unfold transpose, msub at 2. apply mkmat_ext. intros i j Hi Hj.
  rewrite mget_msub by assumption.
  rewrite <- HX at 2. rewrite <- HY at 2.
  now rewrite !mget_transpose by assumption.
Qed.

Lemma symmetric_wf X : symmetric d X -> wf_mat d X.
Proof. intros H. rewrite <- H. apply wf_transpose. Qed.

Lemma symmetric_mget X i j :
  symmetric d X -> (i < d)%nat -> (j < d)%nat -> mget X i j = mget X j i.
Proof. intros H Hi Hj. rewrite <- H at 1. now apply mget_transpose. Qed.

(** [A P A^T] is symmetric when [P] is. *)
Lemma congruence_symmetric A P :
  symmetric d P -> symmetric d (matmul d (matmul d A P) (transpose d A)).
Proof.
  intros HP. unfold symmetric.
  rewrite transpose_matmul, transpose_matmul, HP.
  rewrite <- matmul_assoc.
  unfold matmul at 1 3. apply mkmat_ext. intros i j Hi Hj.
  apply rsum_ext. intros k Hk. f_equal.
  rewrite !mget_matmul by assumption. apply rsum_ext. intros l Hl.
  now rewrite !mget_transpose by assumption.
Qed.

End Algebra.

(* ================================================================== *)
(** * The dense kernels at work *)

Section KernelLemmas.
Variable d : nat.
Variable triangular_solve : mat -> vec -> bool -> vec.
Hypothesis solve_ok : triangular_solve_contract d triangular_solve.

Lemma wf_mat_row M i : wf_mat d M -> (i < d)%nat -> wf_vec d (nth i M []).
Proof.
  intros [Hlen Hrows] Hi. rewrite Forall_forall in Hrows.
  apply Hrows. apply nth_In. lia.
Qed.

(** [right_solve_T L C] is a [d x d] matrix [E] with [E C^T = L]. *)
Lemma right_solve_T_spec L C :
  chol_factor d C -> wf_mat d L ->
  wf_mat d (CholUtils.right_solve_T d triangular_solve L C) /\
  matmul d (CholUtils.right_solve_T d triangular_solve L C) (transpose d C) = L.
Proof.
  intros HC HL.
  set (E := CholUtils.right_solve_T d triangular_solve L C).
  assert (Hrow : forall i, (i < d)%nat ->
            nth i E [] = triangular_solve C (nth i L []) false).
  { intros i Hi. unfold E, CholUtils.right_solve_T.
    rewrite (nth_indep _ [] (triangular_solve C (nth 0%nat L []) false))
      by now rewrite length_map, length_seq.
    rewrite (map_nth (fun i => triangular_solve C (nth i L []) false)).
    now rewrite seq_nth. }
  assert (HE : wf_mat d E).
  { split.
    - unfold E, CholUtils.right_solve_T. now rewrite length_map, length_seq.
    - apply Forall_forall. intros row Hin.
      unfold E, CholUtils.right_solve_T in Hin. apply in_map_iff in Hin.
      destruct Hin as [i [<- Hi]]. apply in_seq in Hi.
      apply solve_ok; [assumption|]. apply wf_mat_row; [assumption|lia]. }
  split; [exact HE|].
  apply (mat_ext d); [apply wf_matmul | assumption |].
  intros i j Hi Hj. rewrite mget_matmul by assumption.
  destruct (solve_ok C (nth i L []) false HC (wf_mat_row L i HL Hi)) as [_ Hs].
  simpl in Hs. apply (f_equal (fun v => vnth v j)) in Hs.
  rewrite vnth_mv in Hs by assumption.
  unfold mget at 3. fold (vnth (nth i L []) j). rewrite <- Hs.
  apply rsum_ext. intros k Hk. rewrite mget_transpose by assumption.
  unfold mget at 1. rewrite Hrow by assumption. unfold vnth. lra.
Qed.

End KernelLemmas.

(* ================================================================== *)
(** * The block factorization succeeds on a positive definite operand *)

Section BlockQuadratic.
Variable d : nat.

Lemma cross_zeros Ls x n : cross d Ls x (repeat (vzero d) n) = 0.
Proof.
  destruct Ls as [|L Ls]; [reflexivity|]. destruct n as [|n]; [reflexivity|].
  simpl. rewrite dot_vzero_l. lra.
Qed.

Lemma bquad_zeros Ds Ls n : bquad d Ds Ls (repeat (vzero d) n) = 0.
Proof.
  revert Ls n. induction Ds as [|D Ds IH]; intros Ls n; [reflexivity|].
  destruct n as [|n]; [reflexivity|]. simpl.
  rewrite quad_vzero, cross_zeros, IH. lra.
Qed.

(** The first diagonal block of a positive definite operand is positive
    definite. *)
Lemma block_posdef_head D Ds Ls :
  block_posdef d (D :: Ds) Ls -> posdef d D.
Proof.
  intros H x Hx Hne.
  specialize (H (x :: repeat (vzero d) (length Ds))).
  simpl in H. rewrite cross_zeros, bquad_zeros in H.
  assert (0 < quad d D x + 0 + 0); [|lra].
  apply H.
  - now rewrite repeat_length.
  - constructor; [assumption|]. apply Forall_forall. intros y Hy.
    apply repeat_spec in Hy. subst y. apply wf_vzero.
  - now constructor.
Qed.

Lemma madd_msub_cancel X Y : wf_mat d X -> madd d (msub d X Y) Y = X.
Proof.
  intros HX. rewrite (wf_mat_eta _ _ HX) at 2. unfold madd.
  apply mkmat_ext. intros i j Hi Hj. rewrite mget_msub by assumption. lra.
Qed.

End BlockQuadratic.

Section BlockCholesky.
Variable d : nat.
Variable cholesky : mat -> result mat.
Variable triangular_solve : mat -> vec -> bool -> vec.
Hypothesis chol_ok : cholesky_contract d cholesky.
Hypothesis solve_ok : triangular_solve_contract d triangular_solve.

(** Eliminating the first block: every block vector of the reduced operand
    extends to one of the full operand with the same quadratic form. *)
Lemma schur_step Cprev D L Ds' Ls' y ys' :
  chol_factor d Cprev -> wf_mat d L -> wf_vec d y ->
  let E := CholUtils.right_solve_T d triangular_solve L Cprev in
  exists x0, wf_vec d x0 /\
    bquad d (matmul d Cprev (transpose d Cprev) :: D :: Ds') (L :: Ls')
          (x0 :: y :: ys') =
    bquad d (msub d D (matmul d E (transpose d E)) :: Ds') Ls' (y :: ys').
Proof.
  intros HC HL Hy E.
  assert (HEC : matmul d E (transpose d Cprev) = L)
    by apply (right_solve_T_spec d triangular_solve solve_ok L Cprev HC HL).
  set (v := mv d (transpose d E) y).
  set (u := vsub d (vzero d) v).
  destruct (solve_ok Cprev u true HC (wf_vsub d _ _)) as [Hx0 Hsolve].
  simpl in Hsolve.
  set (x0 := triangular_solve Cprev u true) in *.
  exists x0. split; [exact Hx0|].
  assert (Huu : dot d u u = dot d v v).
  { unfold u. rewrite dot_vsub_l, !dot_vsub_r, !dot_vzero_l, !dot_vzero_r. lra. }
  assert (Hvu : dot d v u = - dot d v v).
  { unfold u. rewrite dot_vsub_r, dot_vzero_r. lra. }
  assert (H1 : quad d (matmul d Cprev (transpose d Cprev)) x0 = dot d v v).
  { rewrite quad_gram, Hsolve. exact Huu. }
  assert (H2 : dot d y (mv d L x0) = - dot d v v).
  { rewrite <- HEC, mv_matmul, Hsolve, dot_mv_transpose. exact Hvu. }
  assert (H3 : quad d (msub d D (matmul d E (transpose d E))) y
               = quad d D y - dot d v v).
  { rewrite quad_msub, quad_gram. reflexivity. }
  simpl. rewrite H1, H2, H3. lra.
Qed.

Lemma chol_rec_ok Ds :
  forall Ls Cprev Dprev,
    length Ls = length Ds ->
    Forall (symmetric d) Ds -> Forall (wf_mat d) Ls ->
    chol_factor d Cprev ->
    matmul d Cprev (transpose d Cprev) = Dprev ->
    block_posdef d (Dprev :: Ds) Ls ->
    exists Cs Es,
      CholUtils.chol_rec d cholesky triangular_solve Cprev Ds Ls = Ok (Cs, Es) /\
      continues_factor d Cprev Ds Ls Cs Es.
Proof.
  induction Ds as [|D Ds' IH]; intros Ls Cprev Dprev Hlen Hsym Hwf HC HCC Hpd.
  - destruct Ls; [|discriminate]. exists [], []. split; [reflexivity|exact I].
  - destruct Ls as [|L Ls']; [discriminate|].
    inversion Hsym as [|? ? HD Hsym']; subst.
    inversion Hwf as [|? ? HL Hwf']; subst.
    set (E := CholUtils.right_solve_T d triangular_solve L Cprev).
    assert (HE : wf_mat d E)
      by apply (right_solve_T_spec d triangular_solve solve_ok L Cprev HC HL).
    assert (HEC : matmul d E (transpose d Cprev) = L)
      by apply (right_solve_T_spec d triangular_solve solve_ok L Cprev HC HL).
    set (S' := msub d D (matmul d E (transpose d E))).
    assert (Hpd' : block_posdef d (S' :: Ds') Ls').
    { intros ys Hlen' Hwfy Hne.
      destruct ys as [|y ys']; [discriminate|].
      apply Forall_cons_iff in Hwfy. destruct Hwfy as [Hy Hwfy'].
      destruct (schur_step Cprev D L Ds' Ls' y ys' HC HL Hy) as [x0 [Hx0 Heq]].
      fold E in Heq. fold S' in Heq. rewrite <- Heq.
      apply Hpd.
      - simpl in *. lia.
      - constructor; [assumption|]. constructor; assumption.
      - now apply Exists_cons_tl. }
    assert (Hspd : spd d S').
    { split; [apply wf_msub|]. split.
      - apply msub_symmetric; [assumption|apply gram_symmetric].
      - eapply block_posdef_head. exact Hpd'. }
    destruct (chol_ok S' Hspd) as [C [Hchol [HCf HCC']]].
    destruct (IH Ls' C S') as [Cs' [Es' [Hrec Hcont]]]; auto.
    exists (C :: Cs'), (E :: Es'). split.
    + simpl. fold E. fold S'. rewrite Hchol. simpl. rewrite Hrec. reflexivity.
    + simpl. split; [exact HCf|]. split; [exact HE|]. split; [exact HEC|].
      split; [|exact Hcont].
      rewrite HCC'. unfold S'. apply madd_msub_cancel.
      now apply symmetric_wf.
Qed.

(** The block factorization of a positive definite operand succeeds and
    returns a block factor of it. *)
Lemma blk_tridiag_chol_ok Ds Ls :
  (0 < d)%nat -> (0 < length Ds)%nat -> S (length Ls) = length Ds ->
  Forall (symmetric d) Ds -> Forall (wf_mat d) Ls ->
  block_posdef d Ds Ls ->
  exists Cs Es,
    CholUtils.blk_tridiag_chol d cholesky triangular_solve Ds Ls = Ok (Cs, Es) /\
    block_factor d Ds Ls Cs Es.
Proof.
  intros Hd HT Hlen Hsym Hwf Hpd.
  destruct Ds as [|D1 Ds']; [simpl in HT; lia|].
  inversion Hsym as [|? ? HD1 Hsym']; subst.
  assert (Hspd : spd d D1).
  { split; [now apply symmetric_wf|]. split; [assumption|].
    eapply block_posdef_head. exact Hpd. }
  destruct (chol_ok D1 Hspd) as [C1 [Hchol [HCf HCC]]].
  simpl in Hlen. injection Hlen as Hlen.
  destruct (chol_rec_ok Ds' Ls C1 D1) as [Cs' [Es [Hrec Hcont]]]; auto.
  exists (C1 :: Cs'), Es. split.
  - unfold CholUtils.blk_tridiag_chol.
    destruct (Nat.eqb_spec d 0) as [->|_]; [lia|].
    rewrite Hlen, Nat.eqb_refl. simpl. rewrite Hchol. simpl.
    rewrite Hrec. reflexivity.
  - simpl. auto.
Qed.

End BlockCholesky.

(* ================================================================== *)
(** * Dense and block-level quadratic forms agree *)

Lemma rsum_prefix n m f :
  (m <= n)%nat -> (forall J, (m <= J < n)%nat -> f J = 0) ->
  rsum n f = rsum m f.
Proof.
  intros Hmn H. replace n with (m + (n - m))%nat by lia.
  rewrite rsum_app. rewrite (rsum_zero (n - m)); [lra|].
  intros i Hi. apply H. lia.
Qed.

Section Indices.
Variable d : nat.
Hypothesis d_pos : (0 < d)%nat.

Lemma block_div t i : (i < d)%nat -> ((t * d + i) / d = t)%nat.
Proof.
  intros Hi. rewrite Nat.div_add_l by lia. rewrite Nat.div_small by lia. lia.
Qed.

Lemma block_mod t i : (i < d)%nat -> ((t * d + i) mod d = i)%nat.
Proof.
  intros Hi. rewrite Nat.add_comm, Nat.Div0.mod_add. now apply Nat.mod_small.
Qed.

Lemma shift_div I : ((d + I) / d = S (I / d))%nat.
Proof.
  replace (d + I)%nat with (1 * d + I)%nat by lia.
  rewrite Nat.div_add_l by lia. lia.
Qed.

Lemma shift_mod I : ((d + I) mod d = I mod d)%nat.
Proof.
  replace (d + I)%nat with (I + 1 * d)%nat by lia. apply Nat.Div0.mod_add.
Qed.

Lemma index_div_lt T I : (I < T * d)%nat -> (I / d < T)%nat.
Proof. intros H. apply Nat.Div0.div_lt_upper_bound. lia. Qed.

Lemma index_mod_lt I : (I mod d < d)%nat.
Proof. apply Nat.mod_upper_bound. lia. Qed.

Lemma block_index_lt T t i : (t < T)%nat -> (i < d)%nat -> (t * d + i < T * d)%nat.
Proof. intros Ht Hi. nia. Qed.

End Indices.

Section Bridge.
Variable d : nat.
Hypothesis d_pos : (0 < d)%nat.

Lemma mget_expand_tridiag Ds Ls I J :
  (I < length Ds * d)%nat -> (J < length Ds * d)%nat ->
  mget (expand_tridiag d Ds Ls) I J = tridiag_entry d Ds Ls I J.
Proof. intros HI HJ. unfold expand_tridiag. now rewrite mget_mkmat. Qed.

Lemma mget_expand_bidiag Cs Es I J :
  (I < length Cs * d)%nat -> (J < length Cs * d)%nat ->
  mget (expand_bidiag d Cs Es) I J = bidiag_entry d Cs Es I J.
Proof. intros HI HJ. unfold expand_bidiag. now rewrite mget_mkmat. Qed.

Lemma vnth_flatten xs I :
  (I < length xs * d)%nat -> vnth (flatten d xs) I = block_entry d xs I.
Proof. intros HI. unfold flatten. now rewrite vnth_mkvec. Qed.

(** The dense quadratic form, on the entries. *)
Lemma quad_dquad n M x :
  quad n M x = dquad n (mget M) (vnth x).
Proof.
  unfold quad, dot, dquad. apply rsum_ext. intros I HI.
  now rewrite vnth_mv.
Qed.

Lemma dquad_ext n e e' g g' :
  (forall I J, (I < n)%nat -> (J < n)%nat -> e I J = e' I J) ->
  (forall I, (I < n)%nat -> g I = g' I) ->
  dquad n e g = dquad n e' g'.
Proof.
  intros He Hg. unfold dquad. apply rsum_ext. intros I HI.
  rewrite Hg by assumption. f_equal. apply rsum_ext. intros J HJ.
  rewrite He, Hg by assumption. reflexivity.
Qed.

(** Entries met when the first block is peeled off. *)
Lemma tridiag_entry_head D Ds Ls i j :
  (i < d)%nat -> (j < d)%nat ->
  tridiag_entry d (D :: Ds) Ls i j = mget D i j.
Proof.
  intros Hi Hj. unfold tridiag_entry.
  rewrite !Nat.div_small, !Nat.mod_small by assumption. reflexivity.
Qed.

Lemma tridiag_entry_tail D Ds Ls I J :
  tridiag_entry d (D :: Ds) Ls (d + I) (d + J) = tridiag_entry d Ds (tl Ls) I J.
Proof.
  unfold tridiag_entry. rewrite !shift_div, !shift_mod by assumption.
  cbn [Nat.eqb nth].
  destruct Ls as [|L Ls]; cbn [nth tl]; [|reflexivity].
  destruct (I / d)%nat, (J / d)%nat; reflexivity.
Qed.

Lemma tridiag_entry_upper D Ds Ls i J :
  (i < d)%nat ->
  tridiag_entry d (D :: Ds) Ls i (d + J) =
  if Nat.eqb (J / d) 0 then mget (nth 0 Ls []) (J mod d) i else 0.
Proof.
  intros Hi. unfold tridiag_entry.
  rewrite shift_div, shift_mod by assumption.
  rewrite (Nat.div_small i), (Nat.mod_small i) by assumption.
  cbn [Nat.eqb]. reflexivity.
Qed.

Lemma tridiag_entry_lower D Ds Ls I j :
  (j < d)%nat ->
  tridiag_entry d (D :: Ds) Ls (d + I) j =
  if Nat.eqb (I / d) 0 then mget (nth 0 Ls []) (I mod d) j else 0.
Proof.
  intros Hj. unfold tridiag_entry.
  rewrite shift_div, shift_mod by assumption.
  rewrite (Nat.div_small j), (Nat.mod_small j) by assumption.
  cbn [Nat.eqb]. reflexivity.
Qed.

Lemma block_entry_head x xs i : (i < d)%nat -> block_entry d (x :: xs) i = vnth x i.
Proof.
  intros Hi. unfold block_entry.
  now rewrite Nat.div_small, Nat.mod_small by assumption.
Qed.

Lemma block_entry_tail x xs I : block_entry d (x :: xs) (d + I) = block_entry d xs I.
Proof.
  unfold block_entry. now rewrite shift_div, shift_mod by assumption.
Qed.

(** The coupling of the first block with the rest, read on the entries. *)
Lemma coupling_sum Ls x xs' n' :
  n' = (length xs' * d)%nat ->
  rsum n' (fun I' =>
    block_entry d xs' I' *
    rsum d (fun j => (if Nat.eqb (I' / d) 0
                      then mget (nth 0 Ls []) (I' mod d) j else 0) * vnth x j))
  = match xs' with
    | [] => 0
    | x' :: _ => dot d x' (mv d (nth 0 Ls []) x)
    end.
Proof.
  intros ->. destruct xs' as [|x' xs'']; [reflexivity|].
  rewrite (rsum_prefix _ d).
  - unfold dot. apply rsum_ext. intros i Hi.
    rewrite block_entry_head by assumption.
    rewrite vnth_mv by assumption. f_equal. apply rsum_ext. intros j Hj.
    now rewrite Nat.div_small, Nat.mod_small by assumption.
  - simpl. lia.
  - intros J [HJ _]. rewrite (rsum_zero d); [lra|].
    intros j Hj.
    destruct (Nat.eqb_spec (J / d) 0) as [H0|_]; [|lra].
    apply Nat.div_small_iff in H0; lia.
Qed.

Lemma cross_nth Ls x xs' :
  cross d Ls x xs' =
  2 * match xs' with
      | [] => 0
      | x' :: _ => dot d x' (mv d (nth 0 Ls []) x)
      end.
Proof.
  destruct Ls as [|L Ls], xs' as [|x' xs'']; simpl; try lra.
  replace (mv d [] x) with (vzero d); [rewrite dot_vzero_r; lra|].
  unfold vzero, mv. apply mkvec_ext. intros i Hi. symmetry.
  apply rsum_zero. intros j Hj. unfold mget. simpl.
  destruct i, j; simpl; lra.
Qed.

(** The quadratic form of the dense expansion is the block-level one. *)
Lemma dquad_bquad Ds :
  forall Ls xs, length xs = length Ds ->
    dquad (length Ds * d) (tridiag_entry d Ds Ls) (block_entry d xs)
    = bquad d Ds Ls xs.
Proof.
  induction Ds as [|D Ds' IH]; intros Ls xs Hlen.
  - reflexivity.
  - destruct xs as [|x xs']; [discriminate|]. simpl in Hlen.
    injection Hlen as Hlen.
    cbn [length bquad]. rewrite <- (IH (tl Ls) xs' Hlen).
    set (n' := (length Ds' * d)%nat).
    replace (S (length Ds') * d)%nat with (d + n')%nat by (unfold n'; lia).
    unfold dquad at 1. rewrite rsum_app.
    (* the rows of the first block *)
    rewrite (rsum_ext d _
      (fun i => vnth x i * rsum d (fun j => mget D i j * vnth x j)
                + vnth x i *
                  rsum n' (fun J' =>
                    (if Nat.eqb (J' / d) 0
                     then mget (nth 0 Ls []) (J' mod d) i else 0)
                    * block_entry d xs' J'))).
    2:{ intros i Hi. rewrite block_entry_head by assumption.
        rewrite rsum_app. rewrite Rmult_plus_distr_l. f_equal; f_equal.
        - apply rsum_ext. intros j Hj.
          now rewrite tridiag_entry_head, block_entry_head by assumption.
        - apply rsum_ext. intros J' HJ'.
          now rewrite tridiag_entry_upper, block_entry_tail by assumption. }
    (* the other rows *)
    rewrite (rsum_ext n' (fun I' => block_entry d (x :: xs') (d + I') * _)
      (fun I' =>
         block_entry d xs' I' *
         rsum d (fun j => (if Nat.eqb (I' / d) 0
                           then mget (nth 0 Ls []) (I' mod d) j else 0)
                          * vnth x j)
         + block_entry d xs' I' *
           rsum n' (fun J' => tridiag_entry d Ds' (tl Ls) I' J'
                              * block_entry d xs' J'))).
    2:{ intros I' HI'. rewrite block_entry_tail.
        rewrite rsum_app. rewrite Rmult_plus_distr_l. f_equal; f_equal.
        - apply rsum_ext. intros j Hj.
          now rewrite tridiag_entry_lower, block_entry_head by assumption.
        - apply rsum_ext. intros J' HJ'.
          now rewrite tridiag_entry_tail, block_entry_tail. }
    rewrite !rsum_plus.
    assert (Hn' : n' = (length xs' * d)%nat) by (unfold n'; now rewrite Hlen).
    rewrite (coupling_sum Ls x xs' n' Hn').
    (* the upper coupling, with the two sums exchanged *)
    assert (Hup :
      rsum d (fun i => vnth x i *
        rsum n' (fun J' =>
          (if Nat.eqb (J' / d) 0 then mget (nth 0 Ls []) (J' mod d) i else 0)
          * block_entry d xs' J'))
      = match xs' with
        | [] => 0
        | x' :: _ => dot d x' (mv d (nth 0 Ls []) x)
        end).
    { rewrite <- (coupling_sum Ls x xs' n' Hn').
      rewrite (rsum_ext d _ (fun i => rsum n' (fun J' =>
         block_entry d xs' J' *
         ((if Nat.eqb (J' / d) 0 then mget (nth 0 Ls []) (J' mod d) i else 0)
          * vnth x i)))).
      2:{ intros i Hi. rewrite <- rsum_scal_l. apply rsum_ext. intros. lra. }
      rewrite rsum_swap. apply rsum_ext. intros J' HJ'.
      now rewrite rsum_scal_l. }
    rewrite Hup. rewrite cross_nth. unfold quad, dot, dquad.
    rewrite (rsum_ext d (fun i => vnth x i * vnth (mv d D x) i)
                      (fun i => vnth x i * rsum d (fun j => mget D i j * vnth x j))).
    2:{ intros i Hi. now rewrite vnth_mv. }
    lra.
Qed.

End Bridge.

(* ================================================================== *)
(** * The dense product of a block factor *)

Lemma rsum_pair n f a b :
  (a < n)%nat -> (b < n)%nat -> a <> b ->
  (forall i, (i < n)%nat -> i <> a -> i <> b -> f i = 0) ->
  rsum n f = f a + f b.
Proof.
  induction n as [|n IH]; intros Ha Hb Hab H; [lia|]. simpl.
  destruct (Nat.eq_dec a n) as [->|Hna].
  - rewrite (rsum_single n f b); [lra|lia|]. intros i Hi Hib. apply H; lia.
  - destruct (Nat.eq_dec b n) as [->|Hnb].
    + rewrite (rsum_single n f a); [lra|lia|]. intros i Hi Hia. apply H; lia.
    + rewrite IH; try lia.
      * rewrite (H n) by lia. lra.
      * intros i Hi Hia Hib. apply H; lia.
Qed.

Section FactorFacts.
Variable d : nat.

Lemma gram_entry X Y i j :
  (i < d)%nat -> (j < d)%nat ->
  mget (matmul d X (transpose d Y)) i j = rsum d (fun k => mget X i k * mget Y j k).
Proof.
  intros Hi Hj. rewrite mget_matmul by assumption. apply rsum_ext.
  intros k Hk. now rewrite mget_transpose.
Qed.

Lemma continues_factor_facts Ds :
  forall Ls Cs Es Cprev,
    continues_factor d Cprev Ds Ls Cs Es ->
    length Cs = length Ds /\ length Es = length Ds /\
    (length Ds <= length Ls)%nat /\
    forall t, (t < length Ds)%nat ->
      chol_factor d (nth t Cs []) /\ wf_mat d (nth t Es []) /\
      matmul d (nth t Es []) (transpose d (nth t (Cprev :: Cs) [])) = nth t Ls [] /\
      madd d (matmul d (nth t Cs []) (transpose d (nth t Cs [])))
             (matmul d (nth t Es []) (transpose d (nth t Es []))) = nth t Ds [].
Proof.
  induction Ds as [|D Ds' IH]; intros Ls Cs Es Cprev H.
  - destruct Cs, Es; simpl in H; try contradiction.
    split; [reflexivity|]. split; [reflexivity|]. split; [simpl; lia|].
    intros t Ht. simpl in Ht. lia.
  - destruct Ls as [|L Ls'], Cs as [|C Cs'], Es as [|E Es'];
      simpl in H; try contradiction.
    destruct H as (HC & HE & HEC & HD & Hrest).
    destruct (IH _ _ _ _ Hrest) as (H1 & H2 & H3 & H4).
    split; [simpl; congruence|]. split; [simpl; congruence|].
    split; [simpl; lia|].
    intros [|t] Ht.
    + simpl. auto.
    + simpl in Ht. apply H4. lia.
Qed.

(** What a block factor says block by block; [Cs] holds [C_1..C_T] and
    [Es] holds [E_1..E_(T-1)]. *)
Lemma block_factor_facts Ds Ls Cs Es :
  block_factor d Ds Ls Cs Es ->
  length Cs = length Ds /\ S (length Es) = length Ds /\
  (forall t, (t < length Ds)%nat -> chol_factor d (nth t Cs [])) /\
  (forall t, (S t < length Ds)%nat -> wf_mat d (nth t Es [])) /\
  matmul d (nth 0 Cs []) (transpose d (nth 0 Cs [])) = nth 0 Ds [] /\
  (forall t, (S t < length Ds)%nat ->
     madd d (matmul d (nth (S t) Cs []) (transpose d (nth (S t) Cs [])))
            (matmul d (nth t Es []) (transpose d (nth t Es []))) = nth (S t) Ds []) /\
  (forall t, (S t < length Ds)%nat ->
     matmul d (nth t Es []) (transpose d (nth t Cs [])) = nth t Ls []).
Proof.
  intros H. destruct Ds as [|D1 Ds'], Cs as [|C1 Cs']; simpl in H;
    try contradiction.
  destruct H as (HC1 & HCC & Hcont).
  destruct (continues_factor_facts _ _ _ _ _ Hcont) as (H1 & H2 & H3 & H4).
  split; [simpl; congruence|]. split; [simpl; congruence|].
  split.
  { intros [|t] Ht; [exact HC1|]. simpl in Ht. apply H4. lia. }
  split.
  { intros t Ht. simpl in Ht. apply H4. lia. }
  split; [exact HCC|].
  split.
  { intros t Ht. simpl in Ht. apply (H4 t). lia. }
  intros t Ht. simpl in Ht. apply (H4 t). lia.
Qed.

End FactorFacts.

Section DenseProduct.
Variable d : nat.
Hypothesis d_pos : (0 < d)%nat.

(** Entry [k] of row [i] of block row [t] of the factor, in block column
    [u]. *)
Let cfun (Cs Es : list mat) (t i u k : nat) : R :=
  if Nat.eqb t u then mget (nth t Cs []) i k
  else if Nat.eqb t (S u) then mget (nth u Es []) i k
  else 0.

Lemma bidiag_entry_block Cs Es I u k :
  (k < d)%nat ->
  bidiag_entry d Cs Es I (u * d + k) = cfun Cs Es (I / d) (I mod d) u k.
Proof.
  intros Hk. unfold bidiag_entry, cfun.
  now rewrite block_div, block_mod by assumption.
Qed.

Ltac eqb_cases :=
  repeat match goal with
         | |- context [Nat.eqb ?a ?b] => destruct (Nat.eqb_spec a b)
         end.

(** The dense factor times its transpose is the dense operand. *)
Lemma dense_product Ds Ls Cs Es :
  block_factor d Ds Ls Cs Es ->
  let n := (length Ds * d)%nat in
  matmul n (expand_bidiag d Cs Es) (transpose n (expand_bidiag d Cs Es))
  = expand_tridiag d Ds Ls.
Proof.
  intros Hf n.
  destruct (block_factor_facts d Ds Ls Cs Es Hf)
    as (HlenC & HlenE & _ & _ & F1 & F2 & F3).
  unfold matmul, expand_tridiag. fold n. apply mkmat_ext. intros I J HI HJ.
  rewrite (rsum_ext n _ (fun K => bidiag_entry d Cs Es I K * bidiag_entry d Cs Es J K)).
  2:{ intros K HK. rewrite mget_transpose by assumption.
      rewrite !mget_expand_bidiag by (try assumption; rewrite HlenC; assumption).
      reflexivity. }
  unfold n. rewrite rsum_blocks.
  rewrite (rsum_ext (length Ds) _
    (fun u => rsum d (fun k => cfun Cs Es (I / d) (I mod d) u k
                             * cfun Cs Es (J / d) (J mod d) u k))).
  2:{ intros u Hu. apply rsum_ext. intros k Hk.
      now rewrite !bidiag_entry_block. }
  assert (Ht : (I / d < length Ds)%nat) by now apply index_div_lt.
  assert (Hs : (J / d < length Ds)%nat) by now apply index_div_lt.
  assert (Hi : (I mod d < d)%nat) by now apply index_mod_lt.
  assert (Hj : (J mod d < d)%nat) by now apply index_mod_lt.
  fold (tridiag_entry d Ds Ls I J). unfold tridiag_entry.
  set (t := (I / d)%nat) in *. set (s := (J / d)%nat) in *.
  set (i := (I mod d)%nat) in *. set (j := (J mod d)%nat) in *.
  cbv zeta.
  destruct (Nat.eqb_spec t s) as [Hts|Hts].
  - (* a diagonal block *)
    rewrite <- Hts. destruct t as [|t'].
    + rewrite (rsum_single _ _ 0%nat Ht).
      * unfold cfun. cbn [Nat.eqb]. rewrite <- F1.
        now rewrite gram_entry.
      * intros u Hu Hne. apply rsum_zero. intros k Hk. unfold cfun.
        eqb_cases; try lia; lra.
    + rewrite (rsum_pair _ _ t' (S t')); try lia.
      * unfold cfun. rewrite !Nat.eqb_refl.
        destruct (Nat.eqb_spec (S t') t') as [Hbad|_]; [lia|].
        rewrite <- (F2 t' Ht). rewrite mget_madd by assumption.
        rewrite !gram_entry by assumption. lra.
      * intros u Hu Hne1 Hne2. apply rsum_zero. intros k Hk. unfold cfun.
        eqb_cases; try lia; lra.
  - destruct (Nat.eqb_spec t (S s)) as [Hts'|Hts'].
    + (* a block below the diagonal *)
      rewrite (rsum_single _ _ s Hs).
      * unfold cfun. rewrite Nat.eqb_refl.
        destruct (Nat.eqb_spec t s) as [Hbad|_]; [lia|].
        destruct (Nat.eqb_spec t (S s)) as [_|Hbad]; [|lia].
        rewrite <- (F3 s) by lia. now rewrite gram_entry.
      * intros u Hu Hne. apply rsum_zero. intros k Hk. unfold cfun.
        eqb_cases; try lia; lra.
    + destruct (Nat.eqb_spec s (S t)) as [Hst|Hst].
      * (* a block above the diagonal *)
        rewrite (rsum_single _ _ t Ht).
        -- unfold cfun. rewrite Nat.eqb_refl.
           destruct (Nat.eqb_spec s t) as [Hbad|_]; [lia|].
           destruct (Nat.eqb_spec s (S t)) as [_|Hbad]; [|lia].
           rewrite <- (F3 t) by lia. rewrite gram_entry by assumption.
           apply rsum_ext. intros. lra.
        -- intros u Hu Hne. apply rsum_zero. intros k Hk. unfold cfun.
           eqb_cases; try lia; lra.
      * apply rsum_zero. intros u Hu. apply rsum_zero. intros k Hk.
        unfold cfun. eqb_cases; try lia; lra.
Qed.

End DenseProduct.

(* ================================================================== *)
(** * Definiteness and symmetry, dense and by blocks *)

Section DenseBlocks.
Variable d : nat.
Hypothesis d_pos : (0 < d)%nat.

Lemma quad_expand_flatten Ds Ls xs :
  length xs = length Ds ->
  quad (length Ds * d) (expand_tridiag d Ds Ls) (flatten d xs) = bquad d Ds Ls xs.
Proof.
  intros Hlen. rewrite quad_dquad. rewrite <- (dquad_bquad d d_pos Ds Ls xs Hlen).
  apply dquad_ext.
  - intros I J HI HJ. now apply mget_expand_tridiag.
  - intros I HI. apply vnth_flatten. now rewrite Hlen.
Qed.

Lemma wf_flatten xs : wf_vec (length xs * d) (flatten d xs).
Proof. apply wf_mkvec. Qed.

Lemma flatten_chunks T X :
  wf_vec (T * d) X -> flatten d (chunks d T X) = X.
Proof.
  intros HX. rewrite (wf_vec_eta _ _ HX) at 2. unfold flatten, chunks.
  rewrite length_map, length_seq. apply mkvec_ext. intros I HI.
  unfold block_entry.
  assert (Ht : (I / d < T)%nat) by now apply index_div_lt.
  rewrite (nth_indep _ [] (chunk d X 0)) by now rewrite length_map, length_seq.
  rewrite (map_nth (chunk d X)), seq_nth by assumption. simpl.
  unfold chunk. rewrite vnth_mkvec by now apply index_mod_lt.
  f_equal. rewrite (Nat.div_mod_eq I d) at 3. lia.
Qed.

Lemma length_chunks T X : length (chunks d T X) = T.
Proof. unfold chunks. now rewrite length_map, length_seq. Qed.

Lemma wf_chunks T X : Forall (wf_vec d) (chunks d T X).
Proof.
  apply Forall_forall. intros x Hx. unfold chunks in Hx.
  apply in_map_iff in Hx. destruct Hx as [t [<- _]]. apply wf_mkvec.
Qed.

Lemma flatten_zero xs :
  Forall (fun x => x = vzero d) xs -> flatten d xs = vzero (length xs * d).
Proof.
  intros H. unfold flatten, vzero. apply mkvec_ext. intros I HI.
  unfold block_entry.
  assert (Ht : (I / d < length xs)%nat) by now apply index_div_lt.
  rewrite Forall_forall in H. rewrite (H (nth (I / d) xs [])).
  - apply vnth_vzero.
  - now apply nth_In.
Qed.

Lemma vec_eq_dec (x y : vec) : {x = y} + {x <> y}.
Proof. apply list_eq_dec. apply Req_EM_T. Qed.

(** A block vector with a non-zero block is a non-zero dense vector. *)
Lemma flatten_nonzero xs :
  Forall (wf_vec d) xs -> Exists (fun x => x <> vzero d) xs ->
  flatten d xs <> vzero (length xs * d).
Proof.
  intros Hwf Hex Heq.
  apply Exists_exists in Hex. destruct Hex as [x [Hin Hne]].
  apply Hne. apply (In_nth _ _ []) in Hin. destruct Hin as [t [Ht Hx]].
  assert (Hwx : wf_vec d x).
  { rewrite Forall_forall in Hwf. apply Hwf. rewrite <- Hx. now apply nth_In. }
  apply (vec_ext d _ _ Hwx (wf_vzero d)). intros i Hi.
  rewrite vnth_vzero.
  assert (HI : (t * d + i < length xs * d)%nat) by now apply block_index_lt.
  apply (f_equal (fun v => vnth v (t * d + i))) in Heq.
  rewrite vnth_flatten, vnth_vzero in Heq by assumption.
  unfold block_entry in Heq.
  rewrite block_div, block_mod in Heq by assumption. now rewrite Hx in Heq.
Qed.

(** A non-zero dense vector has a non-zero block. *)
Lemma chunks_nonzero T X :
  wf_vec (T * d) X -> X <> vzero (T * d) ->
  Exists (fun x => x <> vzero d) (chunks d T X).
Proof.
  intros HX Hne.
  destruct (Forall_Exists_dec (fun x => x = vzero d)
              (fun x => vec_eq_dec x (vzero d)) (chunks d T X)) as [Hall|Hex].
  - exfalso. apply Hne. rewrite <- (flatten_chunks T X HX).
    rewrite (flatten_zero _ Hall). now rewrite length_chunks.
  - exact Hex.
Qed.

(** Positive definiteness of the dense operand is that of its blocks. *)
Lemma posdef_dense_block Ds Ls :
  posdef (length Ds * d) (expand_tridiag d Ds Ls) -> block_posdef d Ds Ls.
Proof.
  intros H xs Hlen Hwf Hex.
  rewrite <- (quad_expand_flatten Ds Ls xs Hlen). apply H.
  - rewrite <- Hlen. apply wf_flatten.
  - rewrite <- Hlen. now apply flatten_nonzero.
Qed.

Lemma posdef_block_dense Ds Ls :
  block_posdef d Ds Ls -> posdef (length Ds * d) (expand_tridiag d Ds Ls).
Proof.
  intros H X HX Hne.
  rewrite <- (flatten_chunks (length Ds) X HX).
  rewrite quad_expand_flatten by apply length_chunks.
  apply H.
  - apply length_chunks.
  - apply wf_chunks.
  - now apply chunks_nonzero.
Qed.

Lemma tridiag_entry_diag Ds Ls t i j :
  (i < d)%nat -> (j < d)%nat ->
  tridiag_entry d Ds Ls (t * d + i) (t * d + j) = mget (nth t Ds []) i j.
Proof.
  intros Hi Hj. unfold tridiag_entry.
  rewrite !block_div, !block_mod by assumption. now rewrite Nat.eqb_refl.
Qed.

(** The diagonal blocks of a symmetric dense operand are symmetric. *)
Lemma symmetric_dense_block Ds Ls :
  Forall (wf_mat d) Ds ->
  symmetric (length Ds * d) (expand_tridiag d Ds Ls) ->
  Forall (symmetric d) Ds.
Proof.
  intros Hwf Hsym. apply Forall_forall. intros D HD.
  assert (HwD : wf_mat d D) by (rewrite Forall_forall in Hwf; now apply Hwf).
  apply (In_nth _ _ []) in HD. destruct HD as [t [Ht HD]].
  apply (mat_ext d); [apply wf_transpose | assumption |].
  intros i j Hi Hj. rewrite mget_transpose by assumption.
  rewrite <- HD. rewrite <- !(tridiag_entry_diag Ds Ls t) by assumption.
  assert (HI : (t * d + i < length Ds * d)%nat) by now apply block_index_lt.
  assert (HJ : (t * d + j < length Ds * d)%nat) by now apply block_index_lt.
  rewrite <- !mget_expand_tridiag by assumption.
  apply (symmetric_mget (length Ds * d)); assumption.
Qed.

(** Conversely the dense operand is symmetric when its diagonal blocks
    are: the blocks above the diagonal are the transposes of those below. *)
Lemma symmetric_block_dense Ds Ls :
  Forall (symmetric d) Ds ->
  symmetric (length Ds * d) (expand_tridiag d Ds Ls).
Proof.
  intros Hsym. unfold symmetric, transpose. unfold expand_tridiag at 2.
  apply mkmat_ext. intros I J HI HJ.
  rewrite mget_expand_tridiag by assumption.
  fold (tridiag_entry d Ds Ls I J). unfold tridiag_entry.
  assert (Hi : (I mod d < d)%nat) by now apply index_mod_lt.
  assert (Hj : (J mod d < d)%nat) by now apply index_mod_lt.
  assert (Ht : (I / d < length Ds)%nat) by now apply index_div_lt.
  set (t := (I / d)%nat) in *. set (s := (J / d)%nat).
  set (i := (I mod d)%nat) in *. set (j := (J mod d)%nat) in *. cbv zeta.
  destruct (Nat.eqb_spec s t) as [Hst|Hst].
  - rewrite Hst, Nat.eqb_refl.
    apply (symmetric_mget d); try assumption.
    rewrite Forall_forall in Hsym. apply Hsym. now apply nth_In.
  - destruct (Nat.eqb_spec t s) as [Hbad|_]; [congruence|].
    destruct (Nat.eqb_spec s (S t)), (Nat.eqb_spec t (S s)); try lia; reflexivity.
Qed.

End DenseBlocks.

(* ================================================================== *)
(** * The kernels in one dimension meet their contracts *)

Lemma wf_vec_1 x : wf_vec 1 x -> exists a, x = [a].
Proof.
  intros H. destruct x as [|a [|b x]]; try discriminate. now exists a.
Qed.

Lemma wf_mat_1 M : wf_mat 1 M -> exists m, M = [[m]].
Proof.
  intros [Hlen Hrows]. destruct M as [|row [|row' M]]; try discriminate.
  inversion Hrows as [|? ? Hrow _]; subst.
  destruct (wf_vec_1 row Hrow) as [m ->]. now exists m.
Qed.

Lemma spd_1_positive m : spd 1 [[m]] -> 0 < m.
Proof.
  intros (_ & _ & Hpd).
  assert (H : 0 < quad 1 [[m]] [1]).
  { apply Hpd; [reflexivity|]. cbv. intros H. injection H as H. lra. }
  cbv in H. lra.
Qed.

Lemma chol_factor_1_positive c : chol_factor 1 [[c]] -> 0 < c.
Proof. intros (_ & _ & Hpos). apply (Hpos 0%nat). lia. Qed.

Lemma scalar_cholesky_ok : cholesky_contract 1 Scalar.cholesky.
Proof.
  intros M HM. destruct (wf_mat_1 M (proj1 HM)) as [m ->].
  pose proof (spd_1_positive m HM) as Hm.
  exists [[sqrt m]]. split; [|split].
  - unfold Scalar.cholesky. cbn [mget nth].
    destruct (Rlt_dec 0 m) as [_|Hn]; [reflexivity|contradiction].
  - split; [repeat constructor|]. split.
    + intros i j Hij Hj. lia.
    + intros i Hi. replace i with 0%nat by lia. cbn. now apply sqrt_lt_R0.
  - cbv [matmul transpose mkmat mkvec map seq rsum mget nth].
    rewrite Rplus_0_l, sqrt_sqrt by lra. reflexivity.
Qed.

Lemma scalar_triangular_solve_ok :
  triangular_solve_contract 1 Scalar.triangular_solve.
Proof.
  intros C b adjoint HC Hb.
  destruct (wf_mat_1 C (proj1 HC)) as [c ->].
  destruct (wf_vec_1 b Hb) as [b0 ->].
  pose proof (chol_factor_1_positive c HC) as Hc.
  split; [reflexivity|].
  destruct adjoint;
    cbv [Scalar.triangular_solve mv transpose mkmat mkvec map seq rsum mget
         vnth nth];
    f_equal; field; lra.
Qed.

Lemma scalar_matrix_inverse_ok : matrix_inverse_contract 1 Scalar.matrix_inverse.
Proof.
  intros M HM. destruct (wf_mat_1 M (proj1 HM)) as [m ->].
  pose proof (spd_1_positive m HM) as Hm.
  split; [repeat constructor|].
  split;
    cbv [Scalar.matrix_inverse Scalar.m1 matmul eye mkmat mkvec map seq rsum
         mget nth Nat.eqb];
    do 2 f_equal; field; lra.
Qed.

(* ================================================================== *)
(** * The block Cholesky factorization reconstructs its operand *)

Lemma Forall_nth_lt (A : Type) (P : A -> Prop) (xs : list A) (dflt : A) :
  (forall t, (t < length xs)%nat -> P (nth t xs dflt)) -> Forall P xs.
Proof.
  intros H. apply Forall_forall. intros x Hx.
  apply (In_nth _ _ dflt) in Hx. destruct Hx as [t [Ht <-]]. now apply H.
Qed.

(** C3.  With [tf.cholesky] and [tf.matrix_triangular_solve] meeting their
    contracts, the block factorization of a symmetric positive definite
    block-tridiagonal operand ([T >= 1] diagonal blocks, [T - 1]
    sub-diagonal blocks, all [d x d], [d >= 1]) succeeds; it returns [T]
    lower-triangular blocks [C_t] and [T - 1] blocks [E_t], and the dense
    [(T d) x (T d)] block-bidiagonal factor times its transpose is the
    dense operand. *)
Theorem C3_block_cholesky_reconstructs (d : nat)
        (cholesky : mat -> result mat)
        (triangular_solve : mat -> vec -> bool -> vec)
        (Ds Ls : list mat) :
  cholesky_contract d cholesky ->
  triangular_solve_contract d triangular_solve ->
  (0 < d)%nat -> (0 < length Ds)%nat -> S (length Ls) = length Ds ->
  Forall (wf_mat d) Ds -> Forall (wf_mat d) Ls ->
  spd (length Ds * d) (expand_tridiag d Ds Ls) ->
  exists Cs Es,
    CholUtils.blk_tridiag_chol d cholesky triangular_solve Ds Ls = Ok (Cs, Es) /\
    length Cs = length Ds /\ length Es = length Ls /\
    Forall (fun C => wf_mat d C /\ lower_triangular d C) Cs /\
    let n := (length Ds * d)%nat in
    matmul n (expand_bidiag d Cs Es) (transpose n (expand_bidiag d Cs Es))
    = expand_tridiag d Ds Ls.
Proof.
  intros Hchol Hsolve Hd HT Hlen HwD HwL (_ & Hsym & Hpd).
  destruct (blk_tridiag_chol_ok d cholesky triangular_solve Hchol Hsolve Ds Ls)
    as (Cs & Es & Hrun & Hfac); try assumption.
  - now apply (symmetric_dense_block d Hd Ds Ls).
  - now apply posdef_dense_block.
  - exists Cs, Es.
    destruct (block_factor_facts d Ds Ls Cs Es Hfac)
      as (HlenC & HlenE & HC & _).
    split; [exact Hrun|]. split; [exact HlenC|]. split; [lia|].
    split.
    + apply (Forall_nth_lt _ _ _ []). intros t Ht.
      rewrite HlenC in Ht. destruct (HC t Ht) as (Hw & Hl & _). now split.
    + now apply dense_product.
Qed.

Lemma scalar_vec_nonzero a : [a] <> vzero 1 -> a <> 0.
Proof. intros H Ha. apply H. subst a. reflexivity. Qed.

Lemma operand_spd :
  spd (length Scalar.operand_diag * 1)
      (expand_tridiag 1 Scalar.operand_diag Scalar.operand_lower).
Proof.
  split; [apply wf_mkmat|]. split.
  - apply symmetric_block_dense; [lia|]. repeat constructor.
  - apply posdef_block_dense; [lia|].
    intros xs Hlen Hwf Hex.
    destruct xs as [|x [|y [|z xs]]]; try discriminate.
    inversion Hwf as [|? ? Hx Hwf']; subst.
    inversion Hwf' as [|? ? Hy _]; subst.
    destruct (wf_vec_1 x Hx) as [a ->]. destruct (wf_vec_1 y Hy) as [b ->].
    assert (Hab : a <> 0 \/ b <> 0).
    { inversion Hex as [? ? H|? ? H]; subst.
      - left. now apply scalar_vec_nonzero.
      - inversion H as [? ? H'|? ? H']; subst.
        + right. now apply scalar_vec_nonzero.
        + inversion H'. }
    cbv [bquad cross quad dot mv Scalar.operand_diag Scalar.operand_lower
         mkvec map seq rsum mget vnth nth tl].
    match goal with
    | |- 0 < ?e => replace e with ((a - b) * (a - b) + b * b) by ring
    end.
    pose proof (Rle_0_sqr (a - b)) as Hsq. unfold Rsqr in Hsq.
    destruct (Req_dec b 0) as [Hb0|Hb0].
    + subst b. destruct Hab as [Ha|Hb]; [|contradiction].
      rewrite Rminus_0_r. pose proof (Rsqr_pos_lt a Ha) as Hp.
      unfold Rsqr in Hp. lra.
    + pose proof (Rsqr_pos_lt b Hb0) as Hp. unfold Rsqr in Hp. lra.
Qed.

(** [C3_block_cholesky_reconstructs] on the operand [[1, -1], [-1, 2]],
    with the kernels of dimension one. *)
Lemma C3_witness :
  cholesky_contract 1 Scalar.cholesky /\
  triangular_solve_contract 1 Scalar.triangular_solve /\
  (0 < 1)%nat /\ (0 < length Scalar.operand_diag)%nat /\
  S (length Scalar.operand_lower) = length Scalar.operand_diag /\
  Forall (wf_mat 1) Scalar.operand_diag /\
  Forall (wf_mat 1) Scalar.operand_lower /\
  spd (length Scalar.operand_diag * 1)
      (expand_tridiag 1 Scalar.operand_diag Scalar.operand_lower) /\
  exists Cs Es,
    CholUtils.blk_tridiag_chol 1 Scalar.cholesky Scalar.triangular_solve
      Scalar.operand_diag Scalar.operand_lower = Ok (Cs, Es) /\
    matmul 2 (expand_bidiag 1 Cs Es) (transpose 2 (expand_bidiag 1 Cs Es))
    = expand_tridiag 1 Scalar.operand_diag Scalar.operand_lower.
Proof.
  assert (H1 : (0 < 1)%nat) by lia.
  assert (H2 : (0 < length Scalar.operand_diag)%nat) by (simpl; lia).
  assert (H3 : S (length Scalar.operand_lower) = length Scalar.operand_diag)
    by reflexivity.
  assert (H4 : Forall (wf_mat 1) Scalar.operand_diag)
    by (repeat constructor).
  assert (H5 : Forall (wf_mat 1) Scalar.operand_lower)
    by (repeat constructor).
  repeat (split; [first [exact scalar_cholesky_ok
                        | exact scalar_triangular_solve_ok
                        | exact operand_spd | assumption]|]).
  destruct (C3_block_cholesky_reconstructs 1 Scalar.cholesky
              Scalar.triangular_solve Scalar.operand_diag Scalar.operand_lower
              scalar_cholesky_ok scalar_triangular_solve_ok
              H1 H2 H3 H4 H5 operand_spd)
    as (Cs & Es & Hrun & _ & _ & _ & Hprod).
  exists Cs, Es. split; [exact Hrun|exact Hprod].
Defined.

(* ================================================================== *)
(** * The assembled operand is symmetric positive definite *)

Section Inverse.
Variable d : nat.
Variable matrix_inverse : mat -> mat.
Hypothesis inverse_ok : matrix_inverse_contract d matrix_inverse.

(** The inverse of a symmetric positive definite matrix is one. *)
Lemma spd_inverse M : spd d M -> spd d (matrix_inverse M).
Proof.
  intros HM. destruct (inverse_ok M HM) as (Hwf & Hr & Hl).
  destruct HM as (HwM & HsM & HpM).
  set (N := matrix_inverse M) in *.
  assert (HsN : symmetric d N).
  { unfold symmetric.
    rewrite <- (matmul_eye_r d (transpose d N)) by apply wf_transpose.
    rewrite <- Hr, <- matmul_assoc.
    rewrite <- HsM at 1. rewrite <- transpose_matmul, Hr, transpose_eye.
    now apply matmul_eye_l. }
  split; [exact Hwf|]. split; [exact HsN|].
  intros x Hx Hne.
  set (y := mv d N x).
  assert (HMy : mv d M y = x).
  { unfold y. rewrite <- mv_matmul, Hr. now apply mv_eye. }
  assert (Hy : y <> vzero d).
  { intros Hy0. apply Hne. rewrite <- HMy, Hy0. apply mv_vzero. }
  assert (Hq : quad d N x = quad d M y).
  { unfold quad. rewrite HMy. fold y. apply dot_comm. }
  rewrite Hq. apply HpM; [apply wf_mv|exact Hy].
Qed.

End Inverse.

Section StaticOperand.
Variable d : nat.
Variable A : mat.

Lemma dot_mv_mneg X x y : dot d x (mv d (mneg d X) y) = - dot d x (mv d X y).
Proof.
  unfold dot. rewrite <- rsum_opp. apply rsum_ext. intros i Hi.
  rewrite !vnth_mv by assumption.
  rewrite (rsum_ext d (fun j => mget (mneg d X) i j * vnth y j)
                    (fun j => - (mget X i j * vnth y j))).
  - rewrite rsum_opp. lra.
  - intros j Hj. rewrite mget_mneg by assumption. lra.
Qed.

(** Completing the square: the first block [P], the coupling [-A P] and
    the term [A P A^T] of the second block make [P] at [x - A^T x']. *)
Lemma complete_square P x x' :
  symmetric d P ->
  quad d P x + 2 * dot d x' (mv d (matmul d (mneg d A) P) x)
  + quad d (matmul d (matmul d A P) (transpose d A)) x'
  = quad d P (vsub d x (mv d (transpose d A) x')).
Proof.
  intros HP. set (w := mv d (transpose d A) x').
  assert (H1 : dot d x' (mv d (matmul d (mneg d A) P) x) = - dot d w (mv d P x)).
  { rewrite mv_matmul, dot_mv_mneg, dot_mv_transpose. reflexivity. }
  assert (H2 : quad d (matmul d (matmul d A P) (transpose d A)) x' = quad d P w).
  { unfold quad. rewrite mv_matmul, mv_matmul, dot_mv_transpose. reflexivity. }
  assert (H3 : quad d P (vsub d x w)
               = quad d P x - 2 * dot d w (mv d P x) + quad d P w).
  { unfold quad. rewrite mv_vsub, dot_vsub_l, !dot_vsub_r.
    rewrite (dot_mv_symmetric d P x w HP), (dot_comm d (mv d P x) w). lra. }
  rewrite H1, H2, H3. lra.
Qed.

(** One step of the chain: the quadratic form of an operand that starts
    with [P], [A P A^T + X] and the coupling [-A P]. *)
Lemma chain_step P X Ds' Ls' x x' xs' :
  symmetric d P ->
  bquad d (P :: madd d (matmul d (matmul d A P) (transpose d A)) X :: Ds')
        (matmul d (mneg d A) P :: Ls') (x :: x' :: xs')
  = quad d P (vsub d x (mv d (transpose d A) x'))
    + bquad d (X :: Ds') Ls' (x' :: xs').
Proof.
  intros HP. rewrite <- (complete_square P x x' HP).
  cbn [bquad cross tl]. rewrite quad_madd. lra.
Qed.

Variable Qinv : mat.
Hypothesis Qinv_spd : spd d Qinv.

Lemma posdef_nonneg P x : posdef d P -> wf_vec d x -> 0 <= quad d P x.
Proof.
  intros HP Hx. destruct (vec_eq_dec x (vzero d)) as [->|Hne].
  - rewrite quad_vzero. lra.
  - apply Rlt_le. now apply HP.
Qed.

Lemma posdef_zero P x : posdef d P -> wf_vec d x -> quad d P x = 0 -> x = vzero d.
Proof.
  intros HP Hx Hq. destruct (vec_eq_dec x (vzero d)) as [H|Hne]; [exact H|].
  pose proof (HP x Hx Hne). lra.
Qed.

Let M : mat := madd d (matmul d (matmul d A Qinv) (transpose d A)) Qinv.
Let N : mat := matmul d (mneg d A) Qinv.

(** The chain of [k + 1] blocks that starts with [Qinv]: its quadratic form
    is non-negative, and vanishes only at zero. *)
Lemma chain_definite k :
  forall xs, length xs = S k -> Forall (wf_vec d) xs ->
    0 <= bquad d (Qinv :: repeat M k) (repeat N k) xs /\
    (bquad d (Qinv :: repeat M k) (repeat N k) xs = 0 ->
     Forall (fun x => x = vzero d) xs).
Proof.
  destruct Qinv_spd as (_ & Hsym & Hpd).
  induction k as [|k IH]; intros xs Hlen Hwf.
  - destruct xs as [|x [|y xs]]; try discriminate.
    inversion Hwf as [|? ? Hx _]; subst.
    cbn [repeat bquad cross tl].
    pose proof (posdef_nonneg Qinv x Hpd Hx). split; [lra|].
    intros H0. constructor; [|constructor].
    apply (posdef_zero Qinv x Hpd Hx). lra.
  - destruct xs as [|x [|x' xs']]; try discriminate.
    inversion Hwf as [|? ? Hx Hwf']; subst.
    cbn [repeat].
    assert (Heq : bquad d (Qinv :: M :: repeat M k) (N :: repeat N k)
                        (x :: x' :: xs')
                  = quad d Qinv (vsub d x (mv d (transpose d A) x'))
                    + bquad d (Qinv :: repeat M k) (repeat N k) (x' :: xs'))
      by (unfold M at 1, N at 1; now apply chain_step).
    rewrite Heq.
    destruct (IH (x' :: xs')) as [Hge Hzero]; [simpl in *; lia|assumption|].
    pose proof (posdef_nonneg Qinv _ Hpd
                  (wf_vsub d x (mv d (transpose d A) x'))) as Hq.
    split; [lra|]. intros H0.
    assert (Hz : Forall (fun x => x = vzero d) (x' :: xs')) by (apply Hzero; lra).
    constructor; [|exact Hz].
    inversion Hz as [|? ? Hx' _]; subst.
    assert (Hv : vsub d x (mv d (transpose d A) (vzero d)) = vzero d).
    { apply (posdef_zero Qinv _ Hpd (wf_vsub d _ _)). lra. }
    rewrite mv_vzero, vsub_vzero_r in Hv by assumption. exact Hv.
Qed.

Variable Q0inv : mat.
Hypothesis Q0inv_spd : spd d Q0inv.

(** The static operand of [k + 2] blocks is positive definite. *)
Lemma static_block_posdef k :
  block_posdef d
    (Q0inv :: madd d (matmul d (matmul d A Q0inv) (transpose d A)) Qinv
           :: repeat M k)
    (matmul d (mneg d A) Q0inv :: repeat N k).
Proof.
  destruct Q0inv_spd as (_ & Hsym0 & Hpd0).
  intros xs Hlen Hwf Hex.
  destruct xs as [|x [|x' xs']]; try discriminate.
  inversion Hwf as [|? ? Hx Hwf']; subst.
  rewrite chain_step by assumption.
  destruct (chain_definite k (x' :: xs')) as [Hge Hzero];
    [simpl in *; rewrite repeat_length in Hlen; lia|assumption|].
  pose proof (posdef_nonneg Q0inv _ Hpd0
                (wf_vsub d x (mv d (transpose d A) x'))) as Hq.
  match goal with |- 0 < ?a + ?b => destruct (Rle_lt_dec (a + b) 0) as [Hle|Hlt] end;
    [exfalso|exact Hlt].
  assert (Hz : Forall (fun x => x = vzero d) (x' :: xs')) by (apply Hzero; lra).
  assert (Hx0 : x = vzero d).
  { inversion Hz as [|? ? Hx' _]; subst.
    assert (Hv : vsub d x (mv d (transpose d A) (vzero d)) = vzero d).
    { apply (posdef_zero Q0inv _ Hpd0 (wf_vsub d _ _)). lra. }
    rewrite mv_vzero, vsub_vzero_r in Hv by assumption. exact Hv. }
  apply Exists_exists in Hex. destruct Hex as [y [Hin Hne]].
  apply Hne. destruct Hin as [<-|Hin]; [exact Hx0|].
  rewrite Forall_forall in Hz. now apply Hz.
Qed.

End StaticOperand.

Section DataTerm.
Variable d : nat.

Lemma bquad_zip_madd Ds :
  forall Cs Ls xs, length Cs = length Ds ->
    bquad d (zip_with (madd d) Ds Cs) Ls xs = bquad d Ds Ls xs + bquad d Cs [] xs.
Proof.
  induction Ds as [|D Ds IH]; intros Cs Ls xs Hlen.
  - destruct Cs; [simpl; lra|discriminate].
  - destruct Cs as [|C Cs]; [discriminate|]. destruct xs as [|x xs]; [simpl; lra|].
    cbn [zip_with bquad tl]. rewrite IH by (simpl in Hlen; lia).
    rewrite quad_madd. unfold cross at 3. lra.
Qed.

Lemma bquad_diag_nonneg Cs :
  forall xs, Forall (possemidef d) Cs -> Forall (wf_vec d) xs ->
    0 <= bquad d Cs [] xs.
Proof.
  induction Cs as [|C Cs IH]; intros xs HC Hx; [simpl; lra|].
  destruct xs as [|x xs]; [simpl; lra|].
  inversion HC as [|? ? HC1 HC']; subst. inversion Hx as [|? ? Hx1 Hx']; subst.
  cbn [bquad tl]. unfold cross. pose proof (HC1 x Hx1). pose proof (IH xs HC' Hx').
  lra.
Qed.

(** Adding positive semidefinite terms to the diagonal blocks keeps a
    positive definite operand positive definite. *)
Lemma block_posdef_add Ds Ls Cs :
  block_posdef d Ds Ls -> length Cs = length Ds ->
  Forall (possemidef d) Cs ->
  block_posdef d (zip_with (madd d) Ds Cs) Ls.
Proof.
  intros Hpd Hlen HC xs Hlenx Hwf Hex.
  rewrite bquad_zip_madd by assumption.
  rewrite length_zip_with in Hlenx by congruence.
  pose proof (Hpd xs Hlenx Hwf Hex). pose proof (bquad_diag_nonneg Cs xs HC Hwf).
  lra.
Qed.

Lemma Forall_zip_with (X Y Z : Type) (P : Z -> Prop) (f : X -> Y -> Z) xs :
  forall ys, (forall x y, In x xs -> In y ys -> P (f x y)) ->
             Forall P (zip_with f xs ys).
Proof.
  induction xs as [|x xs IH]; intros ys H; [constructor|].
  destruct ys as [|y ys]; [constructor|]. simpl. constructor.
  - apply H; now left.
  - apply IH. intros x' y' Hx' Hy'. apply H; now right.
Qed.

Lemma spd_dim0 T Ds Ls : spd (T * 0) (expand_tridiag 0 Ds Ls).
Proof.
  rewrite Nat.mul_0_r. unfold expand_tridiag. rewrite Nat.mul_0_r.
  split; [repeat constructor|]. split; [reflexivity|].
  intros x Hx Hne. destruct x; [|discriminate]. now elim Hne.
Qed.

End DataTerm.

(** The operand assembled for one sequence, from symmetric positive
    definite [Q0inv], [Qinv] and symmetric positive semidefinite data
    terms. *)
Lemma assembled_sequence (self : SmoothingLDS.t) (A Q0inv Qinv : mat)
      (c : list mat) :
  let d := SmoothingLDS.dim_latent self in
  let T := SmoothingLDS.num_time_pts self in
  (2 <= T)%nat -> spd d Q0inv -> spd d Qinv ->
  length c = T -> Forall (fun c => symmetric d c /\ possemidef d c) c ->
  let Ds := zip_with (madd d) (static_blocks self A Q0inv Qinv) c in
  let Ls := static_lower self A Q0inv Qinv in
  length Ds = T /\ S (length Ls) = T /\
  Forall (symmetric d) Ds /\ Forall (wf_mat d) Ls /\ block_posdef d Ds Ls.
Proof.
  intros d T HT HQ0inv HQinv Hlenc Hcs Ds Ls.
  assert (Hlens : length (static_blocks self A Q0inv Qinv) = T)
    by now apply length_static_blocks.
  split; [unfold Ds; rewrite length_zip_with; congruence|].
  split; [unfold Ls; rewrite length_static_lower; unfold T in *; lia|].
  split; [|split].
  - unfold Ds. apply Forall_zip_with. intros x y Hx Hy.
    apply madd_symmetric.
    + unfold static_blocks in Hx. destruct Hx as [<-|[<-|Hx]].
      * apply HQ0inv.
      * apply madd_symmetric; [apply congruence_symmetric|]; [apply HQ0inv|apply HQinv].
      * apply repeat_spec in Hx. subst x.
        apply madd_symmetric; [apply congruence_symmetric|]; apply HQinv.
    + rewrite Forall_forall in Hcs. now apply Hcs.
  - unfold Ls, static_lower. constructor; [apply wf_matmul|].
    apply Forall_forall. intros x Hx. apply repeat_spec in Hx. subst x.
    apply wf_matmul.
  - unfold Ds. apply block_posdef_add.
    + apply static_block_posdef; assumption.
    + congruence.
    + apply Forall_forall. intros y Hy. rewrite Forall_forall in Hcs.
      now apply Hcs.
Qed.

Lemma data_terms_psd (self : SmoothingLDS.t) (r_psi_sqrt : list (list mat)) :
  let d := SmoothingLDS.dim_latent self in
  Forall (Forall (fun c => symmetric d c /\ possemidef d c))
         (SmoothingLDS.c_psi_inv self r_psi_sqrt).
Proof.
  intros d. unfold SmoothingLDS.c_psi_inv. apply Forall_forall. intros cs Hcs.
  apply in_map_iff in Hcs. destruct Hcs as [rs [<- _]].
  apply Forall_forall. intros c Hc. apply in_map_iff in Hc.
  destruct Hc as [r [<- _]]. split.
  - apply gram_symmetric.
  - apply gram_possemidef.
Qed.

(** C6.  With [Qinv] and [Q0inv] the inverses of symmetric positive
    definite [Q] and [Q0], and whatever the encoder output [r_psi_sqrt]
    (sequences of [T >= 2] steps), every data term [r r^T] is symmetric
    positive semidefinite, the operand is assembled, and for every
    sequence of the batch its dense [(T d) x (T d)] matrix is symmetric
    positive definite. *)
Theorem C6_assembled_operand_spd (matrix_inverse : mat -> mat)
        (self : SmoothingLDS.t) (A Q Q0 : mat) (r_psi_sqrt : list (list mat)) :
  let d := SmoothingLDS.dim_latent self in
  let T := SmoothingLDS.num_time_pts self in
  matrix_inverse_contract d matrix_inverse ->
  (2 <= T)%nat -> spd d Q -> spd d Q0 ->
  Forall (fun r => length r = T) r_psi_sqrt ->
  let Qinv := matrix_inverse Q in
  let Q0inv := matrix_inverse Q0 in
  Forall (Forall (fun c => symmetric d c /\ possemidef d c))
         (SmoothingLDS.c_psi_inv self r_psi_sqrt) /\
  exists Dss Ls,
    SmoothingLDS.Sinv_diag self A Q0inv Qinv r_psi_sqrt = Ok Dss /\
    SmoothingLDS.Sinv_ldiag0 self A Q0inv Qinv = Ok Ls /\
    length Dss = length r_psi_sqrt /\
    Forall (fun Ds => spd (T * d) (expand_tridiag d Ds Ls)) Dss.
Proof.
  intros d T Hinv HT HQ HQ0 Hr Qinv Q0inv.
  pose proof (data_terms_psd self r_psi_sqrt) as Hdata.
  split; [exact Hdata|].
  exists (map (fun c => zip_with (madd d) (static_blocks self A Q0inv Qinv) c)
              (SmoothingLDS.c_psi_inv self r_psi_sqrt)),
         (static_lower self A Q0inv Qinv).
  split; [now apply Sinv_diag_ok|]. split; [now apply Sinv_ldiag0_ok|].
  split; [unfold SmoothingLDS.c_psi_inv; now rewrite !length_map|].
  apply Forall_forall. intros Ds HDs. apply in_map_iff in HDs.
  destruct HDs as [c [<- Hc]].
  destruct (Nat.eq_dec d 0) as [Hd0|Hd0]; [rewrite Hd0; apply spd_dim0|].
  assert (Hd : (0 < d)%nat) by lia.
  pose proof (spd_inverse d matrix_inverse Hinv Q HQ) as HQinv.
  pose proof (spd_inverse d matrix_inverse Hinv Q0 HQ0) as HQ0inv.
  assert (Hcs : Forall (fun c => symmetric d c /\ possemidef d c) c).
  { rewrite Forall_forall in Hdata. now apply Hdata. }
  assert (Hlenc : length c = T).
  { unfold SmoothingLDS.c_psi_inv in Hc. apply in_map_iff in Hc.
    destruct Hc as [r [<- Hin]]. rewrite length_map.
    rewrite Forall_forall in Hr. now apply Hr. }
  destruct (assembled_sequence self A Q0inv Qinv c HT HQ0inv HQinv Hlenc Hcs)
    as (HlenD & _ & Hsym & _ & Hpd).
  unfold T. rewrite <- HlenD.
  split; [apply wf_mkmat|]. split.
  - now apply symmetric_block_dense.
  - now apply posdef_block_dense.
Qed.

(* ================================================================== *)
(** * The block substitutions solve the two triangular systems *)

Section Substitution.
Variable d : nat.
Variable triangular_solve : mat -> vec -> bool -> vec.
Hypothesis solve_ok : triangular_solve_contract d triangular_solve.

Lemma forward_rec_facts Cs :
  forall Es Bs Xprev,
    length Es = length Cs -> length Bs = length Cs ->
    Forall (chol_factor d) Cs -> Forall (wf_vec d) Bs ->
    let Xs := CholUtils.forward_rec d triangular_solve Xprev Cs Es Bs in
    length Xs = length Cs /\
    forall t, (t < length Cs)%nat ->
      wf_vec d (nth t Xs []) /\
      mv d (nth t Cs []) (nth t Xs [])
      = vsub d (nth t Bs []) (mv d (nth t Es []) (nth t (Xprev :: Xs) [])).
Proof.
  induction Cs as [|C Cs IH]; intros Es Bs Xprev HlenE HlenB HC HB.
  - simpl. split; [reflexivity|]. intros t Ht. lia.
  - destruct Es as [|E Es]; [discriminate|]. destruct Bs as [|B Bs]; [discriminate|].
    inversion HC as [|? ? HC1 HC']; subst. inversion HB as [|? ? HB1 HB']; subst.
    cbn [CholUtils.forward_rec].
    set (X := triangular_solve C (vsub d B (mv d E Xprev)) false).
    destruct (solve_ok C (vsub d B (mv d E Xprev)) false HC1 (wf_vsub d _ _))
      as [HwX HX].
    destruct (IH Es Bs X) as [Hlen Hfacts]; try assumption;
      try (simpl in *; lia).
    cbv zeta. split; [simpl; now rewrite Hlen|].
    intros [|t] Ht.
    + cbn [nth]. split; [exact HwX|exact HX].
    + cbn [nth]. apply Hfacts. simpl in Ht. lia.
Qed.

(** Forward substitution: [C_1 X_1 = B_1] and
    [C_(t+1) X_(t+1) = B_(t+1) - E_t X_t]. *)
Lemma forward_subst_facts Cs Es Bs :
  S (length Es) = length Cs -> length Bs = length Cs ->
  Forall (chol_factor d) Cs -> Forall (wf_vec d) Bs ->
  let Xs := CholUtils.forward_subst d triangular_solve Cs Es Bs in
  length Xs = length Cs /\
  (forall t, (t < length Cs)%nat -> wf_vec d (nth t Xs [])) /\
  mv d (nth 0 Cs []) (nth 0 Xs []) = nth 0 Bs [] /\
  (forall t, (S t < length Cs)%nat ->
     mv d (nth (S t) Cs []) (nth (S t) Xs [])
     = vsub d (nth (S t) Bs []) (mv d (nth t Es []) (nth t Xs []))).
Proof.
  intros HlenE HlenB HC HB.
  destruct Cs as [|C1 Cs]; [discriminate|]. destruct Bs as [|B1 Bs]; [discriminate|].
  inversion HC as [|? ? HC1 HC']; subst. inversion HB as [|? ? HB1 HB']; subst.
  cbn [CholUtils.forward_subst].
  set (X1 := triangular_solve C1 B1 false).
  destruct (solve_ok C1 B1 false HC1 HB1) as [HwX HX].
  destruct (forward_rec_facts Cs Es Bs X1) as [Hlen Hfacts]; try assumption;
    try (simpl in *; lia).
  cbv zeta. split; [simpl; now rewrite Hlen|]. split.
  { intros [|t] Ht; [exact HwX|]. cbn [nth]. apply Hfacts. simpl in Ht. lia. }
  split; [exact HX|].
  intros t Ht. cbn [nth]. apply (Hfacts t). simpl in Ht. lia.
Qed.

(** Backward substitution: [C_T^T X_T = B_T] and
    [C_t^T X_t = B_t - E_t^T X_(t+1)]. *)
Lemma backward_subst_facts Cs :
  forall Es Bs,
    S (length Es) = length Cs -> length Bs = length Cs ->
    Forall (chol_factor d) Cs -> Forall (wf_vec d) Bs ->
    let Xs := CholUtils.backward_subst d triangular_solve Cs Es Bs in
    length Xs = length Cs /\
    (forall t, (t < length Cs)%nat -> wf_vec d (nth t Xs [])) /\
    (forall t, (t < length Cs)%nat ->
       mv d (transpose d (nth t Cs [])) (nth t Xs [])
       = if Nat.ltb (S t) (length Cs)
         then vsub d (nth t Bs [])
                   (mv d (transpose d (nth t Es [])) (nth (S t) Xs []))
         else nth t Bs []).
Proof.
  induction Cs as [|C Cs IH]; intros Es Bs HlenE HlenB HC HB; [discriminate|].
  destruct Bs as [|B Bs]; [discriminate|].
  inversion HC as [|? ? HC1 HC']; subst. inversion HB as [|? ? HB1 HB']; subst.
  destruct Es as [|E Es].
  - (* the last block *)
    destruct Cs; [|discriminate]. cbn [CholUtils.backward_subst].
    destruct (solve_ok C B true HC1 HB1) as [HwX HX]. cbv zeta.
    split; [reflexivity|]. split.
    + intros t Ht. simpl in Ht. replace t with 0%nat by lia. exact HwX.
    + intros t Ht. simpl in Ht. replace t with 0%nat by lia. exact HX.
  - cbn [CholUtils.backward_subst].
    destruct (IH Es Bs) as (Hlen & Hwf & Hfacts); try assumption;
      try (simpl in *; lia).
    set (Xs := CholUtils.backward_subst d triangular_solve Cs Es Bs) in *.
    assert (Hhd : hd (vzero d) Xs = nth 0 Xs []).
    { destruct Xs; [|reflexivity]. simpl in *. lia. }
    rewrite Hhd.
    destruct (solve_ok C (vsub d B (mv d (transpose d E) (nth 0 Xs []))) true
                HC1 (wf_vsub d _ _)) as [HwX HX].
    cbv zeta. split; [simpl; now rewrite Hlen|]. split.
    + intros [|t] Ht; [exact HwX|]. cbn [nth]. apply Hwf. simpl in Ht. lia.
    + intros [|t] Ht.
      * cbn [nth length].
        destruct (Nat.ltb_spec 1 (S (length Cs))) as [_|Hbad];
          [exact HX|simpl in *; lia].
      * cbn [nth length]. simpl in Ht. rewrite Hfacts by lia.
        destruct (Nat.ltb_spec (S t) (length Cs)),
                 (Nat.ltb_spec (S (S t)) (S (length Cs))); try lia; reflexivity.
Qed.

End Substitution.

(* ================================================================== *)
(** * The dense factor applied to a block vector *)

Section DenseSolve.
Variable d : nat.
Hypothesis d_pos : (0 < d)%nat.

Lemma block_entry_block xs u k :
  (k < d)%nat -> block_entry d xs (u * d + k) = vnth (nth u xs []) k.
Proof.
  intros Hk. unfold block_entry. now rewrite block_div, block_mod.
Qed.

Ltac eqb_split :=
  repeat match goal with
         | |- context [Nat.eqb ?a ?b] => destruct (Nat.eqb_spec a b)
         end.

(** Row [I] of the dense factor times a block vector: the diagonal block
    of the block row, and the sub-diagonal block on its left. *)
Lemma dense_bidiag_mv Cs Es xs I :
  length xs = length Cs -> (I < length Cs * d)%nat ->
  vnth (mv (length Cs * d) (expand_bidiag d Cs Es) (flatten d xs)) I
  = vnth (mv d (nth (I / d) Cs []) (nth (I / d) xs [])) (I mod d)
    + match (I / d)%nat with
      | O => 0
      | S t' => vnth (mv d (nth t' Es []) (nth t' xs [])) (I mod d)
      end.
Proof.
  intros Hlen HI. rewrite vnth_mv by assumption.
  rewrite (rsum_ext _ _ (fun K => bidiag_entry d Cs Es I K * block_entry d xs K)).
  2:{ intros K HK. rewrite mget_expand_bidiag, vnth_flatten;
        try assumption; try reflexivity. now rewrite Hlen. }
  rewrite rsum_blocks.
  assert (Ht : (I / d < length Cs)%nat) by now apply index_div_lt.
  assert (Hi : (I mod d < d)%nat) by now apply index_mod_lt.
  set (t := (I / d)%nat) in *. set (i := (I mod d)%nat) in *.
  rewrite (rsum_ext (length Cs) _
    (fun u => rsum d (fun k =>
       (if Nat.eqb t u then mget (nth t Cs []) i k
        else if Nat.eqb t (S u) then mget (nth u Es []) i k else 0)
       * vnth (nth u xs []) k))).
  2:{ intros u Hu. apply rsum_ext. intros k Hk.
      rewrite block_entry_block by assumption. unfold bidiag_entry.
      rewrite block_div, block_mod by assumption. reflexivity. }
  rewrite !vnth_mv by assumption.
  destruct t as [|t'].
  - rewrite (rsum_single _ _ 0%nat Ht).
    + cbn [Nat.eqb]. lra.
    + intros u Hu Hne. apply rsum_zero. intros k Hk. eqb_split; try lia; lra.
  - cbv iota. rewrite vnth_mv by assumption.
    rewrite (rsum_pair _ _ t' (S t')); try lia.
    + rewrite !Nat.eqb_refl.
      destruct (Nat.eqb_spec (S t') t') as [Hbad|_]; [lia|]. lra.
    + intros u Hu Hne1 Hne2. apply rsum_zero. intros k Hk.
      eqb_split; try lia; lra.
Qed.

(** Row [I] of the transposed dense factor times a block vector: the
    transposed diagonal block, and the transposed sub-diagonal block
    below it. *)
Lemma dense_bidiag_T_mv Cs Es xs I :
  length xs = length Cs -> (I < length Cs * d)%nat ->
  vnth (mv (length Cs * d)
           (transpose (length Cs * d) (expand_bidiag d Cs Es)) (flatten d xs)) I
  = vnth (mv d (transpose d (nth (I / d) Cs [])) (nth (I / d) xs [])) (I mod d)
    + (if Nat.ltb (S (I / d)) (length Cs)
       then vnth (mv d (transpose d (nth (I / d) Es []))
                     (nth (S (I / d)) xs [])) (I mod d)
       else 0).
Proof.
  intros Hlen HI. rewrite vnth_mv by assumption.
  rewrite (rsum_ext _ _ (fun K => bidiag_entry d Cs Es K I * block_entry d xs K)).
  2:{ intros K HK. rewrite mget_transpose by assumption.
      rewrite mget_expand_bidiag, vnth_flatten;
        try assumption; try reflexivity. now rewrite Hlen. }
  rewrite rsum_blocks.
  assert (Ht : (I / d < length Cs)%nat) by now apply index_div_lt.
  assert (Hi : (I mod d < d)%nat) by now apply index_mod_lt.
  set (t := (I / d)%nat) in *. set (i := (I mod d)%nat) in *.
  rewrite (rsum_ext (length Cs) _
    (fun u => rsum d (fun k =>
       (if Nat.eqb u t then mget (nth u Cs []) k i
        else if Nat.eqb u (S t) then mget (nth t Es []) k i else 0)
       * vnth (nth u xs []) k))).
  2:{ intros u Hu. apply rsum_ext. intros k Hk.
      rewrite block_entry_block by assumption. unfold bidiag_entry.
      rewrite block_div, block_mod by assumption. reflexivity. }
  rewrite !vnth_mv by assumption.
  assert (Hcol : forall X x,
            rsum d (fun j => mget (transpose d X) i j * vnth x j)
            = rsum d (fun k => mget X k i * vnth x k)).
  { intros X x. apply rsum_ext. intros k Hk. now rewrite mget_transpose. }
  rewrite !Hcol.
  destruct (Nat.ltb_spec (S t) (length Cs)) as [HSt|HSt].
  - rewrite (rsum_pair _ _ t (S t)); try lia.
    + rewrite !Nat.eqb_refl.
      destruct (Nat.eqb_spec (S t) t) as [Hbad|_]; [lia|]. lra.
    + intros u Hu Hne1 Hne2. apply rsum_zero. intros k Hk.
      eqb_split; try lia; lra.
  - rewrite (rsum_single _ _ t Ht).
    + rewrite Nat.eqb_refl. lra.
    + intros u Hu Hne. apply rsum_zero. intros k Hk. eqb_split; try lia; lra.
Qed.

End DenseSolve.

(* ================================================================== *)
(** * Forward then backward substitution solves the operand *)

Section BlockSolve.
Variable d : nat.
Hypothesis d_pos : (0 < d)%nat.
Variable triangular_solve : mat -> vec -> bool -> vec.
Hypothesis solve_ok : triangular_solve_contract d triangular_solve.

Lemma block_solve_dense Ds Ls Cs Es Bs :
  block_factor d Ds Ls Cs Es ->
  length Bs = length Ds -> Forall (wf_vec d) Bs ->
  let ys := CholUtils.forward_subst d triangular_solve Cs Es Bs in
  let xs := CholUtils.backward_subst d triangular_solve Cs Es ys in
  length xs = length Ds /\
  mv (length Ds * d) (expand_tridiag d Ds Ls) (flatten d xs) = flatten d Bs.
Proof.
  intros Hfac HlenB HwB ys xs.
  destruct (block_factor_facts d Ds Ls Cs Es Hfac)
    as (HlenC & HlenE & HCf & _).
  assert (HCs : Forall (chol_factor d) Cs).
  { apply (Forall_nth_lt _ _ _ []). intros t Ht. apply HCf. now rewrite <- HlenC. }
  destruct (forward_subst_facts d triangular_solve solve_ok Cs Es Bs)
    as (Hleny & Hwy & Hy0 & Hy); try assumption; try congruence.
  fold ys in Hleny, Hwy, Hy0, Hy.
  assert (Hwys : Forall (wf_vec d) ys).
  { apply (Forall_nth_lt _ _ _ []). intros t Ht. apply Hwy. now rewrite <- Hleny. }
  destruct (backward_subst_facts d triangular_solve solve_ok Cs Es ys)
    as (Hlenx & Hwx & Hx); try assumption; try congruence.
  fold xs in Hlenx, Hwx, Hx.
  split; [congruence|].
  rewrite <- (dense_product d d_pos Ds Ls Cs Es Hfac). cbv zeta.
  rewrite mv_matmul. rewrite <- HlenC.
  assert (H1 : mv (length Cs * d)
                  (transpose (length Cs * d) (expand_bidiag d Cs Es)) (flatten d xs)
               = flatten d ys).
  { apply (vec_ext (length Cs * d)); [apply wf_mv| |].
    - rewrite <- Hleny. apply wf_flatten.
    - intros I HI. rewrite dense_bidiag_T_mv by assumption.
      rewrite vnth_flatten by (try assumption; now rewrite Hleny).
      unfold block_entry.
      assert (Ht : (I / d < length Cs)%nat) by now apply index_div_lt.
      assert (Hi : (I mod d < d)%nat) by now apply index_mod_lt.
      rewrite (Hx _ Ht).
      destruct (Nat.ltb_spec (S (I / d)) (length Cs)) as [HS|HS].
      + rewrite vnth_vsub by assumption. lra.
      + lra. }
  rewrite H1.
  apply (vec_ext (length Cs * d)); [apply wf_mv| |].
  - rewrite HlenC, <- HlenB. apply wf_flatten.
  - intros I HI. rewrite dense_bidiag_mv by assumption.
    rewrite vnth_flatten by (try assumption; rewrite HlenB, <- HlenC; assumption).
    unfold block_entry.
    assert (Ht : (I / d < length Cs)%nat) by now apply index_div_lt.
    assert (Hi : (I mod d < d)%nat) by now apply index_mod_lt.
    destruct (I / d)%nat as [|t'] eqn:Et.
    + rewrite Hy0. lra.
    + rewrite (Hy t' Ht). rewrite vnth_vsub by assumption. lra.
Qed.

End BlockSolve.

(** A positive definite matrix has at most one solution per right-hand
    side. *)
Lemma posdef_injective n M x y :
  posdef n M -> wf_vec n x -> wf_vec n y -> mv n M x = mv n M y -> x = y.
Proof.
  intros Hpd Hx Hy Heq.
  assert (Hz : vsub n x y = vzero n).
  { destruct (vec_eq_dec (vsub n x y) (vzero n)) as [H|Hne]; [exact H|].
    pose proof (Hpd _ (wf_vsub n x y) Hne) as Hpos.
    unfold quad in Hpos. rewrite mv_vsub, Heq in Hpos.
    rewrite dot_vsub_r in Hpos. lra. }
  apply (vec_ext n _ _ Hx Hy). intros i Hi.
  apply (f_equal (fun v => vnth v i)) in Hz.
  rewrite vnth_vsub, vnth_vzero in Hz by assumption. lra.
Qed.

(* ================================================================== *)
(** * Scans over the batch *)

Lemma mapM_nth (A B : Type) (f : A -> result B) (dx : A) (dy : B) xs :
  (forall b, (b < length xs)%nat -> exists y, f (nth b xs dx) = Ok y) ->
  exists ys, mapM f xs = Ok ys /\ length ys = length xs /\
             forall b, (b < length xs)%nat -> f (nth b xs dx) = Ok (nth b ys dy).
Proof.
  induction xs as [|x xs IH]; intros H.
  - exists []. split; [reflexivity|]. split; [reflexivity|]. intros b Hb.
    simpl in Hb. lia.
  - destruct (H 0%nat) as [y Hy]; [simpl; lia|]. simpl in Hy.
    destruct IH as (ys & Hrun & Hlen & Hnth).
    { intros b Hb. apply (H (S b)). simpl. lia. }
    exists (y :: ys). split; [simpl; rewrite Hy; simpl; now rewrite Hrun|].
    split; [simpl; congruence|].
    intros [|b] Hb; [exact Hy|]. simpl. apply Hnth. simpl in Hb. lia.
Qed.

Lemma scan3_nth (A B C D : Type) (fn : A -> B -> C -> result D)
      (dx : A) (dy : B) (dz : C) (dr : D) xs :
  forall ys zs,
    length ys = length xs -> length zs = length xs ->
    (forall b, (b < length xs)%nat ->
       exists r, fn (nth b xs dx) (nth b ys dy) (nth b zs dz) = Ok r) ->
    exists rs, scan3 fn xs ys zs = Ok rs /\ length rs = length xs /\
      forall b, (b < length xs)%nat ->
        fn (nth b xs dx) (nth b ys dy) (nth b zs dz) = Ok (nth b rs dr).
Proof.
  induction xs as [|x xs IH]; intros ys zs Hy Hz H.
  - destruct ys; [|discriminate]. destruct zs; [|discriminate].
    exists []. split; [reflexivity|]. split; [reflexivity|]. intros b Hb.
    simpl in Hb. lia.
  - destruct ys as [|y ys]; [discriminate|]. destruct zs as [|z zs]; [discriminate|].
    destruct (H 0%nat) as [r Hr]; [simpl; lia|]. simpl in Hr.
    destruct (IH ys zs) as (rs & Hrun & Hlen & Hnth);
      try (simpl in *; lia).
    { intros b Hb. apply (H (S b)). simpl. lia. }
    exists (r :: rs). split; [simpl; rewrite Hr; simpl; now rewrite Hrun|].
    split; [simpl; congruence|].
    intros [|b] Hb; [exact Hr|]. simpl. apply Hnth. simpl in Hb. lia.
Qed.

Lemma nth_map_nil (A B : Type) (f : list A -> list B) (xs : list (list A)) b :
  f [] = [] -> nth b (map f xs) [] = f (nth b xs []).
Proof. intros Hf. rewrite <- Hf at 1. apply map_nth. Qed.

Lemma nth_map_fst (A B : Type) (xs : list (list A * list B)) b :
  nth b (map fst xs) [] = fst (nth b xs ([], [])).
Proof. apply (map_nth fst xs ([], []) b). Qed.

Lemma nth_map_snd (A B : Type) (xs : list (list A * list B)) b :
  nth b (map snd xs) [] = snd (nth b xs ([], [])).
Proof. apply (map_nth snd xs ([], []) b). Qed.

(* ================================================================== *)
(** * One sequence: factorization, then the two solves *)

Section SequenceMean.
Variable d : nat.
Variable cholesky : mat -> result mat.
Variable triangular_solve : mat -> vec -> bool -> vec.
Hypothesis chol_ok : cholesky_contract d cholesky.
Hypothesis solve_ok : triangular_solve_contract d triangular_solve.
Hypothesis d_pos : (0 < d)%nat.

Lemma blk_chol_inv_forward Cs Es Bs :
  S (length Es) = length Cs -> length Bs = length Cs ->
  CholUtils.blk_chol_inv d triangular_solve Cs Es Bs true false
  = Ok (CholUtils.forward_subst d triangular_solve Cs Es Bs).
Proof.
  intros HE HB. unfold CholUtils.blk_chol_inv.
  destruct Cs as [|C Cs']; [discriminate|].
  destruct (Nat.eqb_spec d 0) as [Hd|_]; [lia|].
  simpl in HE. injection HE as HE. rewrite HE, HB, !Nat.eqb_refl. reflexivity.
Qed.

Lemma blk_chol_inv_backward Cs Es Bs :
  S (length Es) = length Cs -> length Bs = length Cs ->
  CholUtils.blk_chol_inv d triangular_solve Cs Es Bs false true
  = Ok (CholUtils.backward_subst d triangular_solve Cs Es Bs).
Proof.
  intros HE HB. unfold CholUtils.blk_chol_inv.
  destruct Cs as [|C Cs']; [discriminate|].
  destruct (Nat.eqb_spec d 0) as [Hd|_]; [lia|].
  simpl in HE. injection HE as HE. rewrite HE, HB, !Nat.eqb_refl. reflexivity.
Qed.

(** On a positive definite operand the factorization succeeds, both solves
    succeed, and their result solves the dense system. *)
Lemma sequence_mean Ds Ls Bs :
  (0 < length Ds)%nat -> S (length Ls) = length Ds ->
  Forall (symmetric d) Ds -> Forall (wf_mat d) Ls -> block_posdef d Ds Ls ->
  length Bs = length Ds -> Forall (wf_vec d) Bs ->
  exists Cs Es ib mean,
    CholUtils.blk_tridiag_chol d cholesky triangular_solve Ds Ls = Ok (Cs, Es) /\
    CholUtils.blk_chol_inv d triangular_solve Cs Es Bs true false = Ok ib /\
    CholUtils.blk_chol_inv d triangular_solve Cs Es ib false true = Ok mean /\
    length mean = length Ds /\
    mv (length Ds * d) (expand_tridiag d Ds Ls) (flatten d mean) = flatten d Bs.
Proof.
  intros HT HlenL Hsym HwL Hpd HlenB HwB.
  destruct (blk_tridiag_chol_ok d cholesky triangular_solve chol_ok solve_ok
              Ds Ls d_pos HT HlenL Hsym HwL Hpd) as (Cs & Es & Hrun & Hfac).
  destruct (block_factor_facts d Ds Ls Cs Es Hfac) as (HlenC & HlenE & HCf & _).
  assert (HCs : Forall (chol_factor d) Cs).
  { apply (Forall_nth_lt _ _ _ []). intros t Ht. apply HCf. now rewrite <- HlenC. }
  destruct (forward_subst_facts d triangular_solve solve_ok Cs Es Bs)
    as (Hleny & _); try assumption; try congruence.
  destruct (block_solve_dense d d_pos triangular_solve solve_ok Ds Ls Cs Es Bs
              Hfac HlenB HwB) as [Hlenx Hsolve].
  exists Cs, Es, (CholUtils.forward_subst d triangular_solve Cs Es Bs),
    (CholUtils.backward_subst d triangular_solve Cs Es
       (CholUtils.forward_subst d triangular_solve Cs Es Bs)).
  split; [exact Hrun|].
  split; [apply blk_chol_inv_forward; congruence|].
  split; [apply blk_chol_inv_backward; congruence|].
  split; [exact Hlenx|exact Hsolve].
Qed.

End SequenceMean.

(* ================================================================== *)
(** * The posterior mean *)

Lemma ok_inj (A : Type) (x y : A) : Ok x = Ok y -> x = y.
Proof. intros H. now injection H. Qed.

(** C2.  With the kernels meeting their contracts, [Q0inv] and [Qinv]
    symmetric positive definite, [T >= 2], [d >= 1] and a batch of
    sequences of [T] steps, the operand is assembled and factored and
    the posterior mean is returned; for every sequence it is the result of
    the forward solve ([lower=true, transpose=false]) of
    [ia_t = c_psi_inv[t] m_psi[t]] against the block factor followed by the
    backward solve ([lower=false, transpose=true]), and it is the one
    solution of [S mean = ia] for the dense assembled operand [S]. *)
Theorem C2_posterior_mean_solves (cholesky : mat -> result mat)
        (triangular_solve : mat -> vec -> bool -> vec)
        (self : SmoothingLDS.t) (A Q0inv Qinv : mat)
        (m_psi : list (list vec)) (r_psi_sqrt : list (list mat)) :
  let d := SmoothingLDS.dim_latent self in
  let T := SmoothingLDS.num_time_pts self in
  cholesky_contract d cholesky ->
  triangular_solve_contract d triangular_solve ->
  (0 < d)%nat -> (2 <= T)%nat -> spd d Q0inv -> spd d Qinv ->
  length m_psi = length r_psi_sqrt ->
  Forall (fun r => length r = T) r_psi_sqrt ->
  Forall (fun m => length m = T) m_psi ->
  let g := SmoothingLDS.build_nodes cholesky triangular_solve self A Q0inv Qinv
             m_psi r_psi_sqrt in
  exists Dss Ls Css Ess means,
    SmoothingLDS.Sinv_diag self A Q0inv Qinv r_psi_sqrt = Ok Dss /\
    SmoothingLDS.Sinv_ldiag0 self A Q0inv Qinv = Ok Ls /\
    SmoothingLDS.chol_decomp_Sinv g = Ok (Css, Ess) /\
    SmoothingLDS.post_z_means g = Ok means /\
    length means = length r_psi_sqrt /\
    forall b, (b < length r_psi_sqrt)%nat ->
      let S := expand_tridiag d (nth b Dss []) Ls in
      let ia_b := zip_with (mv d) (nth b (SmoothingLDS.c_psi_inv self r_psi_sqrt) [])
                           (nth b m_psi []) in
      let mean := nth b means [] in
      CholUtils.blk_tridiag_chol d cholesky triangular_solve (nth b Dss []) Ls
      = Ok (nth b Css [], nth b Ess []) /\
      (exists ib,
          CholUtils.blk_chol_inv d triangular_solve (nth b Css []) (nth b Ess [])
                                 ia_b true false = Ok ib /\
          CholUtils.blk_chol_inv d triangular_solve (nth b Css []) (nth b Ess [])
                                 ib false true = Ok mean) /\
      length mean = T /\
      mv (T * d) S (flatten d mean) = flatten d ia_b /\
      forall X, wf_vec (T * d) X -> mv (T * d) S X = flatten d ia_b ->
                X = flatten d mean.
Proof.
  cbv zeta. intros Hchol Hsolve Hd HT HQ0inv HQinv Hlenm Hr Hm.
  set (c := SmoothingLDS.c_psi_inv self r_psi_sqrt).
  set (Dss := map (fun c => zip_with (madd (SmoothingLDS.dim_latent self))
                                     (static_blocks self A Q0inv Qinv) c) c).
  set (Ls := static_lower self A Q0inv Qinv).
  set (IA := SmoothingLDS.ia self m_psi r_psi_sqrt).
  assert (Hlenc : length c = length r_psi_sqrt)
    by (unfold c, SmoothingLDS.c_psi_inv; now rewrite length_map).
  assert (HlenD : length Dss = length r_psi_sqrt)
    by (unfold Dss; now rewrite length_map).
  assert (HlenIA : length IA = length r_psi_sqrt).
  { unfold IA, SmoothingLDS.ia. fold c. rewrite length_zip_with; congruence. }
  assert (HDrun : SmoothingLDS.Sinv_diag self A Q0inv Qinv r_psi_sqrt = Ok Dss)
    by now apply Sinv_diag_ok.
  assert (HLrun : SmoothingLDS.Sinv_ldiag0 self A Q0inv Qinv = Ok Ls)
    by now apply Sinv_ldiag0_ok.
  (* every sequence of the batch is ready for the factorization *)
  assert (Hready : forall b, (b < length r_psi_sqrt)%nat ->
    let Ds := nth b Dss [] in
    let ia_b := zip_with (mv (SmoothingLDS.dim_latent self)) (nth b c [])
                         (nth b m_psi []) in
    nth b IA [] = ia_b /\
    length Ds = SmoothingLDS.num_time_pts self /\
    S (length Ls) = length Ds /\
    Forall (symmetric (SmoothingLDS.dim_latent self)) Ds /\
    Forall (wf_mat (SmoothingLDS.dim_latent self)) Ls /\
    block_posdef (SmoothingLDS.dim_latent self) Ds Ls /\
    length ia_b = length Ds /\
    Forall (wf_vec (SmoothingLDS.dim_latent self)) ia_b).
  { intros b Hb Ds ia_b.
    assert (Hcb : nth b c [] =
                  map (fun r => matmul (SmoothingLDS.dim_latent self) r
                                  (transpose (SmoothingLDS.dim_latent self) r))
                      (nth b r_psi_sqrt [])).
    { unfold c, SmoothingLDS.c_psi_inv. now apply nth_map_nil. }
    assert (Hlencb : length (nth b c []) = SmoothingLDS.num_time_pts self).
    { rewrite Hcb, length_map. rewrite Forall_forall in Hr. apply Hr.
      now apply nth_In. }
    assert (Hlenmb : length (nth b m_psi []) = SmoothingLDS.num_time_pts self).
    { rewrite Forall_forall in Hm. apply Hm. apply nth_In. congruence. }
    assert (Hpsd : Forall (fun c => symmetric (SmoothingLDS.dim_latent self) c /\
                                    possemidef (SmoothingLDS.dim_latent self) c)
                          (nth b c [])).
    { pose proof (data_terms_psd self r_psi_sqrt) as Hdata. cbv zeta in Hdata.
      rewrite Forall_forall in Hdata. apply Hdata. apply nth_In.
      fold c. congruence. }
    assert (HDs : Ds = zip_with (madd (SmoothingLDS.dim_latent self))
                                (static_blocks self A Q0inv Qinv) (nth b c [])).
    { unfold Ds, Dss. now apply nth_map_nil. }
    destruct (assembled_sequence self A Q0inv Qinv (nth b c [])
                HT HQ0inv HQinv Hlencb Hpsd) as (H1 & H2 & H3 & H4 & H5).
    rewrite <- HDs in H1, H3, H5. fold Ls in H2, H4, H5.
    split.
    { unfold IA, SmoothingLDS.ia. fold c.
      apply (nth_zip_with _ _ _ _ _ _ _ [] []); congruence. }
    split; [exact H1|]. split; [congruence|]. split; [exact H3|].
    split; [exact H4|]. split; [exact H5|].
    split.
    { unfold ia_b. rewrite length_zip_with; congruence. }
    apply Forall_zip_with. intros x y _ _. apply wf_mv. }
  (* the factorizations *)
  destruct (mapM_nth _ _
              (SmoothingLDS.scan_chol cholesky triangular_solve self Ls)
              [] ([], []) Dss) as (decomp & Hdec & Hlendec & Hdecb).
  { intros b Hb. rewrite HlenD in Hb.
    destruct (Hready b Hb) as (_ & H1 & H2 & H3 & H4 & H5 & H6 & H7).
    destruct (sequence_mean _ cholesky triangular_solve Hchol Hsolve Hd
                (nth b Dss []) Ls _ ltac:(lia) H2 H3 H4 H5 H6 H7)
      as (Cs & Es & _ & _ & Hrun & _).
    exists (Cs, Es). exact Hrun. }
  set (Css := map fst decomp). set (Ess := map snd decomp).
  assert (Hchol_run :
    SmoothingLDS.precision_chol_decomp cholesky triangular_solve self A Q0inv Qinv
      r_psi_sqrt = Ok (Css, Ess)).
  { unfold SmoothingLDS.precision_chol_decomp. rewrite HDrun, HLrun. simpl.
    rewrite Hdec. reflexivity. }
  (* the solves *)
  destruct (scan3_nth _ _ _ _
              (SmoothingLDS.scan_chol_inv triangular_solve self)
              [] [] [] [] Css Ess IA) as (means & Hmeans & Hlenmeans & Hmeansb).
  { unfold Ess, Css. now rewrite !length_map. }
  { unfold Css. rewrite length_map. congruence. }
  { intros b Hb. unfold Css in Hb. rewrite length_map, Hlendec, HlenD in Hb.
    destruct (Hready b Hb) as (HIA & H1 & H2 & H3 & H4 & H5 & H6 & H7).
    destruct (sequence_mean _ cholesky triangular_solve Hchol Hsolve Hd
                (nth b Dss []) Ls _ ltac:(lia) H2 H3 H4 H5 H6 H7)
      as (Cs & Es & ib & mean & Hrun & Hfwd & Hbwd & _).
    pose proof (Hdecb b ltac:(lia)) as Hrun'.
    unfold SmoothingLDS.scan_chol in Hrun'. rewrite Hrun in Hrun'.
    apply ok_inj in Hrun'.
    exists mean. unfold SmoothingLDS.scan_chol_inv, Css, Ess.
    rewrite nth_map_fst, nth_map_snd, <- Hrun', HIA. simpl.
    rewrite Hfwd. simpl. exact Hbwd. }
  exists Dss, Ls, Css, Ess, means.
  split; [exact HDrun|]. split; [exact HLrun|]. split; [exact Hchol_run|].
  split.
  { simpl. unfold SmoothingLDS.posterior_mean. rewrite Hchol_run. simpl.
    exact Hmeans. }
  split; [unfold Css in Hlenmeans; rewrite length_map in Hlenmeans; congruence|].
  intros b Hb.
  destruct (Hready b Hb) as (HIA & H1 & H2 & H3 & H4 & H5 & H6 & H7).
  destruct (sequence_mean _ cholesky triangular_solve Hchol Hsolve Hd
              (nth b Dss []) Ls _ ltac:(lia) H2 H3 H4 H5 H6 H7)
    as (Cs & Es & ib & mean & Hrun & Hfwd & Hbwd & Hlenmean & Hsol).
  pose proof (Hdecb b ltac:(lia)) as Hrun'.
  unfold SmoothingLDS.scan_chol in Hrun'. rewrite Hrun in Hrun'.
  apply ok_inj in Hrun'.
  assert (HCs : nth b Css [] = Cs)
    by (unfold Css; now rewrite nth_map_fst, <- Hrun').
  assert (HEs : nth b Ess [] = Es)
    by (unfold Ess; now rewrite nth_map_snd, <- Hrun').
  assert (Hmean : nth b means [] = mean).
  { pose proof (Hmeansb b) as Hmb.
    unfold Css in Hmb at 1. rewrite length_map in Hmb.
    specialize (Hmb ltac:(lia)).
    unfold SmoothingLDS.scan_chol_inv in Hmb.
    rewrite HCs, HEs, HIA in Hmb. rewrite Hfwd in Hmb. simpl in Hmb.
    rewrite Hbwd in Hmb. now apply ok_inj in Hmb. }
  rewrite HCs, HEs, Hmean. fold c.
  split; [exact Hrun|].
  split; [exists ib; split; assumption|].
  split; [congruence|].
  rewrite <- H1.
  split; [exact Hsol|].
  intros X HX HSX.
  apply (posdef_injective (length (nth b Dss []) * SmoothingLDS.dim_latent self)
           (expand_tridiag (SmoothingLDS.dim_latent self) (nth b Dss []) Ls)).
  - now apply posdef_block_dense.
  - exact HX.
  - rewrite <- Hlenmean. apply wf_flatten.
  - now rewrite HSX, Hsol.
Qed.

Lemma spd_1_of_positive m : 0 < m -> spd 1 [[m]].
Proof.
  intros Hm. split; [repeat constructor|]. split; [reflexivity|].
  intros x Hx Hne. destruct (wf_vec_1 x Hx) as [a ->].
  pose proof (scalar_vec_nonzero a Hne) as Ha.
  cbv [quad dot mv mkvec map seq rsum mget vnth nth].
  pose proof (Rsqr_pos_lt a Ha) as Hp. unfold Rsqr in Hp.
  assert (0 < m * (a * a)) by now apply Rmult_lt_0_compat.
  lra.
Qed.

(** [C2_posterior_mean_solves] on one sequence of two steps in one latent
    dimension. *)
Lemma C2_witness :
  cholesky_contract 1 Scalar.cholesky /\
  triangular_solve_contract 1 Scalar.triangular_solve /\
  (0 < SmoothingLDS.dim_latent Scalar.two_steps)%nat /\
  (2 <= SmoothingLDS.num_time_pts Scalar.two_steps)%nat /\
  spd 1 [[1]] /\
  length [ [ [1]; [1] ] ] = length [ [ [[1]]; [[1]] ] ] /\
  Forall (fun r : list (list (list R)) => length r = 2%nat) [ [ [[1]]; [[1]] ] ] /\
  Forall (fun m : list (list R) => length m = 2%nat) [ [ [1]; [1] ] ] /\
  exists means,
    SmoothingLDS.post_z_means
      (SmoothingLDS.build_nodes Scalar.cholesky Scalar.triangular_solve
         Scalar.two_steps [[1]] [[1]] [[1]] [ [ [1]; [1] ] ] [ [ [[1]]; [[1]] ] ])
    = Ok means /\
    length means = 1%nat.
Proof.
  assert (Hd : (0 < SmoothingLDS.dim_latent Scalar.two_steps)%nat) by (simpl; lia).
  assert (HT : (2 <= SmoothingLDS.num_time_pts Scalar.two_steps)%nat)
    by (simpl; lia).
  assert (Hspd : spd 1 [[1]]) by (apply spd_1_of_positive; lra).
  assert (Hlen : length [ [ [1]; [1] ] ] = length [ [ [[1]]; [[1]] ] ])
    by reflexivity.
  assert (Hr : Forall (fun r : list (list (list R)) => length r = 2%nat)
                      [ [ [[1]]; [[1]] ] ]) by (repeat constructor).
  assert (Hm : Forall (fun m : list (list R) => length m = 2%nat) [ [ [1]; [1] ] ])
    by (repeat constructor).
  split; [exact scalar_cholesky_ok|]. split; [exact scalar_triangular_solve_ok|].
  split; [exact Hd|]. split; [exact HT|]. split; [exact Hspd|].
  split; [exact Hlen|]. split; [exact Hr|].
  split; [exact Hm|].
  destruct (C2_posterior_mean_solves Scalar.cholesky Scalar.triangular_solve
              Scalar.two_steps [[1]] [[1]] [[1]] [ [ [1]; [1] ] ]
              [ [ [[1]]; [[1]] ] ]
              scalar_cholesky_ok scalar_triangular_solve_ok Hd HT Hspd Hspd
              Hlen Hr Hm)
    as (Dss & Ls & Css & Ess & means & _ & _ & _ & Hrun & Hl & _).
  exists means. split; [exact Hrun|exact Hl].
Defined.

(** [C6_assembled_operand_spd] on one sequence of two steps in one latent
    dimension, with [Q = Q0 = 1]. *)
Lemma C6_witness :
  matrix_inverse_contract 1 Scalar.matrix_inverse /\
  (2 <= SmoothingLDS.num_time_pts Scalar.two_steps)%nat /\
  spd 1 [[1]] /\
  Forall (fun r : list (list (list R)) => length r = 2%nat) [ [ [[1]]; [[1]] ] ] /\
  exists Dss Ls,
    SmoothingLDS.Sinv_diag Scalar.two_steps [[1]]
      (Scalar.matrix_inverse [[1]]) (Scalar.matrix_inverse [[1]])
      [ [ [[1]]; [[1]] ] ] = Ok Dss /\
    SmoothingLDS.Sinv_ldiag0 Scalar.two_steps [[1]]
      (Scalar.matrix_inverse [[1]]) (Scalar.matrix_inverse [[1]]) = Ok Ls /\
    Forall (fun Ds => spd 2 (expand_tridiag 1 Ds Ls)) Dss.
Proof.
  assert (HT : (2 <= SmoothingLDS.num_time_pts Scalar.two_steps)%nat)
    by (simpl; lia).
  assert (Hspd : spd 1 [[1]]) by (apply spd_1_of_positive; lra).
  assert (Hr : Forall (fun r : list (list (list R)) => length r = 2%nat)
                      [ [ [[1]]; [[1]] ] ]) by (repeat constructor).
  split; [exact scalar_matrix_inverse_ok|]. split; [exact HT|].
  split; [exact Hspd|]. split; [exact Hr|].
  destruct (C6_assembled_operand_spd Scalar.matrix_inverse Scalar.two_steps
              [[1]] [[1]] [[1]] [ [ [[1]]; [[1]] ] ]
              scalar_matrix_inverse_ok HT Hspd Hspd Hr)
    as (_ & Dss & Ls & HD & HL & _ & Hall).
  exists Dss, Ls. split; [exact HD|]. split; [exact HL|exact Hall].
Defined.

(* ================================================================== *)
(** * The entropy *)

Lemma total_app xs ys :
  SmoothingLDS.total (xs ++ ys) = SmoothingLDS.total xs + SmoothingLDS.total ys.
Proof.
  unfold SmoothingLDS.total. induction xs as [|x xs IH]; simpl; [lra|].
  rewrite IH. lra.
Qed.

Lemma total_map_seq n f : SmoothingLDS.total (map f (seq 0 n)) = rsum n f.
Proof.
  induction n as [|n IH]; [reflexivity|].
  rewrite seq_S, map_app, total_app, IH. simpl. unfold SmoothingLDS.total.
  simpl. lra.
Qed.

Lemma total_map_nth (A : Type) (f : A -> R) (dflt : A) xs :
  SmoothingLDS.total (map f xs) = rsum (length xs) (fun t => f (nth t xs dflt)).
Proof.
  induction xs as [|x xs IH]; [reflexivity|].
  cbn [length]. rewrite rsum_shift. cbn [map nth].
  unfold SmoothingLDS.total in *. simpl. now rewrite IH.
Qed.

Lemma total_map_affine (A : Type) (f : A -> R) a k xs :
  SmoothingLDS.total (map (fun x => a * f x + k) xs)
  = a * SmoothingLDS.total (map f xs) + k * INR (length xs).
Proof.
  induction xs as [|x xs IH].
  - simpl. unfold SmoothingLDS.total. simpl. lra.
  - cbn [map length]. rewrite S_INR. unfold SmoothingLDS.total in *.
    cbn [fold_right]. rewrite IH. lra.
Qed.

Lemma rsum2_total (A : Type) (a : A -> nat -> nat -> R) T d xs :
  rsum T (fun t => rsum d (fun i => SmoothingLDS.total (map (fun x => a x t i) xs)))
  = SmoothingLDS.total (map (fun x => rsum T (fun t => rsum d (a x t))) xs).
Proof.
  induction xs as [|x xs IH].
  - unfold SmoothingLDS.total. simpl. apply rsum_zero. intros t _.
    now apply rsum_zero.
  - cbn [map]. unfold SmoothingLDS.total in *. cbn [fold_right].
    rewrite <- IH, <- rsum_plus. apply rsum_ext. intros t Ht.
    now rewrite <- rsum_plus.
Qed.

Section EntropyLemmas.
Variable self : SmoothingLDS.t.
Let d := SmoothingLDS.dim_latent self.
Let T := SmoothingLDS.num_time_pts self.

(** The sum of the logarithms of the diagonal entries of the blocks of one
    sequence. *)
Let log_diag (Cs : list mat) : R :=
  rsum T (fun t => rsum d (fun i => ln (mget (nth t Cs []) i i))).

Lemma log_diag_entry Cs t i :
  length Cs = T -> (t < T)%nat -> (i < d)%nat ->
  vnth (nth t (map (fun C => map ln (matrix_diag_part d C)) Cs) []) i
  = ln (mget (nth t Cs []) i i).
Proof.
  intros Hlen Ht Hi.
  rewrite (nth_indep _ [] (map ln (matrix_diag_part d [])))
    by (rewrite length_map; lia).
  rewrite (map_nth (fun C => map ln (matrix_diag_part d C))).
  unfold matrix_diag_part, mkvec. rewrite map_map.
  change (map (fun x => ln (mget (nth t Cs []) x x)) (seq 0 d))
    with (mkvec d (fun x => ln (mget (nth t Cs []) x x))).
  now apply vnth_mkvec.
Qed.

Lemma reduce_sum_mean Css :
  Forall (fun Cs => length Cs = T) Css ->
  SmoothingLDS.reduce_sum
    (SmoothingLDS.reduce_mean0 self
       (map (map (fun C => map ln (matrix_diag_part d C))) Css))
  = SmoothingLDS.total (map log_diag Css) / INR (length Css).
Proof.
  intros Hlen. unfold SmoothingLDS.reduce_sum, SmoothingLDS.reduce_mean0.
  fold d T. rewrite map_map, total_map_seq, length_map.
  rewrite (rsum_ext T _
    (fun t => rsum d (fun i =>
       SmoothingLDS.total
         (map (fun Cs => ln (mget (nth t Cs []) i i)) Css) * / INR (length Css)))).
  2:{ intros t Ht. unfold mkvec. rewrite total_map_seq.
      apply rsum_ext. intros i Hi. unfold Rdiv. f_equal. f_equal.
      rewrite map_map. apply map_ext_in. intros Cs HCs.
      apply log_diag_entry; try assumption.
      rewrite Forall_forall in Hlen. now apply Hlen. }
  rewrite (rsum_ext T _
    (fun t => rsum d (fun i =>
       SmoothingLDS.total (map (fun Cs => ln (mget (nth t Cs []) i i)) Css))
              * / INR (length Css))).
  2:{ intros t Ht. now rewrite rsum_scal_r. }
  rewrite rsum_scal_r.
  rewrite (rsum2_total _ (fun Cs t i => ln (mget (nth t Cs []) i i))).
  reflexivity.
Qed.

Lemma spec_entropy_log_diag Cs :
  length Cs = T ->
  Spec.entropy d T Cs
  = (-1) * log_diag Cs + INR (d * T) / 2 * (1 + ln (2 * PI)).
Proof.
  intros Hlen. unfold Spec.entropy, Spec.logdet.
  rewrite (total_map_nth _ _ []). rewrite Hlen. fold (log_diag Cs).
  rewrite mult_INR. lra.
Qed.

End EntropyLemmas.

(** C5.  When the factorization has returned the diagonal blocks [Css]
    (one list of [T] blocks per sequence of a non-empty batch),
    [evaluate_entropy] returns the batch average of
    [0.5 (-logdet(S)) + (T d / 2) (1 + log 2 pi)] with
    [logdet(S) = 2 sum_t sum_i log(C_t[i,i])]. *)
Theorem C5_entropy_formula (self : SmoothingLDS.t) (g : SmoothingLDS.graph)
        (Css Ess : list (list mat)) :
  let d := SmoothingLDS.dim_latent self in
  let T := SmoothingLDS.num_time_pts self in
  SmoothingLDS.chol_decomp_Sinv g = Ok (Css, Ess) ->
  Css <> [] ->
  Forall (fun Cs => length Cs = T) Css ->
  SmoothingLDS.evaluate_entropy self g
  = Ok (Spec.batch_mean (map (Spec.entropy d T) Css)).
Proof.
  cbv zeta. intros Hg Hne Hlen.
  unfold SmoothingLDS.evaluate_entropy. rewrite Hg. cbn [bind fst]. f_equal.
  rewrite reduce_sum_mean by assumption.
  unfold Spec.batch_mean. rewrite length_map.
  rewrite (map_ext_in
             (Spec.entropy (SmoothingLDS.dim_latent self)
                           (SmoothingLDS.num_time_pts self))
             (fun Cs => (-1) * rsum (SmoothingLDS.num_time_pts self)
                (fun t => rsum (SmoothingLDS.dim_latent self)
                   (fun i => ln (mget (nth t Cs []) i i)))
              + INR (SmoothingLDS.dim_latent self * SmoothingLDS.num_time_pts self)
                / 2 * (1 + ln (2 * PI)))).
  2:{ intros Cs HCs. apply spec_entropy_log_diag.
      rewrite Forall_forall in Hlen. now apply Hlen. }
  rewrite total_map_affine.
  assert (HB : INR (length Css) <> 0).
  { apply not_0_INR. destruct Css; [now elim Hne|discriminate]. }
  field. exact HB.
Qed.

(** The factorization of a whole batch succeeds, with [T] diagonal blocks
    per sequence. *)
Lemma precision_chol_decomp_ok (cholesky : mat -> result mat)
      (triangular_solve : mat -> vec -> bool -> vec)
      (self : SmoothingLDS.t) (A Q0inv Qinv : mat)
      (r_psi_sqrt : list (list mat)) :
  let d := SmoothingLDS.dim_latent self in
  let T := SmoothingLDS.num_time_pts self in
  cholesky_contract d cholesky ->
  triangular_solve_contract d triangular_solve ->
  (0 < d)%nat -> (2 <= T)%nat -> spd d Q0inv -> spd d Qinv ->
  Forall (fun r => length r = T) r_psi_sqrt ->
  exists Css Ess,
    SmoothingLDS.precision_chol_decomp cholesky triangular_solve self A Q0inv Qinv
      r_psi_sqrt = Ok (Css, Ess) /\
    length Css = length r_psi_sqrt /\
    Forall (fun Cs => length Cs = T) Css.
Proof.
  cbv zeta. intros Hchol Hsolve Hd HT HQ0inv HQinv Hr.
  set (c := SmoothingLDS.c_psi_inv self r_psi_sqrt).
  set (Dss := map (fun c => zip_with (madd (SmoothingLDS.dim_latent self))
                                     (static_blocks self A Q0inv Qinv) c) c).
  set (Ls := static_lower self A Q0inv Qinv).
  assert (HlenD : length Dss = length r_psi_sqrt)
    by (unfold Dss, c, SmoothingLDS.c_psi_inv; now rewrite !length_map).
  assert (Hfactor : forall b, (b < length Dss)%nat ->
    exists Cs Es,
      SmoothingLDS.scan_chol cholesky triangular_solve self Ls (nth b Dss [])
      = Ok (Cs, Es) /\ length Cs = SmoothingLDS.num_time_pts self).
  { intros b Hb. rewrite HlenD in Hb.
    assert (Hcb : nth b c [] =
                  map (fun r => matmul (SmoothingLDS.dim_latent self) r
                                  (transpose (SmoothingLDS.dim_latent self) r))
                      (nth b r_psi_sqrt [])).
    { unfold c, SmoothingLDS.c_psi_inv. now apply nth_map_nil. }
    assert (Hlencb : length (nth b c []) = SmoothingLDS.num_time_pts self).
    { rewrite Hcb, length_map. rewrite Forall_forall in Hr. apply Hr.
      now apply nth_In. }
    assert (Hpsd : Forall (fun c => symmetric (SmoothingLDS.dim_latent self) c /\
                                    possemidef (SmoothingLDS.dim_latent self) c)
                          (nth b c [])).
    { pose proof (data_terms_psd self r_psi_sqrt) as Hdata. cbv zeta in Hdata.
      rewrite Forall_forall in Hdata. apply Hdata. apply nth_In.
      fold c. unfold c, SmoothingLDS.c_psi_inv. now rewrite length_map. }
    assert (HDs : nth b Dss [] =
                  zip_with (madd (SmoothingLDS.dim_latent self))
                           (static_blocks self A Q0inv Qinv) (nth b c [])).
    { unfold Dss. now apply nth_map_nil. }
    destruct (assembled_sequence self A Q0inv Qinv (nth b c [])
                HT HQ0inv HQinv Hlencb Hpsd) as (H1 & H2 & H3 & H4 & H5).
    rewrite <- HDs in H1, H3, H5. fold Ls in H2, H4, H5.
    destruct (blk_tridiag_chol_ok _ cholesky triangular_solve Hchol Hsolve
                (nth b Dss []) Ls Hd ltac:(lia) ltac:(congruence) H3 H4 H5)
      as (Cs & Es & Hrun & Hfac).
    exists Cs, Es. split; [exact Hrun|].
    destruct (block_factor_facts _ _ _ _ _ Hfac) as (HlenC & _). congruence. }
  destruct (mapM_nth _ _
              (SmoothingLDS.scan_chol cholesky triangular_solve self Ls)
              [] ([], []) Dss) as (decomp & Hdec & Hlendec & Hdecb).
  { intros b Hb. destruct (Hfactor b Hb) as (Cs & Es & Hrun & _).
    now exists (Cs, Es). }
  exists (map fst decomp), (map snd decomp).
  split.
  { assert (HDrun : SmoothingLDS.Sinv_diag self A Q0inv Qinv r_psi_sqrt = Ok Dss)
      by now apply Sinv_diag_ok.
    assert (HLrun : SmoothingLDS.Sinv_ldiag0 self A Q0inv Qinv = Ok Ls)
      by now apply Sinv_ldiag0_ok.
    unfold SmoothingLDS.precision_chol_decomp. rewrite HDrun, HLrun. simpl.
    rewrite Hdec. reflexivity. }
  split; [rewrite length_map; congruence|].
  apply (Forall_nth_lt _ _ _ []). intros b Hb.
  rewrite length_map, Hlendec in Hb. rewrite nth_map_fst.
  destruct (Hfactor b Hb) as (Cs & Es & Hrun & HlenC).
  rewrite (Hdecb b Hb) in Hrun. apply ok_inj in Hrun. now rewrite Hrun.
Qed.

(** [C5_entropy_formula] on the graph of one sequence of two steps in one
    latent dimension: the batch is not empty and the factorization has two
    diagonal blocks. *)
Lemma C5_witness :
  let g := SmoothingLDS.build_nodes Scalar.cholesky Scalar.triangular_solve
             Scalar.two_steps [[1]] [[1]] [[1]] [ [ [1]; [1] ] ]
             [ [ [[1]]; [[1]] ] ] in
  exists Css Ess,
    SmoothingLDS.chol_decomp_Sinv g = Ok (Css, Ess) /\
    Css <> [] /\
    Forall (fun Cs : list (list (list R)) => length Cs = 2%nat) Css /\
    SmoothingLDS.evaluate_entropy Scalar.two_steps g
    = Ok (Spec.batch_mean (map (Spec.entropy 1 2) Css)).
Proof.
  intros g.
  assert (Hspd : spd 1 [[1]]) by (apply spd_1_of_positive; lra).
  assert (Hr : Forall (fun r : list (list (list R)) =>
                         length r = SmoothingLDS.num_time_pts Scalar.two_steps)
                      [ [ [[1]]; [[1]] ] ]) by (repeat constructor).
  destruct (precision_chol_decomp_ok Scalar.cholesky Scalar.triangular_solve
              Scalar.two_steps [[1]] [[1]] [[1]] [ [ [[1]]; [[1]] ] ]
              scalar_cholesky_ok scalar_triangular_solve_ok
              (le_n 1) (le_n 2) Hspd Hspd Hr)
    as (Css & Ess & Hrun & Hlen & Hall).
  assert (Hne : Css <> []) by (destruct Css; [discriminate|discriminate]).
  exists Css, Ess. split; [exact Hrun|]. split; [exact Hne|].
  split; [exact Hall|].
  exact (C5_entropy_formula Scalar.two_steps g Css Ess Hrun Hne Hall).
Defined.

(* ================================================================== *)
(** * The derived covariances *)

Lemma not_spd_zero : ~ spd 1 [[0]].
Proof. intros H. apply spd_1_positive in H. lra. Qed.

(** C7 on the code.  [SmoothingLDS._initialize_model_vars] and
    [LDSCoupled.initialize_prior_vars] add no jitter: with zero square
    roots in one latent dimension their covariances are the zero matrix,
    which is not positive definite, where [LDS.initialize_prior_vars]
    returns [1e-6]; and at its initial values [SmoothingLDS] has [Q = 1],
    not [1 + 1e-6]. *)
Theorem C7_jitter_missing :
  let v := SmoothingLDS.Vars [[0]] [[1]] [[0]] [[0]] in
  SmoothingLDS.Q Scalar.two_steps v = [[0 + 0 * 0]] /\
  SmoothingLDS.Q0 Scalar.two_steps v = [[0 + 0 * 0]] /\
  LDSCoupled.Q 1 (LDSCoupled.Q_sqrt_init 1 [("Q_sqrt"%string, [[0]])])
  = [[0 + 0 * 0]] /\
  LDSCoupled.Q0 1 (LDSCoupled.Q0_sqrt_init 1 [("Q0_sqrt"%string, [[0]])])
  = [[0 + 0 * 0]] /\
  ~ spd 1 [[0 + 0 * 0]] /\
  LDS.Q 1 [[0]] = [[0 + 0 * 0 + 1e-6 * 1]] /\
  SmoothingLDS.Q Scalar.two_steps (SmoothingLDS.initial_vars Scalar.two_steps)
  = [[0 + 1 * 1]] /\
  [[0 + 1 * 1]] <> [[0 + 1 * 1 + 1e-6 * 1]].
Proof.
  cbv zeta.
  split; [reflexivity|]. split; [reflexivity|]. split; [reflexivity|].
  split; [reflexivity|].
  split; [replace (0 + 0 * 0) with 0 by lra; exact not_spd_zero|].
  split; [reflexivity|]. split; [reflexivity|].
  intros H. injection H as H. lra.
Qed.

(* ================================================================== *)
(** * Sampling *)

Ltac list_eq :=
  repeat match goal with
         | |- Ok _ = Ok _ => apply f_equal
         | |- (_ :: _) = (_ :: _) => apply (f_equal2 cons)
         | |- (_, _) = (_, _) => apply f_equal2
         | |- @nil _ = @nil _ => reflexivity
         end.

Lemma scalar_cholesky_one m : m = 1 -> Scalar.cholesky [[m]] = Ok [[1]].
Proof.
  intros ->. unfold Scalar.cholesky. cbn [mget nth].
  destruct (Rlt_dec 0 1) as [_|Hn]; [|exfalso; apply Hn; lra].
  unfold Scalar.m1. now rewrite sqrt_1.
Qed.

(** The run of [Run.generate_samples], stage by stage. *)
Lemma run_params :
  SmoothingLDS.Q0inv Scalar.two_steps Scalar.matrix_inverse Run.unit_vars = [[1]] /\
  SmoothingLDS.Qinv Scalar.two_steps Scalar.matrix_inverse Run.unit_vars = [[1]].
Proof.
  split;
    cbv [SmoothingLDS.Q0inv SmoothingLDS.Qinv SmoothingLDS.Q0 SmoothingLDS.Q
         Scalar.matrix_inverse Scalar.m1 Run.unit_vars SmoothingLDS.Q0_sqrt
         SmoothingLDS.Q_sqrt SmoothingLDS.dim_latent Scalar.two_steps
         matmul transpose mkmat mkvec map seq rsum mget nth];
    do 2 f_equal; field.
Qed.

Lemma run_diag :
  SmoothingLDS.Sinv_diag Scalar.two_steps [[1]] [[1]] [[1]] [ [ [[0]]; [[0]] ] ]
  = Ok [ [ [[1 + (0 + 0 * 0)]]; [[0 + (0 + 1 * 1) * 1 + 1 + (0 + 0 * 0)]] ] ].
Proof. reflexivity. Qed.

Lemma run_ldiag :
  SmoothingLDS.Sinv_ldiag0 Scalar.two_steps [[1]] [[1]] [[1]]
  = Ok [ [[0 + - (1) * 1]] ].
Proof. reflexivity. Qed.

Lemma run_factor :
  CholUtils.blk_tridiag_chol 1 Scalar.cholesky Scalar.triangular_solve
    [ [[1 + (0 + 0 * 0)]]; [[0 + (0 + 1 * 1) * 1 + 1 + (0 + 0 * 0)]] ]
    [ [[0 + - (1) * 1]] ]
  = Ok ([ [[1]]; [[1]] ], [ [[-1]] ]).
Proof.
  unfold CholUtils.blk_tridiag_chol. cbn [Nat.eqb length negb].
  rewrite scalar_cholesky_one by lra. cbn [bind CholUtils.chol_rec].
  cbv [CholUtils.right_solve_T Scalar.triangular_solve map seq nth vnth mget
       msub matmul transpose mkmat mkvec rsum].
  rewrite scalar_cholesky_one by lra. cbn [bind fst snd].
  list_eq; lra.
Qed.

(** With zero data terms and unit dynamics the mean is zero and the sample
    is the backward solve of the noise: [z1 + z2] and [z2]. *)
Lemma run_samples z1 z2 :
  SmoothingLDS.posterior_samples Scalar.cholesky Scalar.triangular_solve
    Scalar.two_steps [[1]] [[1]] [[1]] [ [ [0]; [0] ] ] [ [ [[0]]; [[0]] ] ]
    [ [ [z1]; [z2] ] ]
  = Ok [ [ [z1 + z2]; [z2] ] ].
Proof.
  assert (Hc : SmoothingLDS.precision_chol_decomp Scalar.cholesky
                 Scalar.triangular_solve Scalar.two_steps [[1]] [[1]] [[1]]
                 [ [ [[0]]; [[0]] ] ]
               = Ok ([ [ [[1]]; [[1]] ] ], [ [ [[-1]] ] ])).
  { unfold SmoothingLDS.precision_chol_decomp. rewrite run_diag, run_ldiag.
    cbn [bind mapM]. unfold SmoothingLDS.scan_chol.
    cbn [SmoothingLDS.dim_latent Scalar.two_steps]. rewrite run_factor.
    reflexivity. }
  unfold SmoothingLDS.posterior_samples, SmoothingLDS.posterior_mean.
  rewrite Hc.
  cbv -[Rplus Rmult Rinv Rminus Ropp Rdiv IZR]. list_eq; field.
Qed.

Lemma run_generate_samples (state : nat) :
  Run.generate_samples (SmoothingLDS.Session Run.unit_vars state)
                       Run.observations
  = (Ok [ [ [1 + 1]; [1] ] ],
     SmoothingLDS.Session Run.unit_vars (S state)).
Proof.
  unfold Run.generate_samples, SmoothingLDS.generate_samples,
    SmoothingLDS.build_graph.
  destruct run_params as [H0 H1].
  cbn [SmoothingLDS.variables SmoothingLDS.random_state]. rewrite H0, H1.
  cbn [SmoothingLDS.post_z_samples SmoothingLDS.build_nodes Run.zero_mlp
       Run.observations Run.fixed_normal map fst snd length repeat
       SmoothingLDS.num_time_pts SmoothingLDS.dim_latent Scalar.two_steps
       SmoothingLDS.A Run.unit_vars].
  now rewrite run_samples.
Qed.

(* ================================================================== *)
(** * The generative model: lists, scans and transposes *)

Lemma nth_map_seq (A : Type) (f : nat -> A) (n j : nat) (dflt : A) :
  (j < n)%nat -> nth j (map f (seq 0 n)) dflt = f j.
Proof.
  intros Hj. rewrite (nth_indep _ dflt (f 0%nat)) by now rewrite length_map, length_seq.
  rewrite (map_nth f), seq_nth by assumption. reflexivity.
Qed.

Lemma nth_map_lt (A B : Type) (f : A -> B) (xs : list A) (i : nat)
      (da : A) (db : B) :
  (i < length xs)%nat -> nth i (map f xs) db = f (nth i xs da).
Proof.
  intros Hi. rewrite (nth_indep _ db (f da)) by now rewrite length_map.
  apply map_nth.
Qed.

Lemma nth_tl (A : Type) (xs : list A) (t : nat) (dflt : A) :
  nth t (tl xs) dflt = nth (S t) xs dflt.
Proof. destruct xs as [|x xs]; [now destruct t|reflexivity]. Qed.

Lemma scan_dynamic_run (A B : Type) (fn : A -> B -> A) (elems : list B) (a : A) :
  (0 < length elems)%nat -> scan_dynamic fn elems a = Ok (scan fn elems a).
Proof. destruct elems; simpl; [lia|reflexivity]. Qed.

Lemma length_scan (A B : Type) (fn : A -> B -> A) (elems : list B) :
  forall a, length (scan fn elems a) = length elems.
Proof.
  induction elems as [|x elems IH]; intros a; simpl; [reflexivity|].
  now rewrite IH.
Qed.

(** Every stacked value of a scan is the step function applied to the
    value before it. *)
Lemma nth_scan (A B : Type) (fn : A -> B -> A) (da : A) (db : B)
      (elems : list B) :
  forall a t, (t < length elems)%nat ->
    nth t (scan fn elems a) da
    = fn (match t with
          | O => a
          | S t' => nth t' (scan fn elems a) da
          end) (nth t elems db).
Proof.
  induction elems as [|x elems IH]; intros a t Ht; simpl in Ht; [lia|].
  destruct t as [|t]; [reflexivity|].
  cbn [scan nth]. rewrite IH by lia. now destruct t.
Qed.

Lemma length_transpose_lead rows cols x :
  length (transpose_lead rows cols x) = cols.
Proof. unfold transpose_lead. now rewrite length_map, length_seq. Qed.

Lemma nth_transpose_lead rows cols x i j :
  (i < rows)%nat -> (j < cols)%nat ->
  nth i (nth j (transpose_lead rows cols x) []) [] = nth j (nth i x []) [].
Proof.
  intros Hi Hj. unfold transpose_lead.
  rewrite (nth_map_seq _ _ _ _ _ Hj). now rewrite (nth_map_seq _ _ _ _ _ Hi).
Qed.

Lemma length_nth_transpose_lead rows cols x j :
  (j < cols)%nat -> length (nth j (transpose_lead rows cols x) []) = rows.
Proof.
  intros Hj. unfold transpose_lead.
  rewrite (nth_map_seq _ _ _ _ _ Hj). now rewrite length_map, length_seq.
Qed.

Lemma tensordot_transpose d M x :
  tensordot d d x (transpose d M) = mv d M x.
Proof.
  unfold tensordot, mv. apply mkvec_ext. intros j Hj. apply rsum_ext.
  intros i Hi. rewrite mget_transpose by assumption. lra.
Qed.

(* ================================================================== *)
(** * The sampler of the prior *)

Section SamplerLemmas.
Variable self : GenerativeLDS.t.
Variable v : SmoothingLDS.model_vars.
Variable w : GenerativeLDS.mapping_vars.
Local Abbreviation dz := (GenerativeLDS.dim_latent self).
Local Abbreviation dy := (GenerativeLDS.dim_obs self).
Local Abbreviation T := (GenerativeLDS.num_time_pts self).

(** The observation the mapping gives one latent state. *)
Local Abbreviation emit :=
  (fun z : list R =>
     vadd dy (tensordot dz dy z (GenerativeLDS.C w)) (row0 (GenerativeLDS.d w))).

Lemma mapped_map z_val :
  GenerativeLDS.mapped self w z_val = map emit z_val.
Proof.
  unfold GenerativeLDS.mapped, GenerativeLDS._apply_mapping.
  rewrite !map_map. apply map_ext. intros z. reflexivity.
Qed.

Lemma length_lds_update_fst outputs inputs N :
  length (fst outputs) = N -> length (fst inputs) = N ->
  length (fst (GenerativeLDS.lds_update self v w outputs inputs)) = N.
Proof.
  intros Ho Hi. unfold GenerativeLDS.lds_update. cbn [fst].
  rewrite length_zip_with; unfold matmul_rows; rewrite !length_map; congruence.
Qed.

Lemma nth_lds_update_fst outputs inputs N b :
  length (fst outputs) = N -> length (fst inputs) = N -> (b < N)%nat ->
  nth b (fst (GenerativeLDS.lds_update self v w outputs inputs)) []
  = vadd dz (mv dz (SmoothingLDS.A v) (nth b (fst outputs) []))
            (mv dz (SmoothingLDS.Q_sqrt v) (nth b (fst inputs) [])).
Proof.
  intros Ho Hi Hb. unfold GenerativeLDS.lds_update. cbn [fst].
  rewrite (nth_zip_with _ _ _ _ _ _ _ [] []);
    unfold matmul_rows; rewrite ?length_map; try congruence; try lia.
  rewrite (nth_map_lt _ _ _ _ _ [] []) by lia.
  rewrite (nth_map_lt _ _ _ _ _ [] []) by lia.
  now rewrite !tensordot_transpose.
Qed.

Lemma nth_lds_update_snd outputs inputs N b :
  length (fst outputs) = N -> length (fst inputs) = N ->
  length (snd inputs) = N -> (b < N)%nat ->
  nth b (snd (GenerativeLDS.lds_update self v w outputs inputs)) []
  = vadd dy (emit (nth b (fst (GenerativeLDS.lds_update self v w outputs inputs)) []))
            (vmul dy (nth b (snd inputs) []) (row0 (GenerativeLDS.Rsqrt w))).
Proof.
  intros Ho Hi Hy Hb.
  pose proof (length_lds_update_fst outputs inputs N Ho Hi) as Hlen.
  unfold GenerativeLDS.lds_update in *. cbn [fst snd] in *.
  rewrite mapped_map. unfold GenerativeLDS.obs_noise.
  rewrite (nth_zip_with _ _ _ _ _ _ _ [] []);
    rewrite ?length_map; try congruence; try lia.
  rewrite (nth_map_lt _ _ _ _ _ [] []) by lia.
  rewrite (nth_map_lt _ _ _ _ _ [] []) by lia.
  reflexivity.
Qed.


(** The trajectory of one sample: the first step, then the stacked values
    of the scan. *)
Lemma nth_trajectories (x0 : list vec) (X : list (list vec)) (N K b : nat) :
  length x0 = N -> (b < N)%nat ->
  nth b (zip_with (@app (list R)) (map (fun z => [z]) x0) (transpose_lead K N X)) []
  = nth b x0 [] :: map (fun i => nth b (nth i X []) []) (seq 0 K).
Proof.
  intros Hlen Hb.
  rewrite (nth_zip_with _ _ _ _ _ _ _ [] []);
    rewrite ?length_map, ?length_transpose_lead; try lia.
  rewrite (nth_map_lt _ _ _ _ _ [] []) by lia.
  unfold transpose_lead. now rewrite (nth_map_seq _ _ _ _ _ Hb).
Qed.

(** [_sample_yz] returns, for every sample, a trajectory of [T] steps that
    follows the dynamics and the observation equation on the drawn noise. *)
Lemma sample_yz_paths (N : nat) (latent obs : list (list vec)) :
  (2 <= T)%nat -> length latent = N -> length obs = N ->
  exists zs ys,
    GenerativeLDS._sample_yz self v w N latent obs
    = Ok (GenerativeLDS.Samples zs ys) /\
    length zs = N /\ length ys = N /\
    forall b, (b < N)%nat ->
      length (nth b zs []) = T /\ length (nth b ys []) = T /\
      nth 0 (nth b zs []) []
      = vadd dz (row0 (SmoothingLDS.z0_mean v))
             (mv dz (SmoothingLDS.Q0_sqrt v) (nth 0 (nth b latent []) [])) /\
      (forall t, (S t < T)%nat ->
         nth (S t) (nth b zs []) []
         = vadd dz (mv dz (SmoothingLDS.A v) (nth t (nth b zs []) []))
                (mv dz (SmoothingLDS.Q_sqrt v) (nth (S t) (nth b latent []) []))) /\
      (forall t, (t < T)%nat ->
         nth t (nth b ys []) []
         = vadd dy (emit (nth t (nth b zs []) []))
                (vmul dy (nth t (nth b obs []) []) (row0 (GenerativeLDS.Rsqrt w)))).
Proof.
  intros HT Hlat Hobs.
  unfold GenerativeLDS._sample_yz, GenerativeLDS.slice_first.
  destruct (Nat.eqb_spec T 0) as [H0|_]; [lia|]. cbn [bind].
  set (lat0 := map (fun s : list (list R) => nth 0 s []) latent).
  set (obs0 := map (fun s : list (list R) => nth 0 s []) obs).
  set (z0 := map (fun r => vadd dz (row0 (SmoothingLDS.z0_mean v)) r)
                 (matmul_rows dz dz lat0 (transpose dz (SmoothingLDS.Q0_sqrt v)))).
  set (y0 := zip_with (vadd dy) (GenerativeLDS.mapped self w z0)
                      (GenerativeLDS.obs_noise self w obs0)).
  set (RZ := transpose_lead N (T - 1) (GenerativeLDS.slice_rest latent)).
  set (RY := transpose_lead N (T - 1) (GenerativeLDS.slice_rest obs)).
  set (samples := scan (GenerativeLDS.lds_update self v w) (combine RZ RY) (z0, y0)).
  assert (Hz0 : length z0 = N).
  { unfold z0, matmul_rows, lat0. now rewrite !length_map. }
  assert (Hy0 : length y0 = N).
  { unfold y0. rewrite mapped_map, length_zip_with; rewrite ?length_map; try lia.
    unfold GenerativeLDS.obs_noise, obs0. rewrite !length_map. lia. }
  assert (HRZ : length RZ = (T - 1)%nat) by apply length_transpose_lead.
  assert (HRY : length RY = (T - 1)%nat) by apply length_transpose_lead.
  assert (Hcomb : length (combine RZ RY) = (T - 1)%nat).
  { rewrite length_combine. lia. }
  rewrite scan_dynamic_run by (rewrite Hcomb; lia). cbn [bind].
  fold samples.
  assert (Hsamples : length samples = (T - 1)%nat).
  { unfold samples. now rewrite length_scan. }
  assert (Hin : forall t, (t < T - 1)%nat ->
            nth t (combine RZ RY) ([], []) = (nth t RZ [], nth t RY [])).
  { intros t Ht. apply combine_nth. lia. }
  assert (Hstep : forall t, (t < T - 1)%nat ->
            nth t samples ([], [])
            = GenerativeLDS.lds_update self v w
                (match t with
                 | O => (z0, y0)
                 | S t' => nth t' samples ([], [])
                 end) (nth t RZ [], nth t RY [])).
  { intros t Ht. unfold samples.
    rewrite (nth_scan _ _ _ ([], []) ([], [])) by lia. now rewrite Hin. }
  assert (HlenZ : forall t, (t < T - 1)%nat ->
            length (fst (nth t samples ([], []))) = N).
  { induction t as [|t IH]; intros Ht; rewrite Hstep by assumption;
      apply length_lds_update_fst; cbn [fst];
      try (apply length_nth_transpose_lead; lia); [exact Hz0|apply IH; lia]. }
  assert (Hprev : forall t, (t < T - 1)%nat ->
            length (fst (match t with
                         | O => (z0, y0)
                         | S t' => nth t' samples ([], [])
                         end)) = N).
  { intros [|t] Ht; [exact Hz0|apply HlenZ; lia]. }
  exists (zip_with (@app (list R)) (map (fun z => [z]) z0)
                   (transpose_lead (T - 1) N (map fst samples))),
         (zip_with (@app (list R)) (map (fun y => [y]) y0)
                   (transpose_lead (T - 1) N (map snd samples))).
  split; [reflexivity|].
  split; [rewrite length_zip_with; rewrite ?length_map, ?length_transpose_lead; lia|].
  split; [rewrite length_zip_with; rewrite ?length_map, ?length_transpose_lead; lia|].
  intros b Hb.
  rewrite (nth_trajectories z0 _ N (T - 1) b Hz0 Hb).
  rewrite (nth_trajectories y0 _ N (T - 1) b Hy0 Hb).
  assert (Hfst : forall t, (t < T - 1)%nat ->
            nth t (map fst samples) [] = fst (nth t samples ([], []))).
  { intros t Ht. apply nth_map_lt. lia. }
  assert (Hsnd : forall t, (t < T - 1)%nat ->
            nth t (map snd samples) [] = snd (nth t samples ([], []))).
  { intros t Ht. apply nth_map_lt. lia. }
  assert (Hzb0 : nth b z0 []
                 = vadd dz (row0 (SmoothingLDS.z0_mean v))
                        (mv dz (SmoothingLDS.Q0_sqrt v) (nth 0 (nth b latent []) []))).
  { unfold z0, matmul_rows, lat0. rewrite !map_map.
    rewrite (nth_map_lt _ _ _ _ _ [] []) by lia.
    now rewrite tensordot_transpose. }
  assert (Hzt : forall t, (t < T)%nat ->
            nth t (nth b z0 [] :: map (fun i => nth b (nth i (map fst samples) []) [])
                                      (seq 0 (T - 1))) []
            = nth b (fst (match t with
                          | O => (z0, y0)
                          | S t' => nth t' samples ([], [])
                          end)) []).
  { intros [|t] Ht; [reflexivity|]. cbn [nth].
    rewrite nth_map_seq by lia. rewrite Hfst by lia. reflexivity. }
  assert (Hnoise : forall (x : list (list vec)) t, length x = N -> (t < T - 1)%nat ->
            nth b (nth t (transpose_lead N (T - 1) (GenerativeLDS.slice_rest x)) []) []
            = nth (S t) (nth b x []) []).
  { intros x t Hx Ht. rewrite nth_transpose_lead by lia.
    unfold GenerativeLDS.slice_rest.
    rewrite (nth_map_lt _ _ _ _ _ [] []) by lia. apply nth_tl. }
  split; [cbn [length]; rewrite length_map, length_seq; lia|].
  split; [cbn [length]; rewrite length_map, length_seq; lia|].
  split; [exact Hzb0|].
  split.
  - intros t Ht. rewrite (Hzt (S t)) by lia. rewrite (Hzt t) by lia.
    rewrite Hstep by lia.
    rewrite (nth_lds_update_fst _ _ N b) by
        (cbn [fst]; try (apply length_nth_transpose_lead; lia); try lia;
         apply Hprev; lia).
    cbn [fst]. unfold RZ. now rewrite Hnoise by lia.
  - intros [|t] Ht.
    + cbn [nth]. unfold y0. rewrite mapped_map.
      rewrite (nth_zip_with _ _ _ _ _ _ _ [] []);
        unfold GenerativeLDS.obs_noise, obs0; rewrite ?length_map; try lia.
      rewrite (nth_map_lt _ _ _ _ _ [] []) by lia.
      rewrite map_map. rewrite (nth_map_lt _ _ _ _ _ [] []) by lia.
      reflexivity.
    + rewrite (Hzt (S t)) by lia. cbn [nth].
      rewrite nth_map_seq by lia. rewrite Hsnd by lia.
      rewrite Hstep by lia.
      rewrite (nth_lds_update_snd _ _ N b) by
          (cbn [fst snd]; try (apply length_nth_transpose_lead; lia); try lia;
           apply Hprev; lia).
      cbn [snd]. unfold RY. now rewrite Hnoise by lia.
Qed.

End SamplerLemmas.

(* ================================================================== *)
(** * Means over the batch and the Monte Carlo axis *)

Lemma total_mkvec k f : SmoothingLDS.total (mkvec k f) = rsum k f.
Proof. unfold mkvec. apply total_map_seq. Qed.

Lemma rsum_le n f g :
  (forall i, (i < n)%nat -> f i <= g i) -> rsum n f <= rsum n g.
Proof.
  induction n as [|n IH]; intros H; simpl; [lra|].
  pose proof (H n ltac:(lia)). pose proof (IH ltac:(intros; apply H; lia)). lra.
Qed.

Lemma rsum_const n c : rsum n (fun _ => c) = INR n * c.
Proof.
  induction n as [|n IH]; [simpl; lra|]. cbn [rsum]. rewrite IH, S_INR. lra.
Qed.

(** The sum of a mean over the two leading axes, over the indices. *)
Lemma reduce_sum_mean01 n k (x : list (list (list vec))) (MC : nat) :
  Forall (fun xb => length xb = MC) x ->
  SmoothingLDS.reduce_sum (reduce_mean01 n k x)
  = rsum (length x) (fun b =>
      rsum MC (fun m =>
        rsum n (fun t =>
          rsum k (fun i => vnth (nth t (nth m (nth b x []) []) []) i))))
    / INR (length x * length (nth 0 x [])).
Proof.
  intros Hrect. unfold SmoothingLDS.reduce_sum, reduce_mean01.
  rewrite map_map, total_map_seq.
  rewrite (rsum_ext n _
    (fun t => rsum k (fun i =>
       SmoothingLDS.total
         (map (fun xb =>
                 SmoothingLDS.total
                   (map (fun xbm => vnth (nth t xbm []) i) xb)) x))
              * / INR (length x * length (nth 0 x [])))).
  2:{ intros t Ht. rewrite total_mkvec, <- rsum_scal_r. reflexivity. }
  rewrite rsum_scal_r. unfold Rdiv. f_equal.
  rewrite (rsum2_total _
    (fun xb t i => SmoothingLDS.total (map (fun xbm => vnth (nth t xbm []) i) xb))).
  rewrite (total_map_nth _ _ []). apply rsum_ext. intros b Hb.
  rewrite (rsum2_total _ (fun xbm t i => vnth (nth t xbm []) i)).
  rewrite (total_map_nth _ _ []).
  rewrite Forall_forall in Hrect. rewrite (Hrect (nth b x [])) by now apply nth_In.
  reflexivity.
Qed.

Lemma total_mean01_vec k (x : list (list vec)) (MC : nat) :
  Forall (fun xb => length xb = MC) x ->
  SmoothingLDS.total (reduce_mean01_vec k x)
  = rsum (length x) (fun b =>
      rsum MC (fun m => rsum k (fun i => vnth (nth m (nth b x []) []) i)))
    / INR (length x * length (nth 0 x [])).
Proof.
  intros Hrect. unfold reduce_mean01_vec. rewrite total_mkvec.
  unfold Rdiv. rewrite rsum_scal_r. f_equal.
  pose proof (rsum2_total _
    (fun (xb : list vec) (_ i : nat) =>
       SmoothingLDS.total (map (fun xbm => vnth xbm i) xb)) 1 k x) as H1.
  cbn [rsum] in H1. rewrite Rplus_0_l in H1. rewrite H1.
  rewrite (total_map_nth _ _ []). apply rsum_ext. intros b Hb.
  rewrite Rplus_0_l.
  pose proof (rsum2_total _ (fun (xbm : vec) (_ i : nat) => vnth xbm i) 1 k
                          (nth b x [])) as H2.
  cbn [rsum] in H2. rewrite Rplus_0_l in H2. rewrite H2.
  rewrite (total_map_nth _ _ []).
  rewrite Forall_forall in Hrect. rewrite (Hrect (nth b x [])) by now apply nth_In.
  apply rsum_ext. intros m Hm. lra.
Qed.

Lemma rsum2_nonneg B MC g :
  (forall b m, (b < B)%nat -> (m < MC)%nat -> 0 <= g b m) ->
  0 <= rsum B (fun b => rsum MC (fun m => g b m)).
Proof. intros H. apply rsum_nonneg. intros b Hb. apply rsum_nonneg. auto. Qed.

Lemma rsum2_zero B MC g :
  (forall b m, (b < B)%nat -> (m < MC)%nat -> g b m = 0) ->
  rsum B (fun b => rsum MC (fun m => g b m)) = 0.
Proof. intros H. apply rsum_zero. intros b Hb. apply rsum_zero. auto. Qed.

Lemma div_nonneg x n : 0 <= x -> 0 <= x / INR n.
Proof.
  intros Hx. destruct n as [|n].
  - simpl. unfold Rdiv. rewrite Rinv_0. lra.
  - apply Rmult_le_pos; [exact Hx|]. apply Rlt_le, Rinv_0_lt_compat.
    apply lt_0_INR. lia.
Qed.

Lemma row0_map (f : R -> R) (M : mat) : row0 (map (map f) M) = map f (row0 M).
Proof. unfold row0. now destruct M. Qed.

Lemma vnth_map (f : R -> R) (x : vec) i :
  (i < length x)%nat -> vnth (map f x) i = f (vnth x i).
Proof. intros Hi. unfold vnth. now apply nth_map_lt. Qed.

Lemma vnth_vmul n x y i : (i < n)%nat -> vnth (vmul n x y) i = vnth x i * vnth y i.
Proof. intros Hi. unfold vmul. now rewrite vnth_mkvec. Qed.

Lemma vnth_tensordot k m z W j :
  (j < m)%nat -> vnth (tensordot k m z W) j = rsum k (fun i => vnth z i * mget W i j).
Proof. intros Hj. unfold tensordot. now rewrite vnth_mkvec. Qed.

(** [sum_i (r Q)_i r_i] is the quadratic form of [Q] at [r]. *)
Lemma whitened_quad d Q r :
  rsum d (fun i => vnth (vmul d (tensordot d d r Q) r) i) = quad d Q r.
Proof.
  unfold quad. rewrite dot_mv_transpose, dot_comm. unfold dot.
  apply rsum_ext. intros i Hi.
  rewrite vnth_vmul, vnth_tensordot, vnth_mv by assumption.
  rewrite Rmult_comm. f_equal. apply rsum_ext. intros j Hj.
  rewrite mget_transpose by assumption. lra.
Qed.

Lemma broadcast_lead_same (A B C : Type) (f : A -> B -> C) xs ys :
  length xs = length ys -> broadcast_lead f xs ys = Ok (zip_with f xs ys).
Proof. intros H. unfold broadcast_lead. now rewrite H, Nat.eqb_refl. Qed.

Lemma Forall_length_nth (A : Type) (xs : list (list A)) n b :
  Forall (fun x => length x = n) xs -> (b < length xs)%nat ->
  length (nth b xs []) = n.
Proof.
  intros H Hb. rewrite Forall_forall in H. apply H. now apply nth_In.
Qed.

(* ================================================================== *)
(** * The log density of the generative model *)

Section LogDensityLemmas.
Variable matrix_determinant : mat -> R.
Variable self : GenerativeLDS.t.
Variable v : SmoothingLDS.model_vars.
Variable w : GenerativeLDS.mapping_vars.
Variables Q Q0 Qinv Q0inv : mat.
Local Abbreviation dz := (GenerativeLDS.dim_latent self).
Local Abbreviation dy := (GenerativeLDS.dim_obs self).
Local Abbreviation T := (GenerativeLDS.num_time_pts self).

Lemma vnth_obs_Rinv i :
  (i < length (row0 (GenerativeLDS.Rsqrt w)))%nat ->
  vnth (row0 (GenerativeLDS.obs_Rinv w)) i
  = 1 / (vnth (row0 (GenerativeLDS.Rsqrt w)) i * vnth (row0 (GenerativeLDS.Rsqrt w)) i).
Proof.
  intros Hi. unfold GenerativeLDS.obs_Rinv, GenerativeLDS.obs_R.
  rewrite !row0_map. rewrite vnth_map by now rewrite length_map.
  now rewrite vnth_map.
Qed.

Lemma likelihood_run (obs_ph : list (list vec)) (y : list (list (list vec)))
      (MC : nat) :
  length y = length obs_ph -> Forall (fun y_b => length y_b = MC) y ->
  length (row0 (GenerativeLDS.Rsqrt w)) = dy ->
  GenerativeLDS._log_density_likelihood self w obs_ph y
  = Ok (-0.5 * (rsum (length y) (fun b =>
                  rsum MC (fun m =>
                    rsum T (fun t =>
                      rsum dy (fun i =>
                        let r := vnth (nth t (nth b obs_ph []) []) i
                                 - vnth (nth t (nth m (nth b y []) []) []) i in
                        r * r * (1 / (vnth (row0 (GenerativeLDS.Rsqrt w)) i
                                      * vnth (row0 (GenerativeLDS.Rsqrt w)) i))))))
                / INR (length y * MC)
                + INR T * SmoothingLDS.reduce_sum
                            (map (map ln) (GenerativeLDS.obs_R w))
                + INR (T * dy) * ln (2 * PI))).
Proof.
  intros Hlen Hrect HR.
  unfold GenerativeLDS._log_density_likelihood, GenerativeLDS.res_y.
  rewrite broadcast_lead_same by congruence. cbn [bind].
  set (G := fun (obs_b : list vec) (y_b : list (list vec)) =>
              map (fun y_bm =>
                     map (fun t => vsub dy (nth t obs_b []) (nth t y_bm []))
                         (seq 0 T)) y_b).
  set (F := fun r : list R => vmul dy (vmul dy r r) (row0 (GenerativeLDS.obs_Rinv w))).
  assert (HlenX : length (map (map (map F)) (zip_with G obs_ph y)) = length y).
  { rewrite length_map, length_zip_with; congruence. }
  assert (HnthX : forall b, (b < length y)%nat ->
            nth b (map (map (map F)) (zip_with G obs_ph y)) []
            = map (fun y_bm =>
                     map (fun t => F (vsub dy (nth t (nth b obs_ph []) [])
                                           (nth t y_bm []))) (seq 0 T))
                  (nth b y [])).
  { intros b Hb.
    rewrite (nth_map_lt _ _ _ _ _ [] []) by (rewrite length_zip_with; congruence).
    rewrite (nth_zip_with _ _ _ _ _ _ _ [] []) by congruence.
    unfold G. rewrite map_map. apply map_ext. intros y_bm. now rewrite map_map. }
  rewrite (reduce_sum_mean01 T dy _ MC).
  2:{ apply (Forall_nth_lt _ _ _ []). intros b Hb. rewrite HlenX in Hb.
      rewrite HnthX by assumption. rewrite length_map.
      now apply Forall_length_nth. }
  rewrite HlenX.
  assert (Hden : (length y * length (nth 0 (map (map (map F)) (zip_with G obs_ph y)) []))%nat
                 = (length y * MC)%nat).
  { destruct y as [|y0 y']; [reflexivity|]. rewrite HnthX by (simpl; lia).
    rewrite length_map. cbn [nth]. apply Forall_inv in Hrect. now rewrite Hrect. }
  rewrite Hden.
  match goal with
  | |- Ok (-0.5 * (?s / _ + _ + _)) = Ok (-0.5 * (?s' / _ + _ + _)) =>
      replace s with s'; [reflexivity|]
  end.
  apply rsum_ext. intros b Hb. apply rsum_ext. intros m Hm.
  apply rsum_ext. intros t Ht. apply rsum_ext. intros i Hi.
  rewrite HnthX by assumption.
  rewrite (nth_map_lt _ _ _ _ _ [] [])
    by (rewrite (Forall_length_nth _ _ MC) by assumption; exact Hm).
  rewrite nth_map_seq by assumption. unfold F.
  rewrite !vnth_vmul, vnth_vsub by assumption.
  rewrite vnth_obs_Rinv by lia. reflexivity.
Qed.

Lemma prior_run (z : list (list (list vec))) (MC : nat) :
  (1 <= T)%nat -> Forall (fun z_b => length z_b = MC) z ->
  GenerativeLDS._log_density_prior matrix_determinant self v Q Q0 Qinv Q0inv z
  = Ok (-0.5 * (rsum (length z) (fun b =>
                  rsum MC (fun m =>
                    rsum (T - 1) (fun t =>
                      quad dz Qinv
                        (vsub dz (nth (S t) (nth m (nth b z []) []) [])
                                 (mv dz (SmoothingLDS.A v)
                                     (nth t (nth m (nth b z []) []) []))))))
                / INR (length z * MC)
                + rsum (length z) (fun b =>
                    rsum MC (fun m =>
                      quad dz Q0inv
                        (vsub dz (nth 0 (nth m (nth b z []) []) [])
                                 (row0 (SmoothingLDS.z0_mean v)))))
                  / INR (length z * MC)
                + IZR (Z.of_nat T - 1) * ln (matrix_determinant Q)
                + ln (matrix_determinant Q0)
                + INR (T * dz) * ln (2 * PI))).
Proof.
  intros HT Hrect. unfold GenerativeLDS._log_density_prior.
  destruct (Nat.eqb_spec T 0) as [H0|_]; [lia|].
  assert (Hden : forall (B : Type) (f : list (list vec) -> list B),
            (forall z_b, length (f z_b) = length z_b) ->
            (length z * length (nth 0 (map f z) []))%nat = (length z * MC)%nat).
  { intros B f Hf. destruct z as [|z0 z']; [reflexivity|].
    cbn [map nth]. rewrite Hf. apply Forall_inv in Hrect. now rewrite Hrect. }
  assert (Hrect' : forall (B : Type) (f : list (list vec) -> list B),
            (forall z_b, length (f z_b) = length z_b) ->
            Forall (fun x => length x = MC) (map f z)).
  { intros B f Hf. apply Forall_forall. intros x Hx.
    apply in_map_iff in Hx. destruct Hx as [z_b [<- Hz]].
    rewrite Hf. rewrite Forall_forall in Hrect. now apply Hrect. }
  rewrite !map_map.
  rewrite (reduce_sum_mean01 (T - 1) dz _ MC)
    by (apply Hrect'; intros; now rewrite !length_map).
  rewrite (total_mean01_vec dz _ MC)
    by (apply Hrect'; intros; now rewrite !length_map).
  rewrite !length_map.
  rewrite !Hden by (intros; now rewrite !length_map).
  match goal with
  | |- Ok (-0.5 * (?s1 / _ + ?s2 / _ + _ + _ + _))
       = Ok (-0.5 * (?t1 / _ + ?t2 / _ + _ + _ + _)) =>
      replace s1 with t1; [replace s2 with t2; [reflexivity|]|]
  end.
  - apply rsum_ext. intros b Hb. apply rsum_ext. intros m Hm.
    rewrite <- whitened_quad. apply rsum_ext. intros i Hi.
    rewrite (nth_map_lt _ _ _ _ _ [] []) by assumption.
    rewrite map_map.
    rewrite (nth_map_lt _ _ _ _ _ [] [])
      by now rewrite (Forall_length_nth _ _ MC).
    reflexivity.
  - apply rsum_ext. intros b Hb. apply rsum_ext. intros m Hm.
    apply rsum_ext. intros t Ht.
    rewrite <- whitened_quad. apply rsum_ext. intros i Hi.
    rewrite (nth_map_lt _ _ _ _ _ [] []) by assumption.
    rewrite !map_map.
    rewrite (nth_map_lt _ _ _ _ _ [] [])
      by now rewrite (Forall_length_nth _ _ MC).
    rewrite map_map, nth_map_seq by assumption.
    now rewrite tensordot_transpose.
Qed.

End LogDensityLemmas.

Lemma vsub_zero_iff d x y :
  vsub d x y = vzero d <-> forall i, (i < d)%nat -> vnth x i = vnth y i.
Proof.
  split.
  - intros H i Hi. apply (f_equal (fun u => vnth u i)) in H.
    rewrite vnth_vsub, vnth_vzero in H by assumption. lra.
  - intros H. unfold vsub, vzero. apply mkvec_ext. intros i Hi.
    rewrite (H i Hi). lra.
Qed.

(** A mean of non-negative terms over a non-empty batch vanishes exactly
    when every term does. *)
Lemma mean_zero_iff B MC g :
  (1 <= B)%nat -> (1 <= MC)%nat ->
  (forall b m, (b < B)%nat -> (m < MC)%nat -> 0 <= g b m) ->
  (rsum B (fun b => rsum MC (fun m => g b m)) / INR (B * MC) = 0
   <-> forall b m, (b < B)%nat -> (m < MC)%nat -> g b m = 0).
Proof.
  intros HB HMC Hg.
  assert (HN : 0 < INR (B * MC)) by (apply lt_0_INR; nia).
  split.
  - intros H b m Hb Hm.
    assert (Hs : rsum B (fun b => rsum MC (fun m => g b m)) = 0).
    { unfold Rdiv in H. apply Rmult_integral in H. destruct H as [H|H]; [exact H|].
      pose proof (Rinv_0_lt_compat _ HN). lra. }
    assert (Hrow : forall b, (b < B)%nat -> 0 <= rsum MC (fun m => g b m))
      by (intros; apply rsum_nonneg; intros; now apply Hg).
    pose proof (rsum_nonneg_zero B (fun b => rsum MC (fun m => g b m)) Hrow Hs b Hb)
      as Hb0.
    cbv beta in Hb0.
    exact (rsum_nonneg_zero MC (fun m => g b m) (fun m Hm' => Hg b m Hb Hm') Hb0 m Hm).
  - intros H. rewrite rsum2_zero by assumption. unfold Rdiv. lra.
Qed.

Lemma mean_nonneg B MC g :
  (forall b m, (b < B)%nat -> (m < MC)%nat -> 0 <= g b m) ->
  0 <= rsum B (fun b => rsum MC (fun m => g b m)) / INR (B * MC).
Proof. intros H. apply div_nonneg. now apply rsum2_nonneg. Qed.

Lemma whitened_square_nonneg r s : s <> 0 -> 0 <= r * r * (1 / (s * s)).
Proof.
  intros Hs. apply Rmult_le_pos; [nra|].
  assert (0 < s * s) by nra.
  apply Rlt_le. unfold Rdiv. rewrite Rmult_1_l. now apply Rinv_0_lt_compat.
Qed.

Lemma whitened_square_zero r s : s <> 0 -> r * r * (1 / (s * s)) = 0 -> r = 0.
Proof.
  intros Hs H. assert (Hss : 0 < s * s) by nra.
  pose proof (Rinv_0_lt_compat _ Hss) as Hi.
  unfold Rdiv in H. rewrite Rmult_1_l in H.
  apply Rmult_integral in H. destruct H as [H|H]; [nra|lra].
Qed.

(** X1.  [LDS._log_density_likelihood], for a non-empty batch of
    observations, at least one Monte Carlo sample and an observation noise
    [Rsqrt] without a zero entry: the value is at most
    [-0.5 (T sum(log R) + T dim_obs log(2 pi))], and it is that constant
    exactly when every prediction equals its observation. *)
Theorem lds_likelihood_bounded (self : GenerativeLDS.t)
        (w : GenerativeLDS.mapping_vars)
        (obs_ph : list (list vec)) (y : list (list (list vec))) (MC : nat) :
  let dy := GenerativeLDS.dim_obs self in
  let T := GenerativeLDS.num_time_pts self in
  let constant :=
    -0.5 * (INR T * SmoothingLDS.reduce_sum (map (map ln) (GenerativeLDS.obs_R w))
            + INR (T * dy) * ln (2 * PI)) in
  obs_ph <> [] -> length y = length obs_ph ->
  (1 <= MC)%nat -> Forall (fun y_b => length y_b = MC) y ->
  length (row0 (GenerativeLDS.Rsqrt w)) = dy ->
  (forall i, (i < dy)%nat -> vnth (row0 (GenerativeLDS.Rsqrt w)) i <> 0) ->
  exists log_density_y,
    GenerativeLDS._log_density_likelihood self w obs_ph y = Ok log_density_y /\
    log_density_y <= constant /\
    (log_density_y = constant <->
     forall b m t i,
       (b < length y)%nat -> (m < MC)%nat -> (t < T)%nat -> (i < dy)%nat ->
       vnth (nth t (nth m (nth b y []) []) []) i
       = vnth (nth t (nth b obs_ph []) []) i).
Proof.
  cbv zeta. intros Hne Hlen HMC Hrect HR Hs.
  rewrite (likelihood_run self w obs_ph y MC Hlen Hrect HR).
  eexists. split; [reflexivity|].
  set (g := fun b m =>
    rsum (GenerativeLDS.num_time_pts self) (fun t =>
      rsum (GenerativeLDS.dim_obs self) (fun i =>
        let r := vnth (nth t (nth b obs_ph []) []) i
                 - vnth (nth t (nth m (nth b y []) []) []) i in
        r * r * (1 / (vnth (row0 (GenerativeLDS.Rsqrt w)) i
                      * vnth (row0 (GenerativeLDS.Rsqrt w)) i))))).
  change (rsum (length y) _) with (rsum (length y) (fun b => rsum MC (fun m => g b m))).
  assert (HB : (1 <= length y)%nat).
  { rewrite Hlen. destruct obs_ph; [congruence|simpl; lia]. }
  assert (Hterm : forall t i, (i < GenerativeLDS.dim_obs self)%nat ->
            forall b m,
            0 <= (let r := vnth (nth t (nth b obs_ph []) []) i
                           - vnth (nth t (nth m (nth b y []) []) []) i in
                  r * r * (1 / (vnth (row0 (GenerativeLDS.Rsqrt w)) i
                                * vnth (row0 (GenerativeLDS.Rsqrt w)) i)))).
  { intros t i Hi b m. cbv zeta. apply whitened_square_nonneg. now apply Hs. }
  assert (Hg : forall b m, (b < length y)%nat -> (m < MC)%nat -> 0 <= g b m).
  { intros b m _ _. unfold g. apply rsum_nonneg. intros t _.
    apply rsum_nonneg. intros i Hi. now apply Hterm. }
  pose proof (mean_nonneg (length y) MC g Hg) as Hmean.
  pose proof (mean_zero_iff (length y) MC g HB HMC Hg) as Hiff.
  split; [lra|].
  split.
  - intros Heq b m t i Hb Hm Ht Hi.
    assert (H0 : rsum (length y) (fun b => rsum MC (fun m => g b m))
                 / INR (length y * MC) = 0) by lra.
    pose proof (proj1 Hiff H0 b m Hb Hm) as Hgbm. unfold g in Hgbm.
    pose proof (fun Hnn => rsum_nonneg_zero _ _ Hnn Hgbm t Ht) as Ht0.
    cbv beta in Ht0.
    specialize (Ht0 ltac:(intros; apply rsum_nonneg; intros; now apply Hterm)).
    pose proof (fun Hnn => rsum_nonneg_zero _ _ Hnn Ht0 i Hi) as Hi0.
    cbv beta in Hi0. specialize (Hi0 ltac:(intros; now apply Hterm)).
    cbv beta zeta in Hi0. apply whitened_square_zero in Hi0; [lra|now apply Hs].
  - intros Hall.
    assert (H0 : rsum (length y) (fun b => rsum MC (fun m => g b m))
                 / INR (length y * MC) = 0).
    { apply (proj2 Hiff). intros b m Hb Hm. unfold g.
      apply rsum_zero. intros t Ht. apply rsum_zero. intros i Hi. cbv zeta.
      rewrite (Hall b m t i) by assumption. lra. }
    lra.
Qed.

(** One observed sequence of one step, predicted exactly, with unit
    observation noise. *)
Lemma lds_likelihood_bounded_witness :
  let self := GenerativeLDS.Build 1 1 None 1 [] in
  let w := GenerativeLDS.Mapping [[1]] [[1]] [[0]] in
  [ [ [2] ] ] <> @nil (list (list R)) /\
  (1 <= 1)%nat /\
  length (row0 (GenerativeLDS.Rsqrt w)) = GenerativeLDS.dim_obs self /\
  (forall i, (i < GenerativeLDS.dim_obs self)%nat ->
             vnth (row0 (GenerativeLDS.Rsqrt w)) i <> 0) /\
  exists log_density_y,
    GenerativeLDS._log_density_likelihood self w [ [ [2] ] ] [ [ [ [2] ] ] ]
    = Ok log_density_y /\
    log_density_y
    <= -0.5 * (INR 1 * SmoothingLDS.reduce_sum
                         (map (map ln) (GenerativeLDS.obs_R w))
               + INR (1 * 1) * ln (2 * PI)).
Proof.
  cbv zeta.
  assert (Hne : [ [ [2] ] ] <> @nil (list (list R))) by discriminate.
  assert (HMC : (1 <= 1)%nat) by lia.
  assert (HR : length (row0 (GenerativeLDS.Rsqrt
                               (GenerativeLDS.Mapping [[1]] [[1]] [[0]])))
               = GenerativeLDS.dim_obs (GenerativeLDS.Build 1 1 None 1 []))
    by reflexivity.
  assert (Hs : forall i,
             (i < GenerativeLDS.dim_obs (GenerativeLDS.Build 1 1 None 1 []))%nat ->
             vnth (row0 (GenerativeLDS.Rsqrt
                           (GenerativeLDS.Mapping [[1]] [[1]] [[0]]))) i <> 0).
  { intros i Hi. simpl in Hi. assert (i = 0%nat) as -> by lia.
    cbv [GenerativeLDS.Rsqrt row0 nth vnth]. lra. }
  split; [exact Hne|]. split; [exact HMC|]. split; [exact HR|]. split; [exact Hs|].
  destruct (lds_likelihood_bounded
              (GenerativeLDS.Build 1 1 None 1 [])
              (GenerativeLDS.Mapping [[1]] [[1]] [[0]])
              [ [ [2] ] ] [ [ [ [2] ] ] ] 1
              Hne eq_refl HMC ltac:(repeat constructor) HR Hs)
    as (ld & Hrun & Hle & _).
  exists ld. split; [exact Hrun|exact Hle].
Defined.

(** X2.  [LDS._log_density_prior], for at least one time step, a
    non-empty batch, at least one Monte Carlo sample and positive definite
    [Qinv] and [Q0inv]: the value is at most
    [-0.5 ((T - 1) log det Q + log det Q0 + T dim_latent log(2 pi))], and
    it is that constant exactly when every trajectory starts at [z0_mean]
    and follows [z_(t+1) = A z_t]. *)
Theorem lds_prior_bounded (matrix_determinant : mat -> R)
        (self : GenerativeLDS.t) (v : SmoothingLDS.model_vars)
        (Q Q0 Qinv Q0inv : mat) (z : list (list (list vec))) (MC : nat) :
  let dz := GenerativeLDS.dim_latent self in
  let T := GenerativeLDS.num_time_pts self in
  let constant :=
    -0.5 * (IZR (Z.of_nat T - 1) * ln (matrix_determinant Q)
            + ln (matrix_determinant Q0)
            + INR (T * dz) * ln (2 * PI)) in
  (1 <= T)%nat -> z <> [] ->
  (1 <= MC)%nat -> Forall (fun z_b => length z_b = MC) z ->
  posdef dz Qinv -> posdef dz Q0inv ->
  exists log_density_z,
    GenerativeLDS._log_density_prior matrix_determinant self v Q Q0 Qinv Q0inv z
    = Ok log_density_z /\
    log_density_z <= constant /\
    (log_density_z = constant <->
     forall b m, (b < length z)%nat -> (m < MC)%nat ->
       let z_bm := nth m (nth b z []) [] in
       (forall i, (i < dz)%nat ->
          vnth (nth 0 z_bm []) i = vnth (row0 (SmoothingLDS.z0_mean v)) i) /\
       (forall t i, (S t < T)%nat -> (i < dz)%nat ->
          vnth (nth (S t) z_bm []) i
          = vnth (mv dz (SmoothingLDS.A v) (nth t z_bm [])) i)).
Proof.
  cbv zeta. intros HT Hne HMC Hrect HQ HQ0.
  rewrite (prior_run matrix_determinant self v Q Q0 Qinv Q0inv z MC HT Hrect).
  eexists. split; [reflexivity|].
  set (g := fun b m =>
    rsum (GenerativeLDS.num_time_pts self - 1) (fun t =>
      quad (GenerativeLDS.dim_latent self) Qinv
        (vsub (GenerativeLDS.dim_latent self)
              (nth (S t) (nth m (nth b z []) []) [])
              (mv (GenerativeLDS.dim_latent self) (SmoothingLDS.A v)
                  (nth t (nth m (nth b z []) []) []))))).
  set (g0 := fun b m =>
    quad (GenerativeLDS.dim_latent self) Q0inv
      (vsub (GenerativeLDS.dim_latent self)
            (nth 0 (nth m (nth b z []) []) [])
            (row0 (SmoothingLDS.z0_mean v)))).
  change (rsum (length z) (fun b => rsum MC (fun m => rsum _ _)))
    with (rsum (length z) (fun b => rsum MC (fun m => g b m))).
  change (rsum (length z) (fun b => rsum MC (fun m => quad _ _ _)))
    with (rsum (length z) (fun b => rsum MC (fun m => g0 b m))).
  assert (HB : (1 <= length z)%nat) by (destruct z; [congruence|simpl; lia]).
  assert (Hg : forall b m, (b < length z)%nat -> (m < MC)%nat -> 0 <= g b m).
  { intros b m _ _. unfold g. apply rsum_nonneg. intros t _.
    apply posdef_nonneg; [assumption|apply wf_vsub]. }
  assert (Hg0 : forall b m, (b < length z)%nat -> (m < MC)%nat -> 0 <= g0 b m).
  { intros b m _ _. unfold g0. apply posdef_nonneg; [assumption|apply wf_vsub]. }
  pose proof (mean_nonneg (length z) MC g Hg) as Hmean.
  pose proof (mean_nonneg (length z) MC g0 Hg0) as Hmean0.
  pose proof (mean_zero_iff (length z) MC g HB HMC Hg) as Hiff.
  pose proof (mean_zero_iff (length z) MC g0 HB HMC Hg0) as Hiff0.
  split; [lra|].
  split.
  - intros Heq b m Hb Hm.
    assert (H1 : rsum (length z) (fun b => rsum MC (fun m => g b m))
                 / INR (length z * MC) = 0) by lra.
    assert (H2 : rsum (length z) (fun b => rsum MC (fun m => g0 b m))
                 / INR (length z * MC) = 0) by lra.
    pose proof (proj1 Hiff H1 b m Hb Hm) as Hgbm.
    pose proof (proj1 Hiff0 H2 b m Hb Hm) as Hg0bm.
    split.
    + unfold g0 in Hg0bm. apply posdef_zero in Hg0bm;
        [|assumption|apply wf_vsub].
      now apply vsub_zero_iff.
    + intros t i Ht Hi. unfold g in Hgbm.
      pose proof (fun Hnn => rsum_nonneg_zero _ _ Hnn Hgbm t ltac:(lia)) as Ht0.
      cbv beta in Ht0.
      specialize (Ht0 ltac:(intros; apply posdef_nonneg; [assumption|apply wf_vsub])). apply posdef_zero in Ht0; [|assumption|apply wf_vsub].
      now apply (proj1 (vsub_zero_iff _ _ _) Ht0).
  - intros Hall.
    assert (H1 : rsum (length z) (fun b => rsum MC (fun m => g b m))
                 / INR (length z * MC) = 0).
    { apply (proj2 Hiff). intros b m Hb Hm. unfold g.
      apply rsum_zero. intros t Ht.
      destruct (Hall b m Hb Hm) as [_ Hdyn].
      rewrite (proj2 (vsub_zero_iff _ _ _)
                 (fun i Hi => Hdyn t i ltac:(lia) Hi)).
      apply quad_vzero. }
    assert (H2 : rsum (length z) (fun b => rsum MC (fun m => g0 b m))
                 / INR (length z * MC) = 0).
    { apply (proj2 Hiff0). intros b m Hb Hm. unfold g0.
      destruct (Hall b m Hb Hm) as [Hinit _].
      rewrite (proj2 (vsub_zero_iff _ _ _) Hinit). apply quad_vzero. }
    lra.
Qed.

(** [lds_prior_bounded] on one trajectory of two steps in one latent
    dimension, with [Qinv = Q0inv = 1]. *)
Lemma lds_prior_bounded_witness :
  let self := GenerativeLDS.Build 1 1 None 2 [] in
  let v := SmoothingLDS.Vars [[0]] [[1]] [[1]] [[1]] in
  let det := fun M : list (list R) => mget M 0 0 in
  (1 <= GenerativeLDS.num_time_pts self)%nat /\
  [ [ [ [0]; [0] ] ] ] <> [] /\
  (1 <= 1)%nat /\
  Forall (fun z_b : list (list (list R)) => length z_b = 1%nat) [ [ [ [0]; [0] ] ] ] /\
  posdef 1 [[1]] /\
  exists log_density_z,
    GenerativeLDS._log_density_prior det self v [[1]] [[1]] [[1]] [[1]]
      [ [ [ [0]; [0] ] ] ] = Ok log_density_z /\
    log_density_z
    <= -0.5 * (IZR (Z.of_nat 2 - 1) * ln (det [[1]]) + ln (det [[1]])
               + INR (2 * 1) * ln (2 * PI)).
Proof.
  cbv zeta.
  assert (HT : (1 <= GenerativeLDS.num_time_pts (GenerativeLDS.Build 1 1 None 2 []))%nat)
    by (simpl; lia).
  assert (Hne : [ [ [ [0]; [0] ] ] ] <> ([] : list (list (list (list R)))))
    by discriminate.
  assert (HMC : (1 <= 1)%nat) by lia.
  assert (Hrect : Forall (fun z_b : list (list (list R)) => length z_b = 1%nat)
                         [ [ [ [0]; [0] ] ] ]) by (repeat constructor).
  assert (Hpd : posdef 1 [[1]])
    by (apply (spd_1_of_positive 1); lra).
  split; [exact HT|]. split; [exact Hne|]. split; [exact HMC|].
  split; [exact Hrect|]. split; [exact Hpd|].
  destruct (lds_prior_bounded (fun M : list (list R) => mget M 0 0)
              (GenerativeLDS.Build 1 1 None 2 [])
              (SmoothingLDS.Vars [[0]] [[1]] [[1]] [[1]])
              [[1]] [[1]] [[1]] [[1]] [ [ [ [0]; [0] ] ] ] 1
              HT Hne HMC Hrect Hpd Hpd)
    as (ld & Hrun & Hle & _).
  exists ld. split; [exact Hrun|exact Hle].
Defined.

(** X3.  [LDS._sample_yz], for at least two time steps and noise tensors
    of [num_samples] sequences of [T] steps: it returns [num_samples]
    latent and observed trajectories of [T] steps, and every one of them
    satisfies, on its own noise, [z_1 = z0_mean + Q0_sqrt e_1],
    [z_(t+1) = A z_t + Q_sqrt e_(t+1)] and
    [y_t = z_t C + d + n_t * Rsqrt]. *)
Theorem lds_sample_follows_dynamics (self : GenerativeLDS.t)
        (v : SmoothingLDS.model_vars) (w : GenerativeLDS.mapping_vars)
        (num_samples : nat) (latent_rand_samples obs_rand_samples : list (list vec)) :
  let dz := GenerativeLDS.dim_latent self in
  let dy := GenerativeLDS.dim_obs self in
  let T := GenerativeLDS.num_time_pts self in
  (2 <= T)%nat ->
  length latent_rand_samples = num_samples ->
  length obs_rand_samples = num_samples ->
  Forall (fun s => length s = T) latent_rand_samples ->
  Forall (fun s => length s = T) obs_rand_samples ->
  exists zs ys,
    GenerativeLDS._sample_yz self v w num_samples
      latent_rand_samples obs_rand_samples
    = Ok (GenerativeLDS.Samples zs ys) /\
    length zs = num_samples /\ length ys = num_samples /\
    forall b, (b < num_samples)%nat ->
      length (nth b zs []) = T /\ length (nth b ys []) = T /\
      nth 0 (nth b zs []) []
      = vadd dz (row0 (SmoothingLDS.z0_mean v))
             (mv dz (SmoothingLDS.Q0_sqrt v)
                 (nth 0 (nth b latent_rand_samples []) [])) /\
      (forall t, (S t < T)%nat ->
         nth (S t) (nth b zs []) []
         = vadd dz (mv dz (SmoothingLDS.A v) (nth t (nth b zs []) []))
                (mv dz (SmoothingLDS.Q_sqrt v)
                    (nth (S t) (nth b latent_rand_samples []) []))) /\
      (forall t, (t < T)%nat ->
         nth t (nth b ys []) []
         = vadd dy
             (vadd dy (tensordot dz dy (nth t (nth b zs []) []) (GenerativeLDS.C w))
                   (row0 (GenerativeLDS.d w)))
             (vmul dy (nth t (nth b obs_rand_samples []) [])
                   (row0 (GenerativeLDS.Rsqrt w)))).
Proof.
  cbv zeta. intros HT Hlat Hobs _ _.
  apply sample_yz_paths; [lia|assumption|assumption].
Qed.

(** [lds_sample_follows_dynamics] on one sample of two steps in one
    dimension. *)
Lemma lds_sample_follows_dynamics_witness :
  let self := GenerativeLDS.Build 1 1 None 2 [] in
  let v := SmoothingLDS.Vars [[0]] [[1]] [[1]] [[1]] in
  let w := GenerativeLDS.Mapping [[1]] [[1]] [[0]] in
  (2 <= GenerativeLDS.num_time_pts self)%nat /\
  length [ [ [1]; [2] ] ] = 1%nat /\
  Forall (fun s : list (list R) => length s = 2%nat) [ [ [1]; [2] ] ] /\
  exists zs ys,
    GenerativeLDS._sample_yz self v w 1 [ [ [1]; [2] ] ] [ [ [1]; [2] ] ]
    = Ok (GenerativeLDS.Samples zs ys) /\
    length zs = 1%nat /\ length ys = 1%nat.
Proof.
  cbv zeta.
  assert (HT : (2 <= GenerativeLDS.num_time_pts (GenerativeLDS.Build 1 1 None 2 []))%nat)
    by (simpl; lia).
  assert (Hlen : length [ [ [1]; [2] ] ] = 1%nat) by reflexivity.
  assert (Hrect : Forall (fun s : list (list R) => length s = 2%nat) [ [ [1]; [2] ] ])
    by (repeat constructor).
  split; [exact HT|]. split; [exact Hlen|]. split; [exact Hrect|].
  destruct (lds_sample_follows_dynamics
              (GenerativeLDS.Build 1 1 None 2 [])
              (SmoothingLDS.Vars [[0]] [[1]] [[1]] [[1]])
              (GenerativeLDS.Mapping [[1]] [[1]] [[0]])
              1 [ [ [1]; [2] ] ] [ [ [1]; [2] ] ] HT Hlen Hlen Hrect Hrect)
    as (zs & ys & Hrun & Hz & Hy & _).
  exists zs, ys. split; [exact Hrun|]. split; [exact Hz|exact Hy].
Defined.

Lemma vnth_mv_zero d M x i :
  (forall j, vnth x j = 0) -> (i < d)%nat -> vnth (mv d M x) i = 0.
Proof.
  intros Hx Hi. rewrite vnth_mv by assumption. apply rsum_zero.
  intros j _. rewrite Hx. lra.
Qed.

(** X4.  Sampling composed with the prior density: the trajectories
    [LDS._sample_yz] returns when the latent noise drawn is zero, fed to
    [LDS._log_density_prior] with one Monte Carlo sample each, attain the
    constant that bounds the prior density, whatever [Q], [Q0] and their
    inverses are. *)
Theorem lds_noise_free_sample_attains_prior_bound
        (matrix_determinant : mat -> R)
        (self : GenerativeLDS.t)
        (v : SmoothingLDS.model_vars) (w : GenerativeLDS.mapping_vars)
        (Q Q0 Qinv Q0inv : mat)
        (num_samples : nat) (latent_rand_samples obs_rand_samples : list (list vec)) :
  let dz := GenerativeLDS.dim_latent self in
  let T := GenerativeLDS.num_time_pts self in
  (2 <= T)%nat -> (1 <= num_samples)%nat ->
  length latent_rand_samples = num_samples ->
  length obs_rand_samples = num_samples ->
  (forall b t i, vnth (nth t (nth b latent_rand_samples []) []) i = 0) ->
  exists zs ys,
    GenerativeLDS._sample_yz self v w num_samples
      latent_rand_samples obs_rand_samples
    = Ok (GenerativeLDS.Samples zs ys) /\
    GenerativeLDS._log_density_prior matrix_determinant self v Q Q0 Qinv Q0inv
      (map (fun z_b => [z_b]) zs)
    = Ok (-0.5 * (IZR (Z.of_nat T - 1) * ln (matrix_determinant Q)
                  + ln (matrix_determinant Q0)
                  + INR (T * dz) * ln (2 * PI))).
Proof.
  cbv zeta. intros HT HN Hlat Hobs Hzero.
  destruct (sample_yz_paths self v w num_samples latent_rand_samples
              obs_rand_samples ltac:(lia) Hlat Hobs)
    as (zs & ys & Hrun & Hlenz & _ & Hpaths).
  exists zs, ys. split; [exact Hrun|].
  rewrite (prior_run matrix_determinant self v Q Q0 Qinv Q0inv _ 1);
    [|lia|apply Forall_forall; intros x Hx; apply in_map_iff in Hx;
          destruct Hx as [z_b [<- _]]; reflexivity].
  rewrite length_map.
  assert (Hnth : forall b, (b < length zs)%nat ->
            nth 0 (nth b (map (fun z_b : list (list R) => [z_b]) zs) []) []
            = nth b zs []).
  { intros b Hb. now rewrite (nth_map_lt _ _ _ _ _ [] []) by assumption. }
  rewrite (rsum2_zero (length zs) 1).
  2:{ intros b m Hb Hm. assert (m = 0%nat) as -> by lia. rewrite Hnth by assumption.
      apply rsum_zero. intros t Ht.
      destruct (Hpaths b ltac:(lia)) as (_ & _ & _ & Hdyn & _).
      rewrite (proj2 (vsub_zero_iff _ _ _)); [apply quad_vzero|].
      intros i Hi. rewrite (Hdyn t) by lia.
      rewrite vnth_vadd by assumption.
      rewrite (vnth_mv_zero _ (SmoothingLDS.Q_sqrt v)) by (auto; assumption). lra. }
  rewrite (rsum2_zero (length zs) 1).
  2:{ intros b m Hb Hm. assert (m = 0%nat) as -> by lia. rewrite Hnth by assumption.
      destruct (Hpaths b ltac:(lia)) as (_ & _ & Hinit & _).
      rewrite (proj2 (vsub_zero_iff _ _ _)); [apply quad_vzero|].
      intros i Hi. rewrite Hinit. rewrite vnth_vadd by assumption.
      rewrite (vnth_mv_zero _ (SmoothingLDS.Q0_sqrt v)) by (auto; assumption). lra. }
  f_equal. unfold Rdiv. lra.
Qed.

(** [lds_noise_free_sample_attains_prior_bound] on one sample of two
    steps in one dimension. *)
Lemma lds_noise_free_sample_attains_prior_bound_witness :
  let self := GenerativeLDS.Build 1 1 None 2 [] in
  let v := SmoothingLDS.Vars [[3]] [[2]] [[1]] [[1]] in
  let w := GenerativeLDS.Mapping [[1]] [[1]] [[0]] in
  let det := fun M : list (list R) => mget M 0 0 in
  (2 <= GenerativeLDS.num_time_pts self)%nat /\ (1 <= 1)%nat /\
  length [ [ [0]; [0] ] ] = 1%nat /\
  (forall b t i, vnth (nth t (nth b [ [ [0]; [0] ] ] []) []) i = 0) /\
  exists zs ys,
    GenerativeLDS._sample_yz self v w 1 [ [ [0]; [0] ] ] [ [ [0]; [0] ] ]
    = Ok (GenerativeLDS.Samples zs ys) /\
    GenerativeLDS._log_density_prior det self v [[1]] [[1]] [[1]] [[1]]
      (map (fun z_b => [z_b]) zs)
    = Ok (-0.5 * (IZR (Z.of_nat 2 - 1) * ln (det [[1]]) + ln (det [[1]])
                  + INR (2 * 1) * ln (2 * PI))).
Proof.
  cbv zeta.
  assert (HT : (2 <= GenerativeLDS.num_time_pts (GenerativeLDS.Build 1 1 None 2 []))%nat)
    by (simpl; lia).
  assert (HN : (1 <= 1)%nat) by lia.
  assert (Hlen : length [ [ [0]; [0] ] ] = 1%nat) by reflexivity.
  assert (Hzero : forall b t i, vnth (nth t (nth b [ [ [0]; [0] ] ] []) []) i = 0).
  { intros [|[|b]] [|[|[|t]]] [|[|i]]; reflexivity. }
  split; [exact HT|]. split; [exact HN|]. split; [exact Hlen|].
  split; [exact Hzero|].
  exact (lds_noise_free_sample_attains_prior_bound
           (fun M : list (list R) => mget M 0 0)
           (GenerativeLDS.Build 1 1 None 2 [])
           (SmoothingLDS.Vars [[3]] [[2]] [[1]] [[1]])
           (GenerativeLDS.Mapping [[1]] [[1]] [[0]])
           [[1]] [[1]] [[1]] [[1]] 1 [ [ [0]; [0] ] ] [ [ [0]; [0] ] ]
           HT HN Hlen Hlen Hzero).
Defined.

(* ================================================================== *)
(** * Parameters handed from one model to another *)

(** X6.  The dict [LDS.get_params] returns, handed as [gen_params] to a
    new [LDS]: [initialize_prior_vars] and [_initialize_mapping] recover
    [A], [z0_mean], [C] and [d], but read none of the keys [Q], [Q0] and
    [R]: [Q_sqrt] and [Q0_sqrt] are back at [0.1 I] and [Rsqrt] is drawn
    anew. *)
Theorem lds_get_params_round_trip
        (tr_norm_initializer : string -> nat -> nat -> mat)
        (self : GenerativeLDS.t)
        (v : SmoothingLDS.model_vars) (w : GenerativeLDS.mapping_vars)
        (Q Q0 : mat) :
  let dz := GenerativeLDS.dim_latent self in
  let dy := GenerativeLDS.dim_obs self in
  let params := GenerativeLDS.get_params v w Q Q0 in
  let self' := GenerativeLDS.init dy dz None (GenerativeLDS.num_time_pts self)
                                  (Some params) in
  let v' := GenerativeLDS.initialize_prior_vars self' in
  let w' := GenerativeLDS._initialize_mapping tr_norm_initializer self' in
  SmoothingLDS.A v' = SmoothingLDS.A v /\
  SmoothingLDS.z0_mean v' = SmoothingLDS.z0_mean v /\
  GenerativeLDS.C w' = GenerativeLDS.C w /\
  GenerativeLDS.d w' = GenerativeLDS.d w /\
  SmoothingLDS.Q_sqrt v' = mscale dz 0.1 (eye dz) /\
  SmoothingLDS.Q0_sqrt v' = mscale dz 0.1 (eye dz) /\
  GenerativeLDS.Rsqrt w' = tr_norm_initializer "Rsqrt"%string 1%nat dy.
Proof. cbv zeta. repeat split; reflexivity. Qed.

(** X7.  The dict [SmoothingLDS.get_params] returns, handed as
    [gen_params] to an [LDSCoupled] of the same latent dimension:
    [LDSCoupled.initialize_prior_vars] returns the variables of the
    smoother and the very [Q], [Q0], [Qinv] and [Q0inv] it derives from
    them, and [SmoothingLDSCoupled.build_graph] on that tuple builds the
    graph of [SmoothingLDS.build_graph]; handed to an [LDS] instead, the
    covariance is the smoother's plus the jitter. *)
Theorem smoothing_get_params_round_trip
        (cholesky : mat -> result mat)
        (triangular_solve : mat -> vec -> bool -> vec)
        (matrix_inverse : mat -> mat)
        (inference_mlp : list (list vec) -> list (list vec) * list (list mat))
        (self : SmoothingLDS.t) (v : SmoothingLDS.model_vars)
        (dim_obs : nat) (observations : list (list vec)) :
  let dz := SmoothingLDS.dim_latent self in
  let params := SmoothingLDSParams.get_params self v in
  let gen := GenerativeLDS.init dim_obs dz None (SmoothingLDS.num_time_pts self)
                                (Some params) in
  let p := GenerativeLDSCoupled.initialize_prior_vars matrix_inverse gen in
  GenerativeLDSCoupled.z0_mean p = SmoothingLDS.z0_mean v /\
  GenerativeLDSCoupled.A p = SmoothingLDS.A v /\
  GenerativeLDSCoupled.Q_sqrt p = SmoothingLDS.Q_sqrt v /\
  GenerativeLDSCoupled.Q0_sqrt p = SmoothingLDS.Q0_sqrt v /\
  GenerativeLDSCoupled.Q p = SmoothingLDS.Q self v /\
  GenerativeLDSCoupled.Q0 p = SmoothingLDS.Q0 self v /\
  GenerativeLDSCoupled.Qinv p = SmoothingLDS.Qinv self matrix_inverse v /\
  GenerativeLDSCoupled.Q0inv p = SmoothingLDS.Q0inv self matrix_inverse v /\
  SmoothingLDSCoupled.build_graph cholesky triangular_solve inference_mlp self
    (GenerativeLDSCoupled.z0_mean p) (GenerativeLDSCoupled.A p)
    (GenerativeLDSCoupled.Q_sqrt p) (GenerativeLDSCoupled.Q p)
    (GenerativeLDSCoupled.Qinv p) (GenerativeLDSCoupled.Q0_sqrt p)
    (GenerativeLDSCoupled.Q0 p) (GenerativeLDSCoupled.Q0inv p) observations
  = SmoothingLDS.build_graph cholesky triangular_solve matrix_inverse
      inference_mlp self v observations /\
  LDS.Q dz (SmoothingLDS.Q_sqrt (GenerativeLDS.initialize_prior_vars gen))
  = madd dz (SmoothingLDS.Q self v) (mscale dz 1e-6 (eye dz)).
Proof. cbv zeta. repeat split; reflexivity. Qed.

(** X8.  With no [gen_params], the tuple of
    [LDSCoupled.initialize_prior_vars] handed to
    [SmoothingLDSCoupled.build_graph] builds the graph
    [SmoothingLDS.build_graph] builds from its own initial variables: the
    two initialisers agree on [A = 0.5 I] and [Q_sqrt = Q0_sqrt = I] and
    on the covariances without jitter. *)
Theorem coupled_defaults_agree
        (cholesky : mat -> result mat)
        (triangular_solve : mat -> vec -> bool -> vec)
        (matrix_inverse : mat -> mat)
        (inference_mlp : list (list vec) -> list (list vec) * list (list mat))
        (self : SmoothingLDS.t) (dim_obs : nat) (observations : list (list vec)) :
  let gen := GenerativeLDS.init dim_obs (SmoothingLDS.dim_latent self) None
                                (SmoothingLDS.num_time_pts self) None in
  let p := GenerativeLDSCoupled.initialize_prior_vars matrix_inverse gen in
  SmoothingLDS.Vars (GenerativeLDSCoupled.z0_mean p) (GenerativeLDSCoupled.A p)
                    (GenerativeLDSCoupled.Q_sqrt p) (GenerativeLDSCoupled.Q0_sqrt p)
  = SmoothingLDS.initial_vars self /\
  SmoothingLDSCoupled.build_graph cholesky triangular_solve inference_mlp self
    (GenerativeLDSCoupled.z0_mean p) (GenerativeLDSCoupled.A p)
    (GenerativeLDSCoupled.Q_sqrt p) (GenerativeLDSCoupled.Q p)
    (GenerativeLDSCoupled.Qinv p) (GenerativeLDSCoupled.Q0_sqrt p)
    (GenerativeLDSCoupled.Q0 p) (GenerativeLDSCoupled.Q0inv p) observations
  = SmoothingLDS.build_graph cholesky triangular_solve matrix_inverse
      inference_mlp self (SmoothingLDS.initial_vars self) observations /\
  SmoothingLDS.Q_sqrt (GenerativeLDS.initialize_prior_vars gen)
  = mscale (SmoothingLDS.dim_latent self) 0.1 (eye (SmoothingLDS.dim_latent self)).
Proof. cbv zeta. repeat split; reflexivity. Qed.

(* ================================================================== *)
(** * PLDS *)

(** X9.  [PLDS.__init__]: whatever object identity the interpreter gives
    equal strings, a [spiking_nl] other than ['softplus'], ['exponential']
    and ['relu'] raises [ValueError], and an object that is returned has
    the nonlinearity its [spiking_nl] names. *)
Theorem plds_init_validates (is_ : string -> string -> bool)
        (dim_obs dim_latent : nat)
        (post_z_samples : option (list (list (list vec))))
        (num_time_pts : nat) (gen_params : option (list (string * mat)))
        (spiking_nl : string) :
  (forall a b, is_ a b = true -> a = b) ->
  let run := PLDS.init is_ dim_obs dim_latent post_z_samples num_time_pts
                       gen_params spiking_nl in
  (spiking_nl <> "softplus"%string -> spiking_nl <> "exponential"%string ->
   spiking_nl <> "relu"%string ->
   run = Raise (ValueError (PLDS.invalid_message spiking_nl))) /\
  (forall self, run = Return self ->
     PLDS.lds self = GenerativeLDS.init dim_obs dim_latent post_z_samples
                                        num_time_pts gen_params /\
     ((spiking_nl = "softplus"%string /\ PLDS.spiking_nl self = PLDS.softplus) \/
      (spiking_nl = "exponential"%string /\ PLDS.spiking_nl self = PLDS.exponential) \/
      (spiking_nl = "relu"%string /\ PLDS.spiking_nl self = PLDS.relu))).
Proof.
  intros His. cbv zeta. unfold PLDS.init. split.
  - intros H1 H2 H3.
    destruct (is_ spiking_nl "softplus"%string) eqn:E1; [now apply His in E1|].
    destruct (is_ spiking_nl "exponential"%string) eqn:E2; [now apply His in E2|].
    destruct (is_ spiking_nl "relu"%string) eqn:E3; [now apply His in E3|].
    reflexivity.
  - intros self Hrun.
    destruct (is_ spiking_nl "softplus"%string) eqn:E1.
    { injection Hrun as <-. split; [reflexivity|]. left. split; [now apply His|reflexivity]. }
    destruct (is_ spiking_nl "exponential"%string) eqn:E2.
    { injection Hrun as <-. split; [reflexivity|]. right. left.
      split; [now apply His|reflexivity]. }
    destruct (is_ spiking_nl "relu"%string) eqn:E3.
    { injection Hrun as <-. split; [reflexivity|]. right. right.
      split; [now apply His|reflexivity]. }
    discriminate.
Qed.

(** [plds_init_validates] with string equality for [is], on ['tanh']. *)
Lemma plds_init_validates_witness :
  (forall a b, String.eqb a b = true -> a = b) /\
  PLDS.init String.eqb 1 1 None 2 None "tanh"
  = Raise (ValueError (PLDS.invalid_message "tanh")).
Proof.
  assert (His : forall a b, String.eqb a b = true -> a = b)
    by (intros a b; apply String.eqb_eq).
  split; [exact His|].
  apply (proj1 (plds_init_validates String.eqb 1 1 None 2 None "tanh" His));
    discriminate.
Defined.

Lemma apply_nonlinearity_nonneg f x : 0 <= PLDS.apply_nonlinearity f x.
Proof.
  destruct f; simpl.
  - rewrite <- ln_1. pose proof (exp_pos x).
    apply Rlt_le, ln_increasing; lra.
  - apply Rlt_le, exp_pos.
  - apply Rmax_r.
Qed.

Lemma relu_zero_iff x : Rmax x 0 = 0 <-> x <= 0.
Proof.
  unfold Rmax. destruct (Rle_dec x 0) as [H|H]; split; intros; lra.
Qed.

(** X10.  [PLDS._apply_mapping]: no entry of the rate is negative,
    whatever the nonlinearity; under ['relu'] an entry is zero exactly
    when the linear prediction [z C + d] it is computed from is not
    positive. *)
Theorem plds_rate_nonnegative (self : PLDS.t) (w : GenerativeLDS.mapping_vars)
        (z_samples : list (list (list vec))) (b m t i : nat) :
  let dz := GenerativeLDS.dim_latent (PLDS.lds self) in
  let dy := GenerativeLDS.dim_obs (PLDS.lds self) in
  (b < length z_samples)%nat ->
  (m < length (nth b z_samples []))%nat ->
  (t < length (nth m (nth b z_samples []) []))%nat ->
  (i < dy)%nat ->
  let z := nth t (nth m (nth b z_samples []) []) [] in
  let layer_output :=
    vnth (vadd dy (tensordot dz dy z (GenerativeLDS.C w))
               (row0 (GenerativeLDS.d w))) i in
  let rate := vnth (nth t (nth m (nth b (PLDS._apply_mapping self w z_samples)
                                       []) []) []) i in
  0 <= rate /\
  (PLDS.spiking_nl self = PLDS.relu -> (rate = 0 <-> layer_output <= 0)).
Proof.
  cbv zeta. intros Hb Hm Ht Hi. unfold PLDS._apply_mapping.
  rewrite (nth_map_lt _ _ _ _ _ [] []) by assumption.
  rewrite (nth_map_lt _ _ _ _ _ [] []) by assumption.
  rewrite (nth_map_lt _ _ _ _ _ [] []) by assumption.
  rewrite vnth_map by (unfold vadd; now rewrite length_mkvec).
  split; [apply apply_nonlinearity_nonneg|].
  intros ->. cbn [PLDS.apply_nonlinearity]. apply relu_zero_iff.
Qed.

(** [plds_rate_nonnegative] on one latent state [-1] with [C = 1] and
    [d = 0]: under ['exponential'] the rate is not negative, under
    ['relu'] it is zero. *)
Lemma plds_rate_nonnegative_witness :
  let expo := PLDS.Build (GenerativeLDS.Build 1 1 None 1 []) PLDS.exponential in
  let relu := PLDS.Build (GenerativeLDS.Build 1 1 None 1 []) PLDS.relu in
  let w := GenerativeLDS.Mapping [[1]] [[1]] [[0]] in
  (0 < length [ [ [ [(-1)%R] ] ] ])%nat /\
  0 <= vnth (nth 0 (nth 0 (nth 0 (PLDS._apply_mapping expo w [ [ [ [-1] ] ] ])
                                 []) []) []) 0 /\
  vnth (nth 0 (nth 0 (nth 0 (PLDS._apply_mapping relu w [ [ [ [-1] ] ] ])
                            []) []) []) 0 = 0.
Proof.
  cbv zeta.
  assert (H : (0 < 1)%nat) by lia.
  split; [exact H|]. split.
  - exact (proj1 (plds_rate_nonnegative
                    (PLDS.Build (GenerativeLDS.Build 1 1 None 1 []) PLDS.exponential)
                    (GenerativeLDS.Mapping [[1]] [[1]] [[0]])
                    [ [ [ [-1] ] ] ] 0 0 0 0 H H H H)).
  - apply (proj2 (plds_rate_nonnegative
                    (PLDS.Build (GenerativeLDS.Build 1 1 None 1 []) PLDS.relu)
                    (GenerativeLDS.Mapping [[1]] [[1]] [[0]])
                    [ [ [ [-1] ] ] ] 0 0 0 0 H H H H) eq_refl).
    cbv [GenerativeLDS.dim_obs GenerativeLDS.dim_latent PLDS.lds
         GenerativeLDS.C GenerativeLDS.d vadd tensordot row0 mkvec map seq
         rsum vnth mget nth].
    lra.
Defined.

Lemma map_fst_combine (A B : Type) (xs : list A) (ys : list B) :
  length xs = length ys -> map fst (combine xs ys) = xs.
Proof.
  revert ys. induction xs as [|x xs IH]; intros [|y ys] H; simpl in *;
    try discriminate; [reflexivity|]. f_equal. apply IH. lia.
Qed.

(** The first component of a scan over pairs, when the step function
    computes it from the first component alone. *)
Lemma map_fst_scan (Z Y X X' : Type) (fn : Z * Y -> X -> Z * Y)
      (gz : Z -> X' -> Z) (h : X -> X') :
  (forall o x, fst (fn o x) = gz (fst o) (h x)) ->
  forall elems o, map fst (scan fn elems o) = scan gz (map h elems) (fst o).
Proof.
  intros H. induction elems as [|x elems IH]; intros o; [reflexivity|].
  cbn [scan map]. rewrite IH, H. reflexivity.
Qed.

(** X11.  [PLDS._sample_yz] and [LDS._sample_yz] return the same latent
    trajectories on the same latent noise: the Poisson model changes the
    observations only. *)
Theorem plds_latent_as_lds (self : PLDS.t)
        (v : SmoothingLDS.model_vars) (w : GenerativeLDS.mapping_vars)
        (random_poisson : list (list vec) -> list (list (list vec)))
        (num_samples : nat) (latent_rand_samples obs_rand_samples : list (list vec)) :
  (2 <= GenerativeLDS.num_time_pts (PLDS.lds self))%nat ->
  exists zs ys counts,
    GenerativeLDS._sample_yz (PLDS.lds self) v w num_samples
      latent_rand_samples obs_rand_samples
    = Ok (GenerativeLDS.Samples zs ys) /\
    PLDS._sample_yz self v w random_poisson num_samples latent_rand_samples
    = Ok (GenerativeLDS.Samples zs counts).
Proof.
  intros HT.
  unfold GenerativeLDS._sample_yz, PLDS._sample_yz, GenerativeLDS.slice_first.
  destruct (Nat.eqb_spec (GenerativeLDS.num_time_pts (PLDS.lds self)) 0) as [H0|_];
    [lia|].
  cbn [bind].
  rewrite !scan_dynamic_run
    by (rewrite ?length_combine, !length_transpose_lead; lia).
  cbn [bind]. do 3 eexists. split; [reflexivity|].
  f_equal. f_equal. f_equal. f_equal.
  rewrite (map_fst_scan _ _ _ _ (PLDS.lds_update self v w)
             (fun z rz =>
                zip_with (vadd (GenerativeLDS.dim_latent (PLDS.lds self)))
                  (matmul_rows _ _ z (transpose _ (SmoothingLDS.A v)))
                  (matmul_rows _ _ rz (transpose _ (SmoothingLDS.Q_sqrt v))))
             (fun rz => rz)) by reflexivity.
  rewrite (map_fst_scan _ _ _ _ (GenerativeLDS.lds_update (PLDS.lds self) v w)
             (fun z rz =>
                zip_with (vadd (GenerativeLDS.dim_latent (PLDS.lds self)))
                  (matmul_rows _ _ z (transpose _ (SmoothingLDS.A v)))
                  (matmul_rows _ _ rz (transpose _ (SmoothingLDS.Q_sqrt v))))
             fst) by reflexivity.
  rewrite map_id, map_fst_combine by now rewrite !length_transpose_lead.
  reflexivity.
Qed.

(** [plds_latent_as_lds] on one sample of two steps in one dimension. *)
Lemma plds_latent_as_lds_witness :
  let self := PLDS.Build (GenerativeLDS.Build 1 1 None 2 []) PLDS.softplus in
  let v := SmoothingLDS.Vars [[0]] [[1]] [[1]] [[1]] in
  let w := GenerativeLDS.Mapping [[1]] [[1]] [[0]] in
  (2 <= GenerativeLDS.num_time_pts (PLDS.lds self))%nat /\
  exists zs ys counts,
    GenerativeLDS._sample_yz (PLDS.lds self) v w 1 [ [ [1]; [2] ] ] [ [ [0]; [0] ] ]
    = Ok (GenerativeLDS.Samples zs ys) /\
    PLDS._sample_yz self v w (fun lam => [lam]) 1 [ [ [1]; [2] ] ]
    = Ok (GenerativeLDS.Samples zs counts).
Proof.
  cbv zeta.
  assert (HT : (2 <= GenerativeLDS.num_time_pts
                       (PLDS.lds (PLDS.Build (GenerativeLDS.Build 1 1 None 2 [])
                                             PLDS.softplus)))%nat)
    by (simpl; lia).
  split; [exact HT|].
  exact (plds_latent_as_lds
           (PLDS.Build (GenerativeLDS.Build 1 1 None 2 []) PLDS.softplus)
           (SmoothingLDS.Vars [[0]] [[1]] [[1]] [[1]])
           (GenerativeLDS.Mapping [[1]] [[1]] [[0]])
           (fun lam => [lam]) 1 [ [ [1]; [2] ] ] [ [ [0]; [0] ] ] HT).
Defined.

(* ================================================================== *)
(** * FLDS *)

(** X12.  [LDS.build_graph] on an [FLDS] object never returns:
    [FLDS._initialize_mapping] assigns [Rsqrt] only, and
    [FLDS._apply_mapping] reads [self.C], raising [AttributeError], for
    every configuration, every [gen_params] and every [z_samples]. *)
Theorem flds_build_graph_raises
        (tr_norm_initializer : string -> nat -> nat -> mat)
        (dim_obs dim_latent : nat)
        (post_z_samples : option (list (list (list vec))))
        (num_time_pts : nat) (gen_params : option (list (string * mat)))
        (z_samples : list (list (list vec))) :
  FLDS.build_graph tr_norm_initializer
    (GenerativeLDS.init dim_obs dim_latent post_z_samples num_time_pts gen_params)
    z_samples
  = Raise (AttributeError "C").
Proof. reflexivity. Qed.

Lemma ln_zero : ln 0 = 0.
Proof.
  unfold ln. destruct (Rlt_dec 0 0) as [H|_]; [|reflexivity].
  exfalso. exact (Rlt_irrefl 0 H).
Qed.

Lemma vnth_map_ln x i : vnth (map ln x) i = ln (vnth x i).
Proof.
  unfold vnth. transitivity (nth i (map ln x) (ln 0)); [now rewrite ln_zero|].
  apply map_nth.
Qed.

Section PoissonLikelihood.
Variable lgamma : R -> R.
Variable self : PLDS.t.
Local Abbreviation dy := (GenerativeLDS.dim_obs (PLDS.lds self)).
Local Abbreviation T := (GenerativeLDS.num_time_pts (PLDS.lds self)).

Lemma plds_likelihood_run (obs_ph : list (list vec)) (y : list (list (list vec)))
      (MC : nat) :
  length y = length obs_ph -> Forall (fun y_b => length y_b = MC) y ->
  (forall b t, (b < length obs_ph)%nat -> (t < T)%nat ->
     length (nth t (nth b obs_ph []) []) = dy) ->
  PLDS._log_density_likelihood lgamma self obs_ph y
  = Ok (rsum (length y) (fun b =>
          rsum MC (fun m =>
            rsum T (fun t =>
              rsum dy (fun i =>
                vnth (nth t (nth b obs_ph []) []) i
                * ln (vnth (nth t (nth m (nth b y []) []) []) i)
                - vnth (nth t (nth m (nth b y []) []) []) i
                - lgamma (1 + vnth (nth t (nth b obs_ph []) []) i)))))
        / INR (length y * MC)).
Proof.
  intros Hlen Hrect Hobs.
  unfold PLDS._log_density_likelihood.
  rewrite broadcast_lead_same by congruence. cbn [bind].
  set (G := fun (obs_b : list vec) (y_b : list (list vec)) =>
              map (fun y_bm =>
                     map (fun t =>
                            vsub dy
                              (vsub dy (vmul dy (nth t obs_b []) (map ln (nth t y_bm [])))
                                    (nth t y_bm []))
                              (map (fun o => lgamma (1 + o)) (nth t obs_b [])))
                         (seq 0 T)) y_b).
  assert (HlenX : length (zip_with G obs_ph y) = length y).
  { rewrite length_zip_with; congruence. }
  assert (HnthX : forall b, (b < length y)%nat ->
            nth b (zip_with G obs_ph y) [] = G (nth b obs_ph []) (nth b y [])).
  { intros b Hb. apply nth_zip_with; congruence. }
  rewrite (reduce_sum_mean01 T dy _ MC).
  2:{ apply (Forall_nth_lt _ _ _ []). intros b Hb. rewrite HlenX in Hb.
      rewrite HnthX by assumption. unfold G. rewrite length_map.
      now apply Forall_length_nth. }
  rewrite HlenX.
  assert (Hden : (length y * length (nth 0 (zip_with G obs_ph y) []))%nat
                 = (length y * MC)%nat).
  { destruct y as [|y0 y']; [reflexivity|]. rewrite HnthX by (simpl; lia).
    unfold G. rewrite length_map. cbn [nth]. apply Forall_inv in Hrect.
    now rewrite Hrect. }
  rewrite Hden. f_equal. f_equal.
  apply rsum_ext. intros b Hb. apply rsum_ext. intros m Hm.
  apply rsum_ext. intros t Ht. apply rsum_ext. intros i Hi.
  rewrite HnthX by assumption. unfold G.
  rewrite (nth_map_lt _ _ _ _ _ [] [])
    by (rewrite (Forall_length_nth _ _ MC) by assumption; exact Hm).
  rewrite nth_map_seq by assumption.
  rewrite !vnth_vsub, vnth_vmul by assumption.
  rewrite (vnth_map (fun o => lgamma (1 + o)))
    by (rewrite Hobs by (try assumption; congruence); exact Hi).
  now rewrite vnth_map_ln.
Qed.

End PoissonLikelihood.

Lemma ln_le_minus_1 x : 0 < x -> ln x <= x - 1.
Proof.
  intros Hx. destruct (Req_dec (ln x) 0) as [H0|Hne].
  - rewrite H0. assert (x = 1); [|lra].
    rewrite <- (exp_ln x Hx), H0. apply exp_0.
  - pose proof (exp_ineq1 (ln x) Hne) as H. rewrite exp_ln in H by assumption. lra.
Qed.

(** The Poisson log-likelihood term is largest at the observed count. *)
Lemma poisson_term_le o y : 0 < o -> 0 < y -> o * ln y - y <= o * ln o - o.
Proof.
  intros Ho Hy.
  assert (Hr : 0 < y / o) by (apply Rdiv_lt_0_compat; assumption).
  pose proof (ln_le_minus_1 (y / o) Hr) as H.
  unfold Rdiv in H. rewrite ln_mult in H
    by (try assumption; now apply Rinv_0_lt_compat).
  rewrite ln_Rinv in H by assumption.
  assert (H' : o * (ln y + - ln o) <= o * (y * / o - 1))
    by (apply Rmult_le_compat_l; lra).
  replace (o * (y * / o - 1)) with (y - o) in H' by (field; lra).
  lra.
Qed.

Lemma mean_le_rowwise B MC g h :
  (1 <= B)%nat -> (1 <= MC)%nat ->
  (forall b m, (b < B)%nat -> (m < MC)%nat -> g b m <= h b) ->
  rsum B (fun b => rsum MC (fun m => g b m)) / INR (B * MC)
  <= rsum B (fun b => rsum 1 (fun _ => h b)) / INR (B * 1).
Proof.
  intros HB HMC Hgh.
  assert (H1 : rsum B (fun b => rsum MC (fun m => g b m))
               <= rsum B (fun b => INR MC * h b)).
  { apply rsum_le. intros b Hb. rewrite <- rsum_const. apply rsum_le.
    intros m Hm. now apply Hgh. }
  rewrite rsum_scal_l in H1.
  assert (H2 : rsum B (fun b => rsum 1 (fun _ => h b)) = rsum B h).
  { apply rsum_ext. intros b _. simpl. lra. }
  rewrite H2, Nat.mul_1_r, mult_INR.
  assert (HB' : 0 < INR B) by (apply lt_0_INR; lia).
  assert (HMC' : 0 < INR MC) by (apply lt_0_INR; lia).
  apply (Rmult_le_reg_r (INR B * INR MC)); [nra|].
  unfold Rdiv. rewrite Rmult_assoc, Rinv_l by nra.
  replace (rsum B h * / INR B * (INR B * INR MC)) with (INR MC * rsum B h)
    by (field; lra).
  lra.
Qed.

(** X13.  [PLDS._log_density_likelihood], for a non-empty batch of
    positive observed counts and positive rates: no tensor of rates gives
    a larger value than the observations themselves do, taken as the
    rates. *)
Theorem plds_likelihood_largest_at_observations (lgamma : R -> R)
        (self : PLDS.t)
        (obs_ph : list (list vec)) (y : list (list (list vec))) (MC : nat) :
  let dy := GenerativeLDS.dim_obs (PLDS.lds self) in
  let T := GenerativeLDS.num_time_pts (PLDS.lds self) in
  obs_ph <> [] -> length y = length obs_ph ->
  (1 <= MC)%nat -> Forall (fun y_b => length y_b = MC) y ->
  (forall b t, (b < length obs_ph)%nat -> (t < T)%nat ->
     length (nth t (nth b obs_ph []) []) = dy) ->
  (forall b t i, (b < length obs_ph)%nat -> (t < T)%nat -> (i < dy)%nat ->
     0 < vnth (nth t (nth b obs_ph []) []) i) ->
  (forall b m t i, (b < length y)%nat -> (m < MC)%nat -> (t < T)%nat ->
     (i < dy)%nat -> 0 < vnth (nth t (nth m (nth b y []) []) []) i) ->
  exists log_density_y largest,
    PLDS._log_density_likelihood lgamma self obs_ph y = Ok log_density_y /\
    PLDS._log_density_likelihood lgamma self obs_ph (map (fun o => [o]) obs_ph)
    = Ok largest /\
    log_density_y <= largest.
Proof.
  cbv zeta. intros Hne Hlen HMC Hrect Hwf Hobs Hy.
  rewrite (plds_likelihood_run lgamma self obs_ph y MC Hlen Hrect Hwf).
  rewrite (plds_likelihood_run lgamma self obs_ph (map (fun o => [o]) obs_ph) 1);
    [|now rewrite length_map
     |apply Forall_forall; intros x Hx; apply in_map_iff in Hx;
      destruct Hx as [o [<- _]]; reflexivity
     |exact Hwf].
  do 2 eexists. split; [reflexivity|]. split; [reflexivity|].
  rewrite length_map, <- Hlen.
  assert (HB : (1 <= length y)%nat).
  { rewrite Hlen. destruct obs_ph; [congruence|simpl; lia]. }
  set (h := fun b =>
    rsum (GenerativeLDS.num_time_pts (PLDS.lds self)) (fun t =>
      rsum (GenerativeLDS.dim_obs (PLDS.lds self)) (fun i =>
        vnth (nth t (nth b obs_ph []) []) i * ln (vnth (nth t (nth b obs_ph []) []) i)
        - vnth (nth t (nth b obs_ph []) []) i
        - lgamma (1 + vnth (nth t (nth b obs_ph []) []) i)))).
  match goal with
  | |- _ <= ?r / _ =>
      replace r with (rsum (length y) (fun b => rsum 1 (fun _ => h b)))
  end.
  2:{ apply rsum_ext. intros b Hb. apply rsum_ext. intros m Hm.
      assert (m = 0%nat) as -> by lia.
      rewrite (nth_map_lt _ _ _ _ _ [] []) by congruence. reflexivity. }
  apply mean_le_rowwise; try assumption.
  intros b m Hb Hm. unfold h. apply rsum_le. intros t Ht. apply rsum_le.
  intros i Hi.
  pose proof (poisson_term_le _ _ (Hobs b t i ltac:(congruence) Ht Hi)
                              (Hy b m t i Hb Hm Ht Hi)).
  lra.
Qed.

(** [plds_likelihood_largest_at_observations] on one observed count. *)
Lemma plds_likelihood_largest_at_observations_witness :
  let self := PLDS.Build (GenerativeLDS.Build 1 1 None 1 []) PLDS.softplus in
  [ [ [2] ] ] <> [] /\ (1 <= 1)%nat /\
  Forall (fun y_b : list (list (list R)) => length y_b = 1%nat) [ [ [ [3] ] ] ] /\
  exists log_density_y largest,
    PLDS._log_density_likelihood (fun x => 0) self [ [ [2] ] ] [ [ [ [3] ] ] ]
    = Ok log_density_y /\
    PLDS._log_density_likelihood (fun x => 0) self [ [ [2] ] ]
      (map (fun o => [o]) [ [ [2] ] ]) = Ok largest /\
    log_density_y <= largest.
Proof.
  cbv zeta.
  assert (Hne : [ [ [2] ] ] <> ([] : list (list (list R)))) by discriminate.
  assert (HMC : (1 <= 1)%nat) by lia.
  assert (Hrect : Forall (fun y_b : list (list (list R)) => length y_b = 1%nat)
                         [ [ [ [3] ] ] ]) by (repeat constructor).
  split; [exact Hne|]. split; [exact HMC|]. split; [exact Hrect|].
  apply (plds_likelihood_largest_at_observations (fun x => 0)
           (PLDS.Build (GenerativeLDS.Build 1 1 None 1 []) PLDS.softplus)
           [ [ [2] ] ] [ [ [ [3] ] ] ] 1 Hne eq_refl HMC Hrect).
  - intros [|b] [|t] Hb Ht; simpl in *; try lia; reflexivity.
  - intros [|b] [|t] [|i] Hb Ht Hi; simpl in *; try lia;
      cbv [vnth nth]; lra.
  - intros [|b] [|m] [|t] [|i] Hb Hm Ht Hi; simpl in *; try lia;
      cbv [vnth nth]; lra.
Defined.

(* ================================================================== *)
(** * The smoother on a whole batch *)

Section SequenceSolves.
Variable d : nat.
Variable triangular_solve : mat -> vec -> bool -> vec.
Hypothesis solve_ok : triangular_solve_contract d triangular_solve.
Hypothesis d_pos : (0 < d)%nat.

Lemma factor_blocks Ds Ls Cs Es :
  block_factor d Ds Ls Cs Es ->
  length Cs = length Ds /\ S (length Es) = length Cs /\ Forall (chol_factor d) Cs.
Proof.
  intros Hfac.
  destruct (block_factor_facts d Ds Ls Cs Es Hfac) as (HlenC & HlenE & HCf & _).
  split; [exact HlenC|]. split; [congruence|].
  apply (Forall_nth_lt _ _ _ []). intros t Ht. apply HCf. now rewrite <- HlenC.
Qed.

(** The backward solve against the factor, as a dense system:
    [C^T x = b]. *)
Lemma backward_solve_dense Ds Ls Cs Es Bs :
  block_factor d Ds Ls Cs Es ->
  length Bs = length Ds -> Forall (wf_vec d) Bs ->
  let xs := CholUtils.backward_subst d triangular_solve Cs Es Bs in
  let n := (length Ds * d)%nat in
  length xs = length Ds /\
  (forall t, (t < length Ds)%nat -> wf_vec d (nth t xs [])) /\
  mv n (transpose n (expand_bidiag d Cs Es)) (flatten d xs) = flatten d Bs.
Proof.
  intros Hfac HlenB HwB xs n.
  destruct (factor_blocks Ds Ls Cs Es Hfac) as (HlenC & HlenE & HCs).
  destruct (backward_subst_facts d triangular_solve solve_ok Cs Es Bs)
    as (Hlenx & Hwx & Hx); try assumption; try congruence.
  fold xs in Hlenx, Hwx, Hx.
  split; [congruence|]. split; [intros t Ht; apply Hwx; congruence|].
  unfold n. rewrite <- HlenC.
  apply (vec_ext (length Cs * d)); [apply wf_mv| |].
  - rewrite HlenC, <- HlenB. apply wf_flatten.
  - intros I HI. rewrite (dense_bidiag_T_mv d d_pos) by assumption.
    rewrite vnth_flatten by (rewrite HlenB, <- HlenC; assumption).
    unfold block_entry.
    assert (Ht : (I / d < length Cs)%nat) by now apply index_div_lt.
    assert (Hi : (I mod d < d)%nat) by now apply index_mod_lt.
    rewrite (Hx _ Ht).
    destruct (Nat.ltb_spec (S (I / d)) (length Cs)) as [HS|HS].
    + rewrite vnth_vsub by assumption. lra.
    + lra.
Qed.

Lemma blk_chol_inv_forward_run Cs Es Bs :
  S (length Es) = length Cs -> length Bs = length Cs ->
  CholUtils.blk_chol_inv d triangular_solve Cs Es Bs true false
  = Ok (CholUtils.forward_subst d triangular_solve Cs Es Bs).
Proof.
  intros HE HB. unfold CholUtils.blk_chol_inv.
  destruct Cs as [|C Cs']; [discriminate|].
  destruct (Nat.eqb_spec d 0) as [Hd|_]; [lia|].
  simpl in HE. injection HE as HE. rewrite HE, HB, !Nat.eqb_refl. reflexivity.
Qed.

Lemma blk_chol_inv_backward_run Cs Es Bs :
  S (length Es) = length Cs -> length Bs = length Cs ->
  CholUtils.blk_chol_inv d triangular_solve Cs Es Bs false true
  = Ok (CholUtils.backward_subst d triangular_solve Cs Es Bs).
Proof.
  intros HE HB. unfold CholUtils.blk_chol_inv.
  destruct Cs as [|C Cs']; [discriminate|].
  destruct (Nat.eqb_spec d 0) as [Hd|_]; [lia|].
  simpl in HE. injection HE as HE. rewrite HE, HB, !Nat.eqb_refl. reflexivity.
Qed.

Lemma forward_subst_shape Ds Ls Cs Es Bs :
  block_factor d Ds Ls Cs Es ->
  length Bs = length Ds -> Forall (wf_vec d) Bs ->
  let ys := CholUtils.forward_subst d triangular_solve Cs Es Bs in
  length ys = length Ds /\ Forall (wf_vec d) ys.
Proof.
  intros Hfac HlenB HwB ys.
  destruct (factor_blocks Ds Ls Cs Es Hfac) as (HlenC & HlenE & HCs).
  destruct (forward_subst_facts d triangular_solve solve_ok Cs Es Bs)
    as (Hleny & Hwy & _); try assumption; try congruence.
  fold ys in Hleny, Hwy. split; [congruence|].
  apply (Forall_nth_lt _ _ _ []). intros t Ht. apply Hwy. congruence.
Qed.

End SequenceSolves.

Section SmootherBatch.
Variable cholesky : mat -> result mat.
Variable triangular_solve : mat -> vec -> bool -> vec.
Variable self : SmoothingLDS.t.
Variables A Q0inv Qinv : mat.
Local Abbreviation dl := (SmoothingLDS.dim_latent self).
Local Abbreviation Tn := (SmoothingLDS.num_time_pts self).
Hypothesis chol_ok : cholesky_contract dl cholesky.
Hypothesis solve_ok : triangular_solve_contract dl triangular_solve.
Hypothesis d_pos : (0 < dl)%nat.
Hypothesis T_ge : (2 <= Tn)%nat.
Hypothesis Q0inv_spd : spd dl Q0inv.
Hypothesis Qinv_spd : spd dl Qinv.
Variable r_psi_sqrt : list (list mat).
Hypothesis r_shape : Forall (fun r => length r = Tn) r_psi_sqrt.

Local Abbreviation c_psi := (SmoothingLDS.c_psi_inv self r_psi_sqrt).
Local Abbreviation assembled :=
  (map (fun c_b => zip_with (madd dl) (static_blocks self A Q0inv Qinv) c_b) c_psi).
Local Abbreviation lower := (static_lower self A Q0inv Qinv).

Lemma length_assembled : length assembled = length r_psi_sqrt.
Proof. unfold SmoothingLDS.c_psi_inv. now rewrite !length_map. Qed.

(** Every sequence of the batch has a positive definite operand with a
    block factor. *)
Lemma sequence_factor b :
  (b < length r_psi_sqrt)%nat ->
  length (nth b assembled []) = Tn /\
  length (nth b c_psi []) = Tn /\
  block_posdef dl (nth b assembled []) lower /\
  exists Cs Es,
    SmoothingLDS.scan_chol cholesky triangular_solve self lower (nth b assembled [])
    = Ok (Cs, Es) /\
    block_factor dl (nth b assembled []) lower Cs Es.
Proof.
  intros Hb.
  assert (Hcb : nth b c_psi [] =
                map (fun r => matmul dl r (transpose dl r)) (nth b r_psi_sqrt [])).
  { unfold SmoothingLDS.c_psi_inv. now apply nth_map_nil. }
  assert (Hlencb : length (nth b c_psi []) = Tn).
  { rewrite Hcb, length_map. now apply Forall_length_nth. }
  assert (Hpsd : Forall (fun c => symmetric dl c /\ possemidef dl c) (nth b c_psi [])).
  { pose proof (data_terms_psd self r_psi_sqrt) as Hdata. cbv zeta in Hdata.
    rewrite Forall_forall in Hdata. apply Hdata. apply nth_In.
    unfold SmoothingLDS.c_psi_inv. now rewrite length_map. }
  assert (HDs : nth b assembled [] =
                zip_with (madd dl) (static_blocks self A Q0inv Qinv) (nth b c_psi [])).
  { now apply nth_map_nil. }
  destruct (assembled_sequence self A Q0inv Qinv (nth b c_psi [])
              T_ge Q0inv_spd Qinv_spd Hlencb Hpsd) as (H1 & H2 & H3 & H4 & H5).
  rewrite <- HDs in H1, H3, H5.
  split; [exact H1|]. split; [exact Hlencb|]. split; [exact H5|].
  destruct (blk_tridiag_chol_ok _ cholesky triangular_solve chol_ok solve_ok
              (nth b assembled []) lower d_pos ltac:(lia) ltac:(congruence) H3 H4 H5)
    as (Cs & Es & Hrun & Hfac).
  now exists Cs, Es.
Qed.

(** The factorization of the batch. *)
Lemma batch_factor :
  exists Css Ess,
    SmoothingLDS.precision_chol_decomp cholesky triangular_solve self A Q0inv Qinv
      r_psi_sqrt = Ok (Css, Ess) /\
    length Css = length r_psi_sqrt /\ length Ess = length r_psi_sqrt /\
    forall b, (b < length r_psi_sqrt)%nat ->
      block_factor dl (nth b assembled []) lower (nth b Css []) (nth b Ess []).
Proof.
  destruct (mapM_nth _ _
              (SmoothingLDS.scan_chol cholesky triangular_solve self lower)
              [] ([], []) assembled) as (decomp & Hdec & Hlendec & Hdecb).
  { intros b Hb. rewrite length_assembled in Hb.
    destruct (sequence_factor b Hb) as (_ & _ & _ & Cs & Es & Hrun & _).
    now exists (Cs, Es). }
  rewrite length_assembled in Hlendec, Hdecb.
  exists (map fst decomp), (map snd decomp).
  split.
  { unfold SmoothingLDS.precision_chol_decomp.
    rewrite (Sinv_diag_ok self A Q0inv Qinv r_psi_sqrt T_ge r_shape).
    rewrite (Sinv_ldiag0_ok self A Q0inv Qinv T_ge). cbn [bind].
    rewrite Hdec. reflexivity. }
  split; [now rewrite length_map|]. split; [now rewrite length_map|].
  intros b Hb. rewrite nth_map_fst, nth_map_snd.
  destruct (sequence_factor b Hb) as (_ & _ & _ & Cs & Es & Hrun & Hfac).
  rewrite (Hdecb b Hb) in Hrun. apply ok_inj in Hrun. now rewrite Hrun.
Qed.

Section Means.
Variable m_psi : list (list vec).
Hypothesis m_batch : length m_psi = length r_psi_sqrt.
Hypothesis m_shape : Forall (fun m => length m = Tn) m_psi.

Local Abbreviation ia_of b :=
  (zip_with (mv dl) (nth b c_psi []) (nth b m_psi [])).

Lemma nth_ia b :
  (b < length r_psi_sqrt)%nat ->
  nth b (SmoothingLDS.ia self m_psi r_psi_sqrt) [] = ia_of b /\
  length (ia_of b) = Tn /\ Forall (wf_vec dl) (ia_of b).
Proof.
  intros Hb.
  destruct (sequence_factor b Hb) as (_ & Hlenc & _).
  split.
  { unfold SmoothingLDS.ia. apply (nth_zip_with _ _ _ _ _ _ _ [] []).
    - unfold SmoothingLDS.c_psi_inv. rewrite length_map. congruence.
    - unfold SmoothingLDS.c_psi_inv. now rewrite length_map. }
  split.
  { rewrite length_zip_with; [exact Hlenc|].
    rewrite Hlenc. symmetry. apply Forall_length_nth; [assumption|congruence]. }
  apply Forall_zip_with. intros x y _ _. apply wf_mv.
Qed.

(** The posterior mean of the batch: for every sequence the forward then
    the backward solve of [ia] against its factor. *)
Lemma batch_means :
  exists Css Ess means,
    SmoothingLDS.precision_chol_decomp cholesky triangular_solve self A Q0inv Qinv
      r_psi_sqrt = Ok (Css, Ess) /\
    SmoothingLDS.posterior_mean cholesky triangular_solve self A Q0inv Qinv
      m_psi r_psi_sqrt = Ok means /\
    length Css = length r_psi_sqrt /\ length Ess = length r_psi_sqrt /\
    length means = length r_psi_sqrt /\
    forall b, (b < length r_psi_sqrt)%nat ->
      block_factor dl (nth b assembled []) lower (nth b Css []) (nth b Ess []) /\
      nth b means []
      = CholUtils.backward_subst dl triangular_solve (nth b Css []) (nth b Ess [])
          (CholUtils.forward_subst dl triangular_solve (nth b Css []) (nth b Ess [])
             (ia_of b)).
Proof.
  destruct batch_factor as (Css & Ess & Hchol & HlenC & HlenE & Hfac).
  assert (HlenIA : length (SmoothingLDS.ia self m_psi r_psi_sqrt) = length r_psi_sqrt).
  { unfold SmoothingLDS.ia, SmoothingLDS.c_psi_inv.
    rewrite length_zip_with; rewrite length_map; congruence. }
  assert (Hseq : forall b, (b < length r_psi_sqrt)%nat ->
            SmoothingLDS.scan_chol_inv triangular_solve self
              (nth b Css []) (nth b Ess [])
              (nth b (SmoothingLDS.ia self m_psi r_psi_sqrt) [])
            = Ok (CholUtils.backward_subst dl triangular_solve (nth b Css [])
                    (nth b Ess [])
                    (CholUtils.forward_subst dl triangular_solve (nth b Css [])
                       (nth b Ess []) (ia_of b)))).
  { intros b Hb. destruct (nth_ia b Hb) as (-> & Hlen & Hwf).
    destruct (sequence_factor b Hb) as (HlenD & _).
    pose proof (Hfac b Hb) as Hf.
    destruct (factor_blocks dl _ _ _ _ Hf) as (HlC & HlE & _).
    destruct (forward_subst_shape dl triangular_solve solve_ok _ _ _ _ (ia_of b) Hf
                ltac:(congruence) Hwf) as (Hleny & _).
    unfold SmoothingLDS.scan_chol_inv.
    rewrite (blk_chol_inv_forward_run dl triangular_solve d_pos) by congruence.
    cbn [bind].
    now rewrite (blk_chol_inv_backward_run dl triangular_solve d_pos) by congruence. }
  destruct (scan3_nth _ _ _ _
              (SmoothingLDS.scan_chol_inv triangular_solve self)
              [] [] [] [] Css Ess (SmoothingLDS.ia self m_psi r_psi_sqrt))
    as (means & Hmeans & Hlenmeans & Hmeansb); try congruence.
  { intros b Hb. rewrite HlenC in Hb. rewrite (Hseq b Hb). eauto. }
  exists Css, Ess, means.
  split; [exact Hchol|].
  split.
  { unfold SmoothingLDS.posterior_mean. rewrite Hchol. cbn [bind fst snd].
    exact Hmeans. }
  split; [exact HlenC|]. split; [exact HlenE|]. split; [congruence|].
  intros b Hb. split; [now apply Hfac|].
  pose proof (Hmeansb b ltac:(congruence)) as Hmb. rewrite (Hseq b Hb) in Hmb.
  now apply ok_inj in Hmb.
Qed.

End Means.
End SmootherBatch.

(* ================================================================== *)
(** * Properties of the smoother *)

Lemma identity_gram_spd d : spd d (matmul d (eye d) (transpose d (eye d))).
Proof.
  rewrite transpose_eye, matmul_eye_l by apply wf_mkmat.
  split; [apply wf_mkmat|]. split; [apply transpose_eye|].
  intros x Hx Hne. unfold quad. rewrite mv_eye by assumption.
  pose proof (dot_self_nonneg d x) as H.
  destruct (Req_dec (dot d x x) 0) as [H0|H0]; [|lra].
  elim Hne. now apply dot_self_zero.
Qed.

(** X16.  A smoother at the initial values of its variables, with kernels
    that meet their contracts, [d >= 1] and [T >= 2]: for every batch the
    encoder maps to [T] steps per sequence,
    [get_posterior_means] returns, whatever the encoder's weights, a
    tensor of the shape [[B, T, d]]. *)
Theorem fresh_smoother_returns_means
        (cholesky : mat -> result mat)
        (triangular_solve : mat -> vec -> bool -> vec)
        (matrix_inverse : mat -> mat)
        (generator : Type)
        (inference_mlp : list (list vec) -> list (list vec) * list (list mat))
        (self : SmoothingLDS.t) (sess : SmoothingLDS.session generator)
        (observations : list (list vec)) :
  let d := SmoothingLDS.dim_latent self in
  let T := SmoothingLDS.num_time_pts self in
  let m_psi := fst (inference_mlp observations) in
  let r_psi_sqrt := snd (inference_mlp observations) in
  cholesky_contract d cholesky ->
  triangular_solve_contract d triangular_solve ->
  matrix_inverse_contract d matrix_inverse ->
  (0 < d)%nat -> (2 <= T)%nat ->
  SmoothingLDS.variables sess = SmoothingLDS.initial_vars self ->
  length m_psi = length r_psi_sqrt ->
  Forall (fun r => length r = T) r_psi_sqrt ->
  Forall (fun m => length m = T) m_psi ->
  exists means,
    SmoothingLDS.get_posterior_means cholesky triangular_solve matrix_inverse
      generator inference_mlp self sess observations = Ok means /\
    length means = length r_psi_sqrt /\
    forall b, (b < length r_psi_sqrt)%nat ->
      length (nth b means []) = T /\
      forall t, (t < T)%nat -> wf_vec d (nth t (nth b means []) []).
Proof.
  cbv zeta. intros Hchol Hsolve Hinv Hd HT Hvars Hlenm Hr Hm.
  assert (Hspd : spd (SmoothingLDS.dim_latent self)
                     (matrix_inverse
                        (matmul (SmoothingLDS.dim_latent self)
                                (eye (SmoothingLDS.dim_latent self))
                                (transpose (SmoothingLDS.dim_latent self)
                                           (eye (SmoothingLDS.dim_latent self)))))).
  { apply spd_inverse; [assumption|apply identity_gram_spd]. }
  unfold SmoothingLDS.get_posterior_means, SmoothingLDS.build_graph.
  rewrite Hvars. cbn [SmoothingLDS.post_z_means SmoothingLDS.build_nodes].
  destruct (batch_means cholesky triangular_solve self
              (SmoothingLDS.A (SmoothingLDS.initial_vars self))
              (SmoothingLDS.Q0inv self matrix_inverse (SmoothingLDS.initial_vars self))
              (SmoothingLDS.Qinv self matrix_inverse (SmoothingLDS.initial_vars self))
              Hchol Hsolve Hd HT Hspd Hspd
              (snd (inference_mlp observations)) Hr
              (fst (inference_mlp observations)) Hlenm Hm)
    as (Css & Ess & means & _ & Hrun & _ & _ & Hlen & Hb).
  exists means. split; [exact Hrun|]. split; [exact Hlen|].
  intros b Hlt. destruct (Hb b Hlt) as [Hfac ->].
  destruct (sequence_factor cholesky triangular_solve self
              (SmoothingLDS.A (SmoothingLDS.initial_vars self))
              (SmoothingLDS.Q0inv self matrix_inverse (SmoothingLDS.initial_vars self))
              (SmoothingLDS.Qinv self matrix_inverse (SmoothingLDS.initial_vars self))
              Hchol Hsolve Hd HT Hspd Hspd
              (snd (inference_mlp observations)) Hr b Hlt) as (HlenD & _).
  destruct (nth_ia cholesky triangular_solve self
              (SmoothingLDS.A (SmoothingLDS.initial_vars self))
              (SmoothingLDS.Q0inv self matrix_inverse (SmoothingLDS.initial_vars self))
              (SmoothingLDS.Qinv self matrix_inverse (SmoothingLDS.initial_vars self))
              Hchol Hsolve Hd HT Hspd Hspd
              (snd (inference_mlp observations)) Hr
              (fst (inference_mlp observations)) Hlenm Hm b Hlt)
    as (_ & Hlenia & Hwfia).
  destruct (forward_subst_shape _ triangular_solve Hsolve _ _ _ _ _ Hfac
              (eq_trans Hlenia (eq_sym HlenD)) Hwfia) as (Hleny & Hwy).
  destruct (backward_solve_dense _ triangular_solve Hsolve Hd _ _ _ _ _ Hfac
              Hleny Hwy) as (Hlenx & Hwx & _).
  split; [congruence|]. intros t Ht. apply Hwx. congruence.
Qed.

(** [fresh_smoother_returns_means] on one sequence of two steps in one
    latent dimension. *)
Lemma fresh_smoother_returns_means_witness :
  let sess := SmoothingLDS.Session (SmoothingLDS.initial_vars Scalar.two_steps) 0%nat in
  cholesky_contract 1 Scalar.cholesky /\
  triangular_solve_contract 1 Scalar.triangular_solve /\
  matrix_inverse_contract 1 Scalar.matrix_inverse /\
  (2 <= SmoothingLDS.num_time_pts Scalar.two_steps)%nat /\
  exists means,
    SmoothingLDS.get_posterior_means Scalar.cholesky Scalar.triangular_solve
      Scalar.matrix_inverse nat Run.zero_mlp Scalar.two_steps sess Run.observations
    = Ok means /\
    length means = 1%nat.
Proof.
  cbv zeta.
  assert (Hd : (0 < SmoothingLDS.dim_latent Scalar.two_steps)%nat) by (simpl; lia).
  assert (HT : (2 <= SmoothingLDS.num_time_pts Scalar.two_steps)%nat) by (simpl; lia).
  split; [exact scalar_cholesky_ok|]. split; [exact scalar_triangular_solve_ok|].
  split; [exact scalar_matrix_inverse_ok|]. split; [exact HT|].
  destruct (fresh_smoother_returns_means Scalar.cholesky Scalar.triangular_solve
              Scalar.matrix_inverse nat Run.zero_mlp Scalar.two_steps
              (SmoothingLDS.Session (SmoothingLDS.initial_vars Scalar.two_steps) 0%nat)
              Run.observations
              scalar_cholesky_ok scalar_triangular_solve_ok scalar_matrix_inverse_ok
              Hd HT eq_refl eq_refl
              ltac:(repeat constructor) ltac:(repeat constructor))
    as (means & Hrun & Hlen & _).
  exists means. split; [exact Hrun|exact Hlen].
Defined.

Lemma mv_combination n M (f1 f2 : nat -> R) (a1 a2 : R) :
  mv n M (mkvec n (fun I => a1 * f1 I + a2 * f2 I))
  = mkvec n (fun I => a1 * vnth (mv n M (mkvec n f1)) I
                      + a2 * vnth (mv n M (mkvec n f2)) I).
Proof.
  unfold mv at 1. apply mkvec_ext. intros I HI.
  rewrite !vnth_mv by assumption.
  rewrite <- !rsum_scal_l, <- rsum_plus. apply rsum_ext. intros J HJ.
  rewrite !vnth_mkvec by assumption. lra.
Qed.

Lemma mkvec_vnth n x : wf_vec n x -> mkvec n (vnth x) = x.
Proof. intros H. symmetry. now apply wf_vec_eta. Qed.

(** X17.  The posterior mean is a linear function of the encoder's mean
    output [m_psi]: with the kernels meeting their contracts, [d >= 1],
    [T >= 2] and symmetric positive definite [Q0inv] and [Qinv], the
    mean computed for [a1 m1 + a2 m2] is
    [a1 mean(m1) + a2 mean(m2)], entry by entry. *)
Theorem posterior_mean_linear
        (cholesky : mat -> result mat)
        (triangular_solve : mat -> vec -> bool -> vec)
        (self : SmoothingLDS.t) (A Q0inv Qinv : mat)
        (m1 m2 : list (list vec)) (r_psi_sqrt : list (list mat)) (a1 a2 : R) :
  let d := SmoothingLDS.dim_latent self in
  let T := SmoothingLDS.num_time_pts self in
  let mean_of := SmoothingLDS.posterior_mean cholesky triangular_solve self
                   A Q0inv Qinv in
  let combined :=
    zip_with (zip_with (fun x y => mkvec d (fun i => a1 * vnth x i + a2 * vnth y i)))
             m1 m2 in
  cholesky_contract d cholesky ->
  triangular_solve_contract d triangular_solve ->
  (0 < d)%nat -> (2 <= T)%nat -> spd d Q0inv -> spd d Qinv ->
  Forall (fun r => length r = T) r_psi_sqrt ->
  length m1 = length r_psi_sqrt -> length m2 = length r_psi_sqrt ->
  Forall (fun m => length m = T) m1 -> Forall (fun m => length m = T) m2 ->
  exists means1 means2 means,
    mean_of m1 r_psi_sqrt = Ok means1 /\
    mean_of m2 r_psi_sqrt = Ok means2 /\
    mean_of combined r_psi_sqrt = Ok means /\
    forall b t i, (b < length r_psi_sqrt)%nat -> (t < T)%nat -> (i < d)%nat ->
      vnth (nth t (nth b means []) []) i
      = a1 * vnth (nth t (nth b means1 []) []) i
        + a2 * vnth (nth t (nth b means2 []) []) i.
Proof.
  cbv zeta. intros Hchol Hsolve Hd HT HQ0 HQ Hr Hl1 Hl2 Hm1 Hm2.
  set (comb := fun x y : list R => mkvec (SmoothingLDS.dim_latent self) (fun i => a1 * vnth x i + a2 * vnth y i)).
  set (m12 := zip_with (zip_with comb) m1 m2).
  assert (Hl12 : length m12 = length r_psi_sqrt).
  { unfold m12. rewrite length_zip_with; congruence. }
  assert (Hnth12 : forall b, (b < length r_psi_sqrt)%nat ->
            nth b m12 [] = zip_with comb (nth b m1 []) (nth b m2 [])).
  { intros b Hb. unfold m12. apply nth_zip_with; [congruence|lia]. }
  assert (Hlenb : forall (m : list (list vec)) b,
            Forall (fun x => length x = (SmoothingLDS.num_time_pts self)) m -> length m = length r_psi_sqrt ->
            (b < length r_psi_sqrt)%nat -> length (nth b m []) = (SmoothingLDS.num_time_pts self)).
  { intros m b Hm Hl Hb. apply Forall_length_nth; [assumption|lia]. }
  assert (Hm12 : Forall (fun m => length m = (SmoothingLDS.num_time_pts self)) m12).
  { apply (Forall_nth_lt _ _ _ []). intros b Hb. rewrite Hl12 in Hb.
    rewrite Hnth12 by assumption.
    rewrite length_zip_with; rewrite !Hlenb by assumption; reflexivity. }
  destruct (batch_means cholesky triangular_solve self A Q0inv Qinv
              Hchol Hsolve Hd HT HQ0 HQ r_psi_sqrt Hr m1 Hl1 Hm1)
    as (Css & Ess & means1 & Hc1 & Hrun1 & _ & _ & _ & Hb1).
  destruct (batch_means cholesky triangular_solve self A Q0inv Qinv
              Hchol Hsolve Hd HT HQ0 HQ r_psi_sqrt Hr m2 Hl2 Hm2)
    as (Css2 & Ess2 & means2 & Hc2 & Hrun2 & _ & _ & _ & Hb2).
  destruct (batch_means cholesky triangular_solve self A Q0inv Qinv
              Hchol Hsolve Hd HT HQ0 HQ r_psi_sqrt Hr m12 Hl12 Hm12)
    as (Css3 & Ess3 & means & Hc3 & Hrun & _ & _ & _ & Hb3).
  rewrite Hc1 in Hc2, Hc3. apply ok_inj in Hc2, Hc3.
  injection Hc2 as <- <-. injection Hc3 as <- <-.
  exists means1, means2, means.
  split; [exact Hrun1|]. split; [exact Hrun2|]. split; [exact Hrun|].
  intros b t i Hb Ht Hi.
  destruct (Hb1 b Hb) as [Hfac E1]. destruct (Hb2 b Hb) as [_ E2].
  destruct (Hb3 b Hb) as [_ E3].
  destruct (sequence_factor cholesky triangular_solve self A Q0inv Qinv
              Hchol Hsolve Hd HT HQ0 HQ r_psi_sqrt Hr b Hb)
    as (HlenD & Hlenc & Hpd & _).
  set (Ds := nth b (map (fun c_b => zip_with (madd (SmoothingLDS.dim_latent self)) (static_blocks self A Q0inv Qinv) c_b)
                        (SmoothingLDS.c_psi_inv self r_psi_sqrt)) []) in *.
  set (Ls := static_lower self A Q0inv Qinv) in *.
  set (cb := nth b (SmoothingLDS.c_psi_inv self r_psi_sqrt) []) in *.
  assert (Hia : forall (m : list (list vec)),
            Forall (fun x => length x = (SmoothingLDS.num_time_pts self)) m -> length m = length r_psi_sqrt ->
            length (zip_with (mv (SmoothingLDS.dim_latent self)) cb (nth b m [])) = length Ds /\
            Forall (wf_vec (SmoothingLDS.dim_latent self)) (zip_with (mv (SmoothingLDS.dim_latent self)) cb (nth b m []))).
  { intros m Hm Hl. split.
    - rewrite length_zip_with; rewrite ?Hlenb by assumption; congruence.
    - apply Forall_zip_with. intros x y _ _. apply wf_mv. }
  assert (Hsolve_m : forall (m : list (list vec)) mean,
            Forall (fun x => length x = (SmoothingLDS.num_time_pts self)) m -> length m = length r_psi_sqrt ->
            mean = CholUtils.backward_subst (SmoothingLDS.dim_latent self) triangular_solve (nth b Css []) (nth b Ess [])
                     (CholUtils.forward_subst (SmoothingLDS.dim_latent self) triangular_solve (nth b Css [])
                        (nth b Ess []) (zip_with (mv (SmoothingLDS.dim_latent self)) cb (nth b m []))) ->
            length mean = length Ds /\
            mv (length Ds * (SmoothingLDS.dim_latent self)) (expand_tridiag (SmoothingLDS.dim_latent self) Ds Ls) (flatten (SmoothingLDS.dim_latent self) mean)
            = flatten (SmoothingLDS.dim_latent self) (zip_with (mv (SmoothingLDS.dim_latent self)) cb (nth b m []))).
  { intros m mean Hm Hl ->. destruct (Hia m Hm Hl) as [H1 H2].
    exact (block_solve_dense (SmoothingLDS.dim_latent self) Hd triangular_solve Hsolve Ds Ls _ _ _ Hfac H1 H2). }
  destruct (Hsolve_m m1 _ Hm1 Hl1 E1) as [Hlen1 Hs1].
  destruct (Hsolve_m m2 _ Hm2 Hl2 E2) as [Hlen2 Hs2].
  destruct (Hsolve_m m12 _ Hm12 Hl12 E3) as [Hlen3 Hs3].
  set (n := (length Ds * (SmoothingLDS.dim_latent self))%nat) in *.
  set (X1 := flatten (SmoothingLDS.dim_latent self) (nth b means1 [])) in *.
  set (X2 := flatten (SmoothingLDS.dim_latent self) (nth b means2 [])) in *.
  set (X := flatten (SmoothingLDS.dim_latent self) (nth b means [])) in *.
  assert (HwX1 : wf_vec n X1) by (unfold X1, n; rewrite <- Hlen1; apply wf_flatten).
  assert (HwX2 : wf_vec n X2) by (unfold X2, n; rewrite <- Hlen2; apply wf_flatten).
  assert (HwX : wf_vec n X) by (unfold X, n; rewrite <- Hlen3; apply wf_flatten).
  (* the right-hand side is linear in [m_psi] *)
  assert (Hrhs : flatten (SmoothingLDS.dim_latent self) (zip_with (mv (SmoothingLDS.dim_latent self)) cb (nth b m12 []))
                 = mkvec n (fun I =>
                     a1 * vnth (flatten (SmoothingLDS.dim_latent self) (zip_with (mv (SmoothingLDS.dim_latent self)) cb (nth b m1 []))) I
                     + a2 * vnth (flatten (SmoothingLDS.dim_latent self) (zip_with (mv (SmoothingLDS.dim_latent self)) cb (nth b m2 []))) I)).
  { destruct (Hia m1 Hm1 Hl1) as [L1 _]. destruct (Hia m2 Hm2 Hl2) as [L2 _].
    destruct (Hia m12 Hm12 Hl12) as [L3 _].
    unfold flatten at 1. rewrite L3. fold n. apply mkvec_ext. intros I HI.
    rewrite !vnth_flatten by (rewrite ?L1, ?L2; exact HI).
    unfold block_entry.
    assert (Ht' : (I / (SmoothingLDS.dim_latent self) < (SmoothingLDS.num_time_pts self))%nat).
    { rewrite <- HlenD. now apply (index_div_lt (SmoothingLDS.dim_latent self) Hd). }
    assert (Hi' : (I mod (SmoothingLDS.dim_latent self) < (SmoothingLDS.dim_latent self))%nat) by now apply index_mod_lt.
    rewrite !(nth_zip_with _ _ _ _ _ _ _ [] [])
      by (rewrite ?Hlenb by assumption; congruence).
    rewrite Hnth12 by assumption.
    rewrite (nth_zip_with _ _ _ _ _ _ _ [] [])
      by (rewrite !Hlenb by assumption; congruence).
    rewrite !vnth_mv by assumption.
    rewrite <- !rsum_scal_l, <- rsum_plus. apply rsum_ext. intros j Hj.
    unfold comb. rewrite vnth_mkvec by assumption. lra. }
  assert (HXY : X = mkvec n (fun I => a1 * vnth X1 I + a2 * vnth X2 I)).
  { apply (posdef_injective n (expand_tridiag (SmoothingLDS.dim_latent self) Ds Ls)).
    - apply posdef_block_dense; assumption.
    - exact HwX.
    - apply wf_mkvec.
    - rewrite mv_combination, !mkvec_vnth by assumption.
      rewrite Hs1, Hs2, Hs3. exact Hrhs. }
  assert (Hentry : forall mean, length mean = length Ds ->
            vnth (nth t mean []) i = vnth (flatten (SmoothingLDS.dim_latent self) mean) (t * (SmoothingLDS.dim_latent self) + i)).
  { intros mean Hl. rewrite vnth_flatten.
    - now rewrite (block_entry_block (SmoothingLDS.dim_latent self) Hd).
    - rewrite Hl, HlenD. apply block_index_lt; assumption. }
  rewrite (Hentry _ Hlen1), (Hentry _ Hlen2), (Hentry _ Hlen3).
  fold X X1 X2. rewrite HXY. rewrite vnth_mkvec; [reflexivity|].
  unfold n. rewrite HlenD. apply block_index_lt; assumption.
Qed.

(** X18.  A posterior sample deviates from the posterior mean by the
    drawn noise whitened with the block factor: with the kernels meeting
    their contracts, [d >= 1], [T >= 2], symmetric positive definite
    [Q0inv] and [Qinv], and a noise tensor of the shape [[B, T, d]] of
    the batch, [post_z_samples] returns, and for every sequence
    the quadratic form of the dense assembled precision [S] at
    [sample - mean] is the squared length of that sequence's noise. *)
Theorem posterior_sample_deviation
        (cholesky : mat -> result mat)
        (triangular_solve : mat -> vec -> bool -> vec)
        (self : SmoothingLDS.t) (A Q0inv Qinv : mat)
        (m_psi : list (list vec)) (r_psi_sqrt : list (list mat))
        (samples_z : list (list vec)) :
  let d := SmoothingLDS.dim_latent self in
  let T := SmoothingLDS.num_time_pts self in
  let g := SmoothingLDS.build_nodes cholesky triangular_solve self A Q0inv Qinv
             m_psi r_psi_sqrt in
  cholesky_contract d cholesky ->
  triangular_solve_contract d triangular_solve ->
  (0 < d)%nat -> (2 <= T)%nat -> spd d Q0inv -> spd d Qinv ->
  length m_psi = length r_psi_sqrt ->
  Forall (fun r => length r = T) r_psi_sqrt ->
  Forall (fun m => length m = T) m_psi ->
  length samples_z = length r_psi_sqrt ->
  Forall (fun z => length z = T /\ Forall (wf_vec d) z) samples_z ->
  exists Dss Ls means samples,
    SmoothingLDS.Sinv_diag self A Q0inv Qinv r_psi_sqrt = Ok Dss /\
    SmoothingLDS.Sinv_ldiag0 self A Q0inv Qinv = Ok Ls /\
    SmoothingLDS.post_z_means g = Ok means /\
    SmoothingLDS.post_z_samples g samples_z = Ok samples /\
    length samples = length r_psi_sqrt /\
    forall b, (b < length r_psi_sqrt)%nat ->
      let n := (T * d)%nat in
      let S := expand_tridiag d (nth b Dss []) Ls in
      let noise := flatten d (nth b samples_z []) in
      let deviation :=
        mkvec n (fun I => vnth (flatten d (nth b samples [])) I
                          - vnth (flatten d (nth b means [])) I) in
      length (nth b samples []) = T /\
      quad n S deviation = dot n noise noise.
Proof.
  cbv zeta. intros Hchol Hsolve Hd HT HQ0 HQ Hlm Hr Hm Hlz Hz.
  destruct (batch_means cholesky triangular_solve self A Q0inv Qinv
              Hchol Hsolve Hd HT HQ0 HQ r_psi_sqrt Hr m_psi Hlm Hm)
    as (Css & Ess & means & Hdec & Hrun & HlenC & HlenE & Hlenm & Hb).
  assert (Hzb : forall b, (b < length r_psi_sqrt)%nat ->
            length (nth b samples_z []) = (SmoothingLDS.num_time_pts self) /\
            Forall (wf_vec (SmoothingLDS.dim_latent self)) (nth b samples_z [])).
  { intros b Hlt. rewrite Forall_forall in Hz. apply Hz. apply nth_In. lia. }
  assert (Hhalf : forall b, (b < length r_psi_sqrt)%nat ->
            SmoothingLDS.scan_chol_half_inv triangular_solve self
              (nth b Css []) (nth b Ess []) (nth b samples_z [])
            = Ok (CholUtils.backward_subst (SmoothingLDS.dim_latent self) triangular_solve
                    (nth b Css []) (nth b Ess []) (nth b samples_z []))).
  { intros b Hlt. destruct (Hb b Hlt) as [Hfac _].
    destruct (factor_blocks (SmoothingLDS.dim_latent self) _ _ _ _ Hfac) as (HlC & HlE & _).
    destruct (sequence_factor cholesky triangular_solve self A Q0inv Qinv
                Hchol Hsolve Hd HT HQ0 HQ r_psi_sqrt Hr b Hlt) as (HlenD & _).
    destruct (Hzb b Hlt) as [Hlz' _].
    unfold SmoothingLDS.scan_chol_half_inv.
    apply (blk_chol_inv_backward_run (SmoothingLDS.dim_latent self) triangular_solve Hd); congruence. }
  destruct (scan3_nth _ _ _ _
              (SmoothingLDS.scan_chol_half_inv triangular_solve self)
              [] [] [] [] Css Ess samples_z)
    as (rands & Hrands & Hlenr & Hrb); try congruence.
  { intros b Hlt. rewrite HlenC in Hlt. rewrite (Hhalf b Hlt). eauto. }
  exists (map (fun c => zip_with (madd (SmoothingLDS.dim_latent self)) (static_blocks self A Q0inv Qinv) c)
              (SmoothingLDS.c_psi_inv self r_psi_sqrt)),
         (static_lower self A Q0inv Qinv), means,
         (zip_with (zip_with (vadd (SmoothingLDS.dim_latent self))) means rands).
  split; [now apply Sinv_diag_ok|].
  split; [now apply Sinv_ldiag0_ok|].
  split; [exact Hrun|].
  split.
  { cbn [SmoothingLDS.post_z_samples SmoothingLDS.build_nodes].
    unfold SmoothingLDS.posterior_samples.
    rewrite Hrun, Hdec. cbn [bind fst snd].
    rewrite Hrands. reflexivity. }
  split; [rewrite length_zip_with; congruence|].
  intros b Hlt.
  destruct (Hb b Hlt) as [Hfac Emean].
  destruct (sequence_factor cholesky triangular_solve self A Q0inv Qinv
              Hchol Hsolve Hd HT HQ0 HQ r_psi_sqrt Hr b Hlt) as (HlenD & _).
  destruct (nth_ia cholesky triangular_solve self A Q0inv Qinv
              Hchol Hsolve Hd HT HQ0 HQ r_psi_sqrt Hr m_psi Hlm Hm b Hlt)
    as (_ & Hlenia & Hwfia).
  destruct (forward_subst_shape _ triangular_solve Hsolve _ _ _ _ _ Hfac
              (eq_trans Hlenia (eq_sym HlenD)) Hwfia) as (Hleny & Hwy).
  destruct (backward_solve_dense _ triangular_solve Hsolve Hd _ _ _ _ _ Hfac
              Hleny Hwy) as (Hlenx & _ & _).
  rewrite <- Emean in Hlenx.
  destruct (Hzb b Hlt) as [Hlz' Hwz].
  destruct (backward_solve_dense _ triangular_solve Hsolve Hd _ _ _ _
              (nth b samples_z []) Hfac (eq_trans Hlz' (eq_sym HlenD)) Hwz)
    as (Hlenrb & _ & Hdense).
  pose proof (Hrb b ltac:(lia)) as Er. rewrite (Hhalf b Hlt) in Er.
  apply ok_inj in Er. rewrite Er in Hlenrb, Hdense.
  assert (Hsb : nth b (zip_with (zip_with (vadd (SmoothingLDS.dim_latent self))) means rands) []
                = zip_with (vadd (SmoothingLDS.dim_latent self)) (nth b means []) (nth b rands [])).
  { apply nth_zip_with; [congruence|lia]. }
  rewrite Hsb.
  assert (Hlens : length (zip_with (vadd (SmoothingLDS.dim_latent self)) (nth b means []) (nth b rands [])) = (SmoothingLDS.num_time_pts self)).
  { rewrite length_zip_with; congruence. }
  split; [exact Hlens|].
  assert (Hdev : mkvec ((SmoothingLDS.num_time_pts self) * (SmoothingLDS.dim_latent self))
                   (fun I => vnth (flatten (SmoothingLDS.dim_latent self) (zip_with (vadd (SmoothingLDS.dim_latent self)) (nth b means [])
                                                 (nth b rands []))) I
                             - vnth (flatten (SmoothingLDS.dim_latent self) (nth b means [])) I)
                 = flatten (SmoothingLDS.dim_latent self) (nth b rands [])).
  { unfold flatten at 3. rewrite Hlenrb, HlenD. apply mkvec_ext. intros I HI.
    rewrite !vnth_flatten by (rewrite ?Hlens, ?Hlenx, ?HlenD; exact HI).
    unfold block_entry.
    assert (Ht' : (I / (SmoothingLDS.dim_latent self) < (SmoothingLDS.num_time_pts self))%nat) by now apply (index_div_lt (SmoothingLDS.dim_latent self) Hd).
    rewrite (nth_zip_with _ _ _ _ _ _ _ [] []) by congruence.
    rewrite vnth_vadd by now apply index_mod_lt. lra. }
  rewrite Hdev. rewrite <- HlenD.
  rewrite <- (dense_product (SmoothingLDS.dim_latent self) Hd _ _ _ _ Hfac).
  rewrite quad_gram. rewrite Hdense. reflexivity.
Qed.

(** [posterior_mean_linear] on one sequence of two steps in one latent
    dimension: the means of [[1; 0]] and [[0; 1]] combined with the
    weights 2 and 3. *)
Lemma posterior_mean_linear_witness :
  cholesky_contract 1 Scalar.cholesky /\
  triangular_solve_contract 1 Scalar.triangular_solve /\
  (2 <= SmoothingLDS.num_time_pts Scalar.two_steps)%nat /\
  spd 1 [[1]] /\
  Forall (fun m : list (list R) => length m = 2%nat) [ [ [1]; [0] ] ] /\
  Forall (fun m : list (list R) => length m = 2%nat) [ [ [0]; [1] ] ] /\
  exists means1 means2 means,
    SmoothingLDS.posterior_mean Scalar.cholesky Scalar.triangular_solve
      Scalar.two_steps [[1]] [[1]] [[1]] [ [ [1]; [0] ] ] [ [ [[1]]; [[1]] ] ]
    = Ok means1 /\
    SmoothingLDS.posterior_mean Scalar.cholesky Scalar.triangular_solve
      Scalar.two_steps [[1]] [[1]] [[1]] [ [ [0]; [1] ] ] [ [ [[1]]; [[1]] ] ]
    = Ok means2 /\
    SmoothingLDS.posterior_mean Scalar.cholesky Scalar.triangular_solve
      Scalar.two_steps [[1]] [[1]] [[1]]
      (zip_with (zip_with (fun x y => mkvec 1 (fun i => 2 * vnth x i + 3 * vnth y i)))
                [ [ [1]; [0] ] ] [ [ [0]; [1] ] ])
      [ [ [[1]]; [[1]] ] ]
    = Ok means /\
    vnth (nth 0 (nth 0 means []) []) 0
    = 2 * vnth (nth 0 (nth 0 means1 []) []) 0
      + 3 * vnth (nth 0 (nth 0 means2 []) []) 0.
Proof.
  assert (Hd : (0 < SmoothingLDS.dim_latent Scalar.two_steps)%nat) by (simpl; lia).
  assert (HT : (2 <= SmoothingLDS.num_time_pts Scalar.two_steps)%nat)
    by (simpl; lia).
  assert (Hspd : spd 1 [[1]]) by (apply spd_1_of_positive; lra).
  assert (Hr : Forall (fun r : list (list (list R)) => length r = 2%nat)
                      [ [ [[1]]; [[1]] ] ]) by (repeat constructor).
  assert (Hm1 : Forall (fun m : list (list R) => length m = 2%nat) [ [ [1]; [0] ] ])
    by (repeat constructor).
  assert (Hm2 : Forall (fun m : list (list R) => length m = 2%nat) [ [ [0]; [1] ] ])
    by (repeat constructor).
  split; [exact scalar_cholesky_ok|]. split; [exact scalar_triangular_solve_ok|].
  split; [exact HT|]. split; [exact Hspd|].
  split; [exact Hm1|]. split; [exact Hm2|].
  destruct (posterior_mean_linear Scalar.cholesky Scalar.triangular_solve
              Scalar.two_steps [[1]] [[1]] [[1]]
              [ [ [1]; [0] ] ] [ [ [0]; [1] ] ] [ [ [[1]]; [[1]] ] ] 2 3
              scalar_cholesky_ok scalar_triangular_solve_ok Hd HT Hspd Hspd
              Hr eq_refl eq_refl Hm1 Hm2)
    as (means1 & means2 & means & H1 & H2 & H & Hlin).
  exists means1, means2, means.
  split; [exact H1|]. split; [exact H2|]. split; [exact H|].
  apply Hlin; simpl; lia.
Defined.

(** [posterior_sample_deviation] on one sequence of two steps in one
    latent dimension, with the noise [[1; 2]]. *)
Lemma posterior_sample_deviation_witness :
  cholesky_contract 1 Scalar.cholesky /\
  triangular_solve_contract 1 Scalar.triangular_solve /\
  (2 <= SmoothingLDS.num_time_pts Scalar.two_steps)%nat /\
  spd 1 [[1]] /\
  Forall (fun z : list (list R) => length z = 2%nat /\ Forall (wf_vec 1) z)
         [ [ [1]; [2] ] ] /\
  exists samples,
    SmoothingLDS.post_z_samples
      (SmoothingLDS.build_nodes Scalar.cholesky Scalar.triangular_solve
         Scalar.two_steps [[1]] [[1]] [[1]] [ [ [1]; [1] ] ] [ [ [[1]]; [[1]] ] ])
      [ [ [1]; [2] ] ]
    = Ok samples /\
    length samples = 1%nat.
Proof.
  assert (Hd : (0 < SmoothingLDS.dim_latent Scalar.two_steps)%nat) by (simpl; lia).
  assert (HT : (2 <= SmoothingLDS.num_time_pts Scalar.two_steps)%nat)
    by (simpl; lia).
  assert (Hspd : spd 1 [[1]]) by (apply spd_1_of_positive; lra).
  assert (Hr : Forall (fun r : list (list (list R)) => length r = 2%nat)
                      [ [ [[1]]; [[1]] ] ]) by (repeat constructor).
  assert (Hm : Forall (fun m : list (list R) => length m = 2%nat) [ [ [1]; [1] ] ])
    by (repeat constructor).
  assert (Hz : Forall (fun z : list (list R) =>
                         length z = 2%nat /\ Forall (wf_vec 1) z)
                      [ [ [1]; [2] ] ]) by (repeat constructor).
  split; [exact scalar_cholesky_ok|]. split; [exact scalar_triangular_solve_ok|].
  split; [exact HT|]. split; [exact Hspd|].
  split; [exact Hz|].
  destruct (posterior_sample_deviation Scalar.cholesky Scalar.triangular_solve
              Scalar.two_steps [[1]] [[1]] [[1]]
              [ [ [1]; [1] ] ] [ [ [[1]]; [[1]] ] ] [ [ [1]; [2] ] ]
              scalar_cholesky_ok scalar_triangular_solve_ok Hd HT Hspd Hspd
              eq_refl Hr Hm eq_refl Hz)
    as (Dss & Ls & means & samples & _ & _ & _ & Hrun & Hlen & _).
  exists samples. split; [exact Hrun|exact Hlen].
Defined.

(** X19.  An empty batch passes through: with [T >= 2], whatever the
    kernels and the parameters are, the factorization returns no block
    and [post_z_means] and [post_z_samples] return the empty tensor; no
    dense factorization or solve is run. *)
Theorem empty_batch_returns_empty
        (cholesky : mat -> result mat)
        (triangular_solve : mat -> vec -> bool -> vec)
        (self : SmoothingLDS.t) (A Q0inv Qinv : mat) :
  (2 <= SmoothingLDS.num_time_pts self)%nat ->
  let g := SmoothingLDS.build_nodes cholesky triangular_solve self A Q0inv Qinv
             [] [] in
  SmoothingLDS.chol_decomp_Sinv g = Ok ([], []) /\
  SmoothingLDS.post_z_means g = Ok [] /\
  SmoothingLDS.post_z_samples g [] = Ok [].
Proof.
  intros HT. cbv zeta.
  cbn [SmoothingLDS.post_z_means SmoothingLDS.post_z_samples
       SmoothingLDS.chol_decomp_Sinv SmoothingLDS.build_nodes].
  assert (Hdec : SmoothingLDS.precision_chol_decomp cholesky triangular_solve self
                   A Q0inv Qinv [] = Ok ([], [])).
  { unfold SmoothingLDS.precision_chol_decomp.
    rewrite (Sinv_diag_ok self A Q0inv Qinv [] HT (Forall_nil _)).
    rewrite (Sinv_ldiag0_ok self A Q0inv Qinv HT). reflexivity. }
  assert (Hmean : SmoothingLDS.posterior_mean cholesky triangular_solve self
                    A Q0inv Qinv [] [] = Ok []).
  { unfold SmoothingLDS.posterior_mean. rewrite Hdec. reflexivity. }
  split; [exact Hdec|]. split; [exact Hmean|].
  unfold SmoothingLDS.posterior_samples. rewrite Hmean, Hdec. reflexivity.
Qed.

(** [empty_batch_returns_empty] on two steps in one latent dimension, with
    a dense factorization that always fails. *)
Lemma empty_batch_returns_empty_witness :
  (2 <= SmoothingLDS.num_time_pts Scalar.two_steps)%nat /\
  SmoothingLDS.post_z_means
    (SmoothingLDS.build_nodes (fun _ => Err NumericalError) Scalar.triangular_solve
       Scalar.two_steps [[1]] [[1]] [[1]] [] [])
  = Ok [].
Proof.
  assert (HT : (2 <= SmoothingLDS.num_time_pts Scalar.two_steps)%nat)
    by (simpl; lia).
  split; [exact HT|].
  exact (proj1 (proj2
           (empty_batch_returns_empty (fun _ => Err NumericalError)
              Scalar.triangular_solve Scalar.two_steps [[1]] [[1]] [[1]] HT))).
Defined.

(* ================================================================== *)
(** * The samples as a function of the noise *)

(** C4.  The samples are a function of the dynamics parameters, the
    encoder's outputs and the value of the noise [samples_z]: with the
    kernels meeting their contracts, [d >= 1], [T >= 2], symmetric positive
    definite [Q0inv] and [Qinv] and a noise tensor of the shape
    [[B, T, d]], [generate_samples] returns, and two invocations on the
    same variables and observations whose noise is the same tensor return
    the same samples, whatever the states of their generators.  For every
    sequence the sample is the posterior mean plus the backward solve
    ([lower=false, transpose=true]) of the noise against the block factor
    [C], that is plus the solution [x] of [C^T x = noise]. *)
Theorem C4_samples_determined_by_noise
        (cholesky : mat -> result mat)
        (triangular_solve : mat -> vec -> bool -> vec)
        (matrix_inverse : mat -> mat)
        (generator : Type)
        (random_normal : generator -> nat -> nat -> nat
                         -> list (list vec) * generator)
        (inference_mlp : list (list vec) -> list (list vec) * list (list mat))
        (self : SmoothingLDS.t)
        (sess sess' : SmoothingLDS.session generator)
        (observations : list (list vec)) :
  let d := SmoothingLDS.dim_latent self in
  let T := SmoothingLDS.num_time_pts self in
  let v := SmoothingLDS.variables sess in
  let m_psi := fst (inference_mlp observations) in
  let r_psi_sqrt := snd (inference_mlp observations) in
  let run := SmoothingLDS.generate_samples cholesky triangular_solve
               matrix_inverse generator random_normal inference_mlp self in
  let noise := fun s : SmoothingLDS.session generator =>
                 fst (random_normal (SmoothingLDS.random_state s)
                        (length observations) T d) in
  let g := SmoothingLDS.build_graph cholesky triangular_solve matrix_inverse
             inference_mlp self v observations in
  cholesky_contract d cholesky ->
  triangular_solve_contract d triangular_solve ->
  (0 < d)%nat -> (2 <= T)%nat ->
  spd d (SmoothingLDS.Q0inv self matrix_inverse v) ->
  spd d (SmoothingLDS.Qinv self matrix_inverse v) ->
  length m_psi = length r_psi_sqrt ->
  Forall (fun r => length r = T) r_psi_sqrt ->
  Forall (fun m => length m = T) m_psi ->
  length (noise sess) = length r_psi_sqrt ->
  Forall (fun z => length z = T /\ Forall (wf_vec d) z) (noise sess) ->
  SmoothingLDS.variables sess' = SmoothingLDS.variables sess ->
  noise sess' = noise sess ->
  exists Css Ess means samples,
    SmoothingLDS.chol_decomp_Sinv g = Ok (Css, Ess) /\
    SmoothingLDS.post_z_means g = Ok means /\
    fst (run sess observations) = Ok samples /\
    fst (run sess' observations) = Ok samples /\
    length samples = length r_psi_sqrt /\
    forall b, (b < length r_psi_sqrt)%nat ->
      let n := (T * d)%nat in
      let C := expand_bidiag d (nth b Css []) (nth b Ess []) in
      exists rands_b,
        CholUtils.blk_chol_inv d triangular_solve (nth b Css []) (nth b Ess [])
                               (nth b (noise sess) []) false true = Ok rands_b /\
        nth b samples [] = zip_with (vadd d) (nth b means []) rands_b /\
        length rands_b = T /\
        mv n (transpose n C) (flatten d rands_b)
        = flatten d (nth b (noise sess) []).
Proof.
  cbv zeta. intros Hchol Hsolve Hd HT HQ0 HQ Hlm Hr Hm Hlz Hz Hv Hnoise.
  unfold SmoothingLDS.generate_samples. cbn [fst]. rewrite Hv, Hnoise.
  set (samples_z := fst (random_normal (SmoothingLDS.random_state sess)
                           (length observations) (SmoothingLDS.num_time_pts self) (SmoothingLDS.dim_latent self))) in *.
  unfold SmoothingLDS.build_graph.
  cbn [SmoothingLDS.post_z_samples SmoothingLDS.post_z_means
       SmoothingLDS.chol_decomp_Sinv SmoothingLDS.build_nodes].
  set (v := SmoothingLDS.variables sess) in *.
  set (A := SmoothingLDS.A v).
  set (Q0inv := SmoothingLDS.Q0inv self matrix_inverse v) in *.
  set (Qinv := SmoothingLDS.Qinv self matrix_inverse v) in *.
  set (m_psi := fst (inference_mlp observations)) in *.
  set (r_psi_sqrt := snd (inference_mlp observations)) in *.
  destruct (batch_means cholesky triangular_solve self A Q0inv Qinv
              Hchol Hsolve Hd HT HQ0 HQ r_psi_sqrt Hr m_psi Hlm Hm)
    as (Css & Ess & means & Hdec & Hrun & HlenC & HlenE & Hlenm & Hb).
  assert (Hzb : forall b, (b < length r_psi_sqrt)%nat ->
            length (nth b samples_z []) = (SmoothingLDS.num_time_pts self) /\
            Forall (wf_vec (SmoothingLDS.dim_latent self)) (nth b samples_z [])).
  { intros b Hlt. rewrite Forall_forall in Hz. apply Hz. apply nth_In. lia. }
  assert (Hhalf : forall b, (b < length r_psi_sqrt)%nat ->
            SmoothingLDS.scan_chol_half_inv triangular_solve self
              (nth b Css []) (nth b Ess []) (nth b samples_z [])
            = Ok (CholUtils.backward_subst (SmoothingLDS.dim_latent self) triangular_solve
                    (nth b Css []) (nth b Ess []) (nth b samples_z []))).
  { intros b Hlt. destruct (Hb b Hlt) as [Hfac _].
    destruct (factor_blocks (SmoothingLDS.dim_latent self) _ _ _ _ Hfac) as (HlC & HlE & _).
    destruct (sequence_factor cholesky triangular_solve self A Q0inv Qinv
                Hchol Hsolve Hd HT HQ0 HQ r_psi_sqrt Hr b Hlt) as (HlenD & _).
    destruct (Hzb b Hlt) as [Hlz' _].
    unfold SmoothingLDS.scan_chol_half_inv.
    apply (blk_chol_inv_backward_run (SmoothingLDS.dim_latent self) triangular_solve Hd); congruence. }
  destruct (scan3_nth _ _ _ _
              (SmoothingLDS.scan_chol_half_inv triangular_solve self)
              [] [] [] [] Css Ess samples_z)
    as (rands & Hrands & Hlenr & Hrb); try congruence.
  { intros b Hlt. rewrite HlenC in Hlt. rewrite (Hhalf b Hlt). eauto. }
  assert (Hsamples :
    SmoothingLDS.posterior_samples cholesky triangular_solve self A Q0inv Qinv
      m_psi r_psi_sqrt samples_z
    = Ok (zip_with (zip_with (vadd (SmoothingLDS.dim_latent self))) means rands)).
  { unfold SmoothingLDS.posterior_samples.
    rewrite Hrun, Hdec. cbn [bind fst snd]. rewrite Hrands. reflexivity. }
  exists Css, Ess, means, (zip_with (zip_with (vadd (SmoothingLDS.dim_latent self))) means rands).
  split; [exact Hdec|]. split; [exact Hrun|].
  split; [exact Hsamples|]. split; [exact Hsamples|].
  split; [rewrite length_zip_with; congruence|].
  intros b Hlt.
  destruct (Hb b Hlt) as [Hfac _].
  destruct (sequence_factor cholesky triangular_solve self A Q0inv Qinv
              Hchol Hsolve Hd HT HQ0 HQ r_psi_sqrt Hr b Hlt) as (HlenD & _).
  destruct (factor_blocks (SmoothingLDS.dim_latent self) _ _ _ _ Hfac) as (HlC & _).
  destruct (Hzb b Hlt) as [Hlz' Hwz].
  destruct (backward_solve_dense _ triangular_solve Hsolve Hd _ _ _ _
              (nth b samples_z []) Hfac (eq_trans Hlz' (eq_sym HlenD)) Hwz)
    as (Hlenrb & _ & Hdense).
  pose proof (Hrb b ltac:(lia)) as Er.
  assert (Erb : CholUtils.backward_subst (SmoothingLDS.dim_latent self) triangular_solve
                  (nth b Css []) (nth b Ess []) (nth b samples_z [])
                = nth b rands []).
  { rewrite (Hhalf b Hlt) in Er. now apply ok_inj in Er. }
  rewrite Erb in Hlenrb, Hdense.
  exists (nth b rands []).
  split; [exact Er|].
  split; [apply nth_zip_with; [congruence|lia]|].
  split; [congruence|].
  rewrite <- HlenD. exact Hdense.
Qed.

(** [C4_samples_determined_by_noise] on one sequence of two steps in one
    latent dimension: two sessions whose generators are in different
    states and draw the same tensor return the same samples, the backward
    solve [[2; 1]] of the noise [[1; 1]] added to the zero mean. *)
Lemma C4_witness :
  let sess := SmoothingLDS.Session Run.unit_vars 0%nat in
  let sess' := SmoothingLDS.Session Run.unit_vars 1%nat in
  sess <> sess' /\
  cholesky_contract 1 Scalar.cholesky /\
  triangular_solve_contract 1 Scalar.triangular_solve /\
  (2 <= SmoothingLDS.num_time_pts Scalar.two_steps)%nat /\
  spd 1 (SmoothingLDS.Qinv Scalar.two_steps Scalar.matrix_inverse Run.unit_vars) /\
  SmoothingLDS.variables sess' = SmoothingLDS.variables sess /\
  fst (Run.fixed_normal (SmoothingLDS.random_state sess')
         (length Run.observations) 2 1)
  = fst (Run.fixed_normal (SmoothingLDS.random_state sess)
           (length Run.observations) 2 1) /\
  fst (Run.generate_samples sess Run.observations) = Ok [ [ [1 + 1]; [1] ] ] /\
  fst (Run.generate_samples sess' Run.observations) = Ok [ [ [1 + 1]; [1] ] ].
Proof.
  cbv zeta.
  assert (Hd : (0 < SmoothingLDS.dim_latent Scalar.two_steps)%nat) by (simpl; lia).
  assert (HT : (2 <= SmoothingLDS.num_time_pts Scalar.two_steps)%nat)
    by (simpl; lia).
  assert (HQ0 : spd 1 (SmoothingLDS.Q0inv Scalar.two_steps Scalar.matrix_inverse
                         Run.unit_vars)).
  { rewrite (proj1 run_params). apply spd_1_of_positive. lra. }
  assert (HQ : spd 1 (SmoothingLDS.Qinv Scalar.two_steps Scalar.matrix_inverse
                        Run.unit_vars)).
  { rewrite (proj2 run_params). apply spd_1_of_positive. lra. }
  split; [discriminate|].
  split; [exact scalar_cholesky_ok|]. split; [exact scalar_triangular_solve_ok|].
  split; [exact HT|]. split; [exact HQ|].
  split; [reflexivity|]. split; [reflexivity|].
  destruct (C4_samples_determined_by_noise Scalar.cholesky Scalar.triangular_solve
              Scalar.matrix_inverse nat Run.fixed_normal Run.zero_mlp
              Scalar.two_steps
              (SmoothingLDS.Session Run.unit_vars 0%nat)
              (SmoothingLDS.Session Run.unit_vars 1%nat)
              Run.observations
              scalar_cholesky_ok scalar_triangular_solve_ok Hd HT HQ0 HQ
              eq_refl ltac:(repeat constructor) ltac:(repeat constructor)
              eq_refl ltac:(repeat constructor) eq_refl eq_refl)
    as (Css & Ess & means & samples & _ & _ & H1 & H2 & _).
  fold Run.generate_samples in H1, H2.
  assert (Hs : Ok samples = Ok [ [ [1 + 1]; [1] ] ]).
  { rewrite <- H1. now rewrite run_generate_samples. }
  rewrite Hs in H1, H2. split; [exact H1|exact H2].
Defined.
